(** * Digital wallet: event-sourced engine, event store and event codec

    A shallow embedding of the wallet core of the repository:

    - [internal/engine]      (the [WalletEngine] state machine and its command
                              handler),
    - [internal/eventstore]  (the append-only log file: [Append], [AppendBatch],
                              [LoadAll]),
    - [internal/domain]      (the three event variants and their codec),
    - [internal/cqrs]        (the read model).

    Go's [int64] is modelled as [Z] with the wrap-around written out
    ([Int64.wrap]); Go's [map[string]T] as stdpp's [gmap string T], a read of
    an absent key giving the zero value; Go's [string] and [[]byte] as byte
    strings. Methods with a pointer receiver are computations in a small state
    monad over the engine. Locks, tracing spans, metrics and log lines carry
    no state the properties below depend on and are left out. *)

From Stdlib Require Import ZArith NArith String Ascii List Lia Bool.
From Stdlib.Strings Require Import Byte.
From stdpp Require Import gmap strings list fin_maps.

Local Open Scope Z_scope.

(* ===================================================================== *)
(** * Machine integers *)
(* ===================================================================== *)

Module Int64.

Definition min_int : Z := - 2 ^ 63.
Definition max_int : Z := 2 ^ 63 - 1.
Definition modulus : Z := 2 ^ 64.

Definition in_range (z : Z) : Prop := min_int <= z <= max_int.

(** Two's complement reduction of an exact result to 64 bits. *)
Definition wrap (z : Z) : Z := (z + 2 ^ 63) mod modulus - 2 ^ 63.

(** Go's [+] and [-] on [int64]. *)
Definition add (a b : Z) : Z := wrap (a + b).
Definition sub (a b : Z) : Z := wrap (a - b).

End Int64.

(* ===================================================================== *)
(** * Bytes *)
(* ===================================================================== *)

Definition bytes := list byte.

(** Go's [byte(x)] and the value of a byte. *)
Definition b2n (b : byte) : N := Byte.to_N b.
Definition n2b (n : N) : byte := default x00 (Byte.of_N (n mod 256)).

(** The bytes of a Go string and back. *)
Definition str (s : string) : bytes := list_byte_of_string s.
Definition unstr (b : bytes) : string := string_of_list_byte b.

(* ===================================================================== *)
(** * Library models: unicode/utf8, strconv, time, encoding/json *)
(* ===================================================================== *)

(** These packages are not part of the repository; they are modelled as far as
    the codec calls them. *)

(** Go's [unicode/utf8]. *)
Module Utf8.

Local Open Scope N_scope.

Definition RuneError : N := 0xFFFD.
Definition MaxRune : N := 0x10FFFF.

(** The row of [first] and [acceptRanges] for a leading byte at or above
    [RuneSelf]: the width of the sequence and the range of its second byte;
    [None] for the bytes that begin no sequence. *)
Definition first (c0 : N) : option (nat * N * N) :=
  if c0 <? 0xC2 then None
  else if c0 <? 0xE0 then Some (2%nat, 0x80, 0xBF)
  else if c0 =? 0xE0 then Some (3%nat, 0xA0, 0xBF)
  else if c0 =? 0xED then Some (3%nat, 0x80, 0x9F)
  else if c0 <? 0xF0 then Some (3%nat, 0x80, 0xBF)
  else if c0 =? 0xF0 then Some (4%nat, 0x90, 0xBF)
  else if c0 <? 0xF4 then Some (4%nat, 0x80, 0xBF)
  else if c0 =? 0xF4 then Some (4%nat, 0x80, 0x8F)
  else None.

Definition between (lo hi : N) (b : byte) : bool := (lo <=? b2n b) && (b2n b <=? hi).
Definition cont (b : byte) : bool := between 0x80 0xBF b.

(** [utf8.DecodeRune]: the rune at the head of [p] and its width;
    [(RuneError, 1)] when the head is ill-formed, [(RuneError, 0)] when [p]
    is empty. *)
Definition DecodeRune (p : bytes) : N * nat :=
  match p with
  | [] => (RuneError, 0%nat)
  | p0 :: t =>
      if b2n p0 <? 0x80 then (b2n p0, 1%nat)
      else
        match first (b2n p0), t with
        | Some (2%nat, lo, hi), b1 :: _ =>
            if between lo hi b1 then
              (N.lor (N.shiftl (N.land (b2n p0) 0x1F) 6) (N.land (b2n b1) 0x3F), 2%nat)
            else (RuneError, 1%nat)
        | Some (3%nat, lo, hi), b1 :: b2 :: _ =>
            if between lo hi b1 && cont b2 then
              (N.lor (N.lor (N.shiftl (N.land (b2n p0) 0x0F) 12)
                            (N.shiftl (N.land (b2n b1) 0x3F) 6))
                     (N.land (b2n b2) 0x3F), 3%nat)
            else (RuneError, 1%nat)
        | Some (4%nat, lo, hi), b1 :: b2 :: b3 :: _ =>
            if between lo hi b1 && cont b2 && cont b3 then
              (N.lor (N.lor (N.lor (N.shiftl (N.land (b2n p0) 0x07) 18)
                                   (N.shiftl (N.land (b2n b1) 0x3F) 12))
                            (N.shiftl (N.land (b2n b2) 0x3F) 6))
                     (N.land (b2n b3) 0x3F), 4%nat)
            else (RuneError, 1%nat)
        | _, _ => (RuneError, 1%nat)
        end
  end.

(** [utf8.EncodeRune]. *)
Definition EncodeRune (r : N) : bytes :=
  if r <=? 0x7F then [n2b r]
  else if r <=? 0x7FF then
    [n2b (N.lor 0xC0 (N.shiftr r 6)); n2b (N.lor 0x80 (N.land r 0x3F))]
  else
    let r := if (MaxRune <? r) || ((0xD800 <=? r) && (r <=? 0xDFFF)) then RuneError else r in
    if r <=? 0xFFFF then
      [n2b (N.lor 0xE0 (N.shiftr r 12));
       n2b (N.lor 0x80 (N.land (N.shiftr r 6) 0x3F));
       n2b (N.lor 0x80 (N.land r 0x3F))]
    else
      [n2b (N.lor 0xF0 (N.shiftr r 18));
       n2b (N.lor 0x80 (N.land (N.shiftr r 12) 0x3F));
       n2b (N.lor 0x80 (N.land (N.shiftr r 6) 0x3F));
       n2b (N.lor 0x80 (N.land r 0x3F))].

(** The head of [p] is ill-formed: [DecodeRune] answered [(RuneError, 1)]. *)
Definition ill_formed (p : bytes) : bool :=
  let (r, size) := DecodeRune p in (r =? RuneError) && Nat.eqb size 1.

(** [utf8.Valid]. *)
Fixpoint Valid_go (fuel : nat) (p : bytes) : bool :=
  match fuel with
  | O => true
  | S fuel =>
      match p with
      | [] => true
      | _ :: _ => negb (ill_formed p) && Valid_go fuel (drop (snd (DecodeRune p)) p)
      end
  end.

Definition Valid (p : bytes) : bool := Valid_go (length p) p.
Definition ValidString (s : string) : bool := Valid (str s).

End Utf8.

(** Go's [strconv], base 10 only. *)
Module Strconv.

Definition digit (n : N) : byte := n2b (48 + n mod 10)%N.

Definition is_digit (b : byte) : bool := Utf8.between 48 57 b.

(** The decimal digits of [n], most significant first: [formatBits]. *)
Fixpoint format_go (fuel : nat) (n : N) (acc : bytes) : bytes :=
  match fuel with
  | O => acc
  | S fuel =>
      if (n <? 10)%N then digit n :: acc
      else format_go fuel (n / 10)%N (digit n :: acc)
  end.

Definition FormatUint (n : N) : bytes := format_go (S (N.to_nat (N.log2 n))) n [].

(** [strconv.AppendInt(nil, i, 10)]. *)
Definition FormatInt (i : Z) : bytes :=
  if (i <? 0)%Z then x2d :: FormatUint (Z.to_N (- i)) else FormatUint (Z.to_N i).

(** The value of a run of decimal digits read left to right; [None] on an
    empty run or a byte that is no digit. *)
Fixpoint digits_value (acc : N) (s : bytes) : option N :=
  match s with
  | [] => Some acc
  | c :: rest =>
      if is_digit c then digits_value (acc * 10 + (b2n c - 48))%N rest else None
  end.

(** [strconv.ParseInt(s, 10, 64)]: an optional sign, then digits; an error
    on anything else and on a value outside [int64]. *)
Definition ParseInt (s : bytes) : option Z :=
  let (neg, ds) :=
    match s with
    | x2d :: ds => (true, ds)
    | x2b :: ds => (false, ds)
    | _ => (false, s)
    end in
  match ds with
  | [] => None
  | _ :: _ =>
      match digits_value 0 ds with
      | None => None
      | Some n =>
          let v := if neg then (- Z.of_N n)%Z else Z.of_N n in
          if ((- 2 ^ 63 <=? v) && (v <=? 2 ^ 63 - 1))%Z then Some v else None
      end
  end.

End Strconv.

(** Go's [time], as far as [time.Time]'s JSON methods go. *)
Module GoTime.

Local Open Scope N_scope.

(** A UTC instant, broken down as [GoTime.Date] and [GoTime.Clock] report it. *)
Record t := {
  year : Z;
  month : N;
  day : N;
  hour : N;
  minute : N;
  second : N;
  nanosecond : N
}.

Definition isLeap (y : N) : bool :=
  (y mod 4 =? 0) && (negb (y mod 100 =? 0) || (y mod 400 =? 0)).

Definition daysIn (m y : N) : N :=
  if m =? 2 then (if isLeap y then 29 else 28)
  else if (m =? 4) || (m =? 6) || (m =? 9) || (m =? 11) then 30
  else 31.

(** What [time.Now().UTC()] can return: a date of the calendar and a time
    of the day. *)
Definition wf (x : t) : Prop :=
  1 <= month x <= 12 /\
  1 <= day x <= daysIn (month x) (Z.to_N (year x)) /\
  hour x <= 23 /\ minute x <= 59 /\ second x <= 59 /\ nanosecond x <= 999999999.

(** [appendInt]: decimal, padded with zeros to [width]. *)
Definition pad (width : nat) (ds : bytes) : bytes :=
  repeat x30 (width - length ds) ++ ds.

Definition appendInt (x : Z) (width : nat) : bytes :=
  if (x <? 0)%Z then x2d :: pad width (Strconv.FormatUint (Z.to_N (- x)))
  else pad width (Strconv.FormatUint (Z.to_N x)).

(** Drops the zeros at the end of a run of digits given in reverse. *)
Fixpoint drop_zeros (rev_ds : bytes) : bytes :=
  match rev_ds with
  | x30 :: rest => drop_zeros rest
  | _ => rev_ds
  end.

(** [appendNano] for the layout [.999999999]: nothing for zero, else the
    nine digits without their trailing zeros. *)
Definition appendNano (nanosec : N) : bytes :=
  if nanosec =? 0 then []
  else x2e :: rev (drop_zeros (rev (appendInt (Z.of_N nanosec) 9))).

(** [appendFormatRFC3339] with nanoseconds, in UTC. *)
Definition appendFormatRFC3339 (x : t) : bytes :=
  appendInt (year x) 4 ++ [x2d] ++ appendInt (Z.of_N (month x)) 2 ++ [x2d] ++
  appendInt (Z.of_N (day x)) 2 ++ [x54] ++
  appendInt (Z.of_N (hour x)) 2 ++ [x3a] ++ appendInt (Z.of_N (minute x)) 2 ++ [x3a] ++
  appendInt (Z.of_N (second x)) 2 ++ appendNano (nanosecond x) ++ [x5a].

(** [GoTime.MarshalJSON]: the quoted timestamp; an error when the year does
    not take exactly four digits. *)
Definition MarshalJSON (x : t) : option bytes :=
  let b := appendFormatRFC3339 x in
  match nth_error b 4 with
  | Some x2d => Some ([x22] ++ b ++ [x22])
  | _ => None
  end.

(** [parseUint] of [parseRFC3339]: digits only, within [[lo, hi]]. *)
Definition parseUint (s : bytes) (lo hi : N) : option N :=
  match Strconv.digits_value 0 s with
  | Some x => if (lo <=? x) && (x <=? hi) then Some x else None
  | None => None
  end.

Fixpoint skip_digits (s : bytes) : bytes :=
  match s with
  | c :: rest => if Strconv.is_digit c then skip_digits rest else s
  | [] => []
  end.

(** The tail of [parseRFC3339]: an optional fraction, then [Z] or a
    numeric zone. *)
Definition parse_zone (s : bytes) : bool :=
  let s :=
    match s with
    | x2e :: d :: rest => if Strconv.is_digit d then skip_digits rest else s
    | _ => s
    end in
  match s with
  | [x5a] => true
  | [sg; h1; h2; c; m1; m2] =>
      match parseUint [h1; h2] 0 23, parseUint [m1; m2] 0 59 with
      | Some _, Some _ =>
          (Nat.eqb (Byte.to_nat sg) 45 || Nat.eqb (Byte.to_nat sg) 43) &&
          Nat.eqb (Byte.to_nat c) 58
      | _, _ => false
      end
  | _ => false
  end.

(** [parseRFC3339]: whether the fixed-format parser accepts the text. *)
Definition parseRFC3339 (s : bytes) : bool :=
  match s with
  | y1 :: y2 :: y3 :: y4 :: c1 :: m1 :: m2 :: c2 :: d1 :: d2 :: c3 ::
    h1 :: h2 :: c4 :: i1 :: i2 :: c5 :: s1 :: s2 :: rest =>
      match parseUint [y1; y2; y3; y4] 0 9999, parseUint [m1; m2] 1 12 with
      | Some y, Some m =>
          match parseUint [d1; d2] 1 (daysIn m y), parseUint [h1; h2] 0 23,
                parseUint [i1; i2] 0 59, parseUint [s1; s2] 0 59 with
          | Some _, Some _, Some _, Some _ =>
              forallb (fun c => Nat.eqb (Byte.to_nat c) 45) [c1; c2] &&
              Nat.eqb (Byte.to_nat c3) 84 &&
              forallb (fun c => Nat.eqb (Byte.to_nat c) 58) [c4; c5] &&
              parse_zone rest
          | _, _, _, _ => false
          end
      | _, _ => false
      end
  | _ => false
  end.

(** [GoTime.UnmarshalJSON], as success or failure: [null] is a no-op; the
    input must be a quoted string whose content the fixed-format parser
    accepts or, failing that, the layout parser [time.Parse(RFC3339, _)],
    which is a parameter here. *)
Definition UnmarshalJSON (layout_parse : bytes -> bool) (data : bytes) : bool :=
  match data with
  | [x6e; x75; x6c; x6c] => true
  | x22 :: rest =>
      match rev rest with
      | x22 :: rev_inner =>
          parseRFC3339 (rev rev_inner) || layout_parse (rev rev_inner)
      | _ => false
      end
  | _ => false
  end.

End GoTime.

(** Go's [encoding/json], for structs of strings, [int64], [time.Time] and
    [json.RawMessage]. *)
Module Json.

Local Open Scope N_scope.

(** ** Encoding *)

Definition hex (n : N) : byte := nth (N.to_nat n) (str "0123456789abcdef") x30.

(** The escape [\u00XX] of a byte. *)
Definition u00 (c : byte) : bytes :=
  [x5c; x75; x30; x30; hex (N.shiftr (b2n c) 4); hex (N.land (b2n c) 0xF)].

(** [htmlSafeSet]: the ASCII bytes that need no escape. *)
Definition htmlSafe (b : byte) : bool :=
  (0x20 <=? b2n b) && (b2n b <? 0x80) &&
  negb (existsb (N.eqb (b2n b)) [0x22; 0x26; 0x3C; 0x3E; 0x5C]).

(** The escape of an ASCII byte outside [htmlSafeSet]. *)
Definition escape (b : byte) : bytes :=
  match b with
  | x5c | x22 => [x5c; b]
  | x08 => [x5c; x62]
  | x0c => [x5c; x66]
  | x0a => [x5c; x6e]
  | x0d => [x5c; x72]
  | x09 => [x5c; x74]
  | _ => u00 b
  end.

(** The loop of [appendString] with [escapeHTML] set. *)
Fixpoint appendString_go (fuel : nat) (src : bytes) : bytes :=
  match fuel with
  | O => []
  | S fuel =>
      match src with
      | [] => []
      | b :: rest =>
          if b2n b <? 0x80 then
            (if htmlSafe b then [b] else escape b) ++ appendString_go fuel rest
          else
            let (c, size) := Utf8.DecodeRune src in
            if (c =? Utf8.RuneError) && Nat.eqb size 1 then
              [x5c; x75; x66; x66; x66; x64] ++ appendString_go fuel (drop size src)
            else if (c =? 0x2028) || (c =? 0x2029) then
              [x5c; x75; x32; x30; x32; hex (N.land c 0xF)]
                ++ appendString_go fuel (drop size src)
            else
              take size src ++ appendString_go fuel (drop size src)
      end
  end.

Definition appendString (src : bytes) : bytes :=
  [x22] ++ appendString_go (length src) src ++ [x22].

(** ** Decoding: the text of a value *)

#[local] Set Warnings "-register-all".
Inductive value :=
| JNull
| JBool (b : bool)
| JNumber (literal : bytes)
| JString (s : bytes)
| JArray (items : list value)
| JObject (members : list (bytes * bytes * value)).
  (* a member: its key unquoted, the text of its value, its value *)

Definition isSpace (c : byte) : bool :=
  existsb (N.eqb (b2n c)) [0x20; 0x09; 0x0D; 0x0A].

Fixpoint skip_space (s : bytes) : bytes :=
  match s with
  | c :: rest => if isSpace c then skip_space rest else s
  | [] => []
  end.

Definition hexval (b : byte) : option N :=
  if Utf8.between 48 57 b then Some (b2n b - 48)
  else if Utf8.between 97 102 b then Some (b2n b - 87)
  else if Utf8.between 65 70 b then Some (b2n b - 55)
  else None.

(** [getu4] on the four digits after a backslash and [u]. *)
Definition hex4 (s : bytes) : option N :=
  match s with
  | h1 :: h2 :: h3 :: h4 :: _ =>
      match hexval h1, hexval h2, hexval h3, hexval h4 with
      | Some a, Some b, Some c, Some d => Some (((a * 16 + b) * 16 + c) * 16 + d)
      | _, _, _, _ => None
      end
  | _ => None
  end.

Definition getu4 (s : bytes) : option N :=
  match s with
  | x5c :: x75 :: rest => hex4 rest
  | _ => None
  end.

Definition IsSurrogate (r : N) : bool := (0xD800 <=? r) && (r <? 0xE000).

(** [utf16.DecodeRune]. *)
Definition DecodeSurrogates (r1 r2 : N) : N :=
  if (0xD800 <=? r1) && (r1 <? 0xDC00) && (0xDC00 <=? r2) && (r2 <? 0xE000) then
    N.lor (N.shiftl (r1 - 0xD800) 10) (r2 - 0xDC00) + 0x10000
  else Utf8.RuneError.

(** The one-byte escapes the scanner admits after a backslash. *)
Definition unescape (e : byte) : option byte :=
  match e with
  | x22 => Some x22
  | x5c => Some x5c
  | x2f => Some x2f
  | x62 => Some x08
  | x66 => Some x0c
  | x6e => Some x0a
  | x72 => Some x0d
  | x74 => Some x09
  | _ => None
  end.

(** What the rest of a literal gave, after the bytes [out] of one step. *)
Definition continue (out : bytes) (r : option (bytes * bytes)) : option (bytes * bytes) :=
  match r with
  | Some (t, rest) => Some (out ++ t, rest)
  | None => None
  end.

(** A string literal from just after its opening quote: the scanner's
    check and [unquoteBytes] in one pass. Gives the unquoted bytes and the
    input after the closing quote. *)
Fixpoint unquote_go (fuel : nat) (s : bytes) : option (bytes * bytes) :=
  match fuel with
  | O => None
  | S fuel =>
      match s with
      | [] => None
      | x22 :: rest => Some ([], rest)
      | x5c :: e :: rest =>
          match unescape e with
          | Some b => continue [b] (unquote_go fuel rest)
          | None =>
              match e, hex4 rest with
              | x75, Some rr =>
                  let rest := drop 4 rest in
                  if IsSurrogate rr then
                    match getu4 rest with
                    | Some rr1 =>
                        let dec := DecodeSurrogates rr rr1 in
                        if dec =? Utf8.RuneError then
                          continue (Utf8.EncodeRune Utf8.RuneError) (unquote_go fuel rest)
                        else continue (Utf8.EncodeRune dec) (unquote_go fuel (drop 6 rest))
                    | None =>
                        continue (Utf8.EncodeRune Utf8.RuneError) (unquote_go fuel rest)
                    end
                  else continue (Utf8.EncodeRune rr) (unquote_go fuel rest)
              | _, _ => None
              end
          end
      | [x5c] => None
      | c :: rest =>
          if b2n c <? 0x20 then None
          else if b2n c <? 0x80 then continue [c] (unquote_go fuel rest)
          else
            let (rr, size) := Utf8.DecodeRune s in
            continue (Utf8.EncodeRune rr) (unquote_go fuel (drop size s))
      end
  end.

(** A string literal from its opening quote. *)
Definition scan_string (s : bytes) : option (bytes * bytes) :=
  match s with
  | x22 :: rest => unquote_go (length rest) rest
  | _ => None
  end.

Fixpoint span_digits (s : bytes) : bytes * bytes :=
  match s with
  | c :: rest =>
      if Strconv.is_digit c then
        let (ds, r) := span_digits rest in (c :: ds, r)
      else ([], s)
  | [] => ([], [])
  end.

(** A number literal: an optional minus, then zero or a run of digits that
    starts with no zero, then an optional fraction (a dot and digits), then
    an optional exponent (e or E, an optional sign, digits). Each part gives
    its text and what follows it. *)
Definition scan_sign (s : bytes) : bytes * bytes :=
  match s with
  | x2d :: t => ([x2d], t)
  | _ => ([], s)
  end.

Definition scan_int (s : bytes) : option (bytes * bytes) :=
  match s with
  | x30 :: t => Some ([x30], t)
  | d :: t =>
      if Strconv.is_digit d then
        let (ds, r) := span_digits t in Some (d :: ds, r)
      else None
  | [] => None
  end.

Definition scan_frac (s : bytes) : option (bytes * bytes) :=
  match s with
  | x2e :: t =>
      match span_digits t with
      | ([], _) => None
      | (ds, r) => Some (x2e :: ds, r)
      end
  | _ => Some ([], s)
  end.

Definition scan_exp (s : bytes) : option (bytes * bytes) :=
  match s with
  | e :: t =>
      if (b2n e =? 0x65) || (b2n e =? 0x45) then
        let (esign, t) :=
          match t with
          | x2b :: t' => ([x2b], t')
          | x2d :: t' => ([x2d], t')
          | _ => ([], t)
          end in
        match span_digits t with
        | ([], _) => None
        | (ds, r) => Some ([e] ++ esign ++ ds, r)
        end
      else Some ([], s)
  | [] => Some ([], s)
  end.

Definition scan_number (s : bytes) : option (bytes * bytes) :=
  let (sign, s) := scan_sign s in
  match scan_int s with
  | None => None
  | Some (int, s) =>
      match scan_frac s with
      | None => None
      | Some (frac, s) =>
          match scan_exp s with
          | None => None
          | Some (exp, s) => Some (sign ++ int ++ frac ++ exp, s)
          end
      end
  end.

(** The text consumed between [s] and its suffix [rest]. *)
Definition consumed (s rest : bytes) : bytes := take (length s - length rest) s.

Definition maxNestingDepth : N := 10000.

(** A value at the head of [s] (no leading space), nested [depth] deep;
    [parse_members] reads an object from its first key on, [parse_items] an
    array from its first item on. Each call consumes input, so a fuel of
    the length of the input is never exhausted. *)
Fixpoint parse_value (fuel : nat) (depth : N) (s : bytes) : option (value * bytes) :=
  match fuel with
  | O => None
  | S fuel =>
      match s with
      | x7b :: rest =>
          if maxNestingDepth <=? depth then None
          else
            match skip_space rest with
            | x7d :: rest' => Some (JObject [], rest')
            | rest' =>
                match parse_members fuel (N.succ depth) rest' with
                | Some (ms, r) => Some (JObject ms, r)
                | None => None
                end
            end
      | x5b :: rest =>
          if maxNestingDepth <=? depth then None
          else
            match skip_space rest with
            | x5d :: rest' => Some (JArray [], rest')
            | rest' =>
                match parse_items fuel (N.succ depth) rest' with
                | Some (vs, r) => Some (JArray vs, r)
                | None => None
                end
            end
      | x22 :: _ =>
          match scan_string s with
          | Some (t, r) => Some (JString t, r)
          | None => None
          end
      | x74 :: x72 :: x75 :: x65 :: r => Some (JBool true, r)
      | x66 :: x61 :: x6c :: x73 :: x65 :: r => Some (JBool false, r)
      | x6e :: x75 :: x6c :: x6c :: r => Some (JNull, r)
      | _ =>
          match scan_number s with
          | Some (lit, r) => Some (JNumber lit, r)
          | None => None
          end
      end
  end
with parse_members (fuel : nat) (depth : N) (s : bytes)
    : option (list (bytes * bytes * value) * bytes) :=
  match fuel with
  | O => None
  | S fuel =>
      match scan_string s with
      | None => None
      | Some (key, r) =>
          match skip_space r with
          | x3a :: r =>
              let r := skip_space r in
              match parse_value fuel depth r with
              | None => None
              | Some (v, r') =>
                  let m := (key, consumed r r', v) in
                  match skip_space r' with
                  | x7d :: r'' => Some ([m], r'')
                  | x2c :: r'' =>
                      match parse_members fuel depth (skip_space r'') with
                      | Some (ms, r3) => Some (m :: ms, r3)
                      | None => None
                      end
                  | _ => None
                  end
              end
          | _ => None
          end
      end
  end
with parse_items (fuel : nat) (depth : N) (s : bytes) : option (list value * bytes) :=
  match fuel with
  | O => None
  | S fuel =>
      match parse_value fuel depth s with
      | None => None
      | Some (v, r') =>
          match skip_space r' with
          | x5d :: r'' => Some ([v], r'')
          | x2c :: r'' =>
              match parse_items fuel depth (skip_space r'') with
              | Some (vs, r3) => Some (v :: vs, r3)
              | None => None
              end
          | _ => None
          end
      end
  end.

(** [checkValid] and the scan of the decoder: one value, space around it,
    nothing else. *)
Definition parse (data : bytes) : option value :=
  let s := skip_space data in
  match parse_value (S (length s)) 0 s with
  | Some (v, rest) =>
      match skip_space rest with
      | [] => Some v
      | _ :: _ => None
      end
  | None => None
  end.

(** ** [Compact], as the encoder applies it to what a [Marshaler] returns *)

(** Outside a string, space is dropped; anywhere, the bytes [<], [>], [&]
    and the sequences of U+2028 and U+2029 are escaped. The two flags follow
    the scanner: inside a string, and just after a backslash. *)
Fixpoint compact_go (in_string escaped : bool) (s : bytes) : bytes :=
  match s with
  | [] => []
  | c :: rest =>
      if existsb (N.eqb (b2n c)) [0x3C; 0x3E; 0x26] then
        u00 c ++ compact_go in_string false rest
      else
        let plain :=
          if in_string then
            c :: compact_go (negb (negb escaped && (b2n c =? 0x22)))
                            (negb escaped && (b2n c =? 0x5C)) rest
          else if isSpace c then compact_go false false rest
          else c :: compact_go (b2n c =? 0x22) false rest in
        match rest with
        | b1 :: b2 :: rest' =>
            if (b2n c =? 0xE2) && (b2n b1 =? 0x80) && (N.land (b2n b2) 0xFE =? 0xA8) then
              [x5c; x75; x32; x30; x32; hex (N.land (b2n b2) 0xF)]
                ++ compact_go in_string false rest'
            else plain
        | _ => plain
        end
  end.

Definition compact (src : bytes) : option bytes :=
  match parse src with
  | Some _ => Some (compact_go false false src)
  | None => None
  end.

(** ** Structs *)

(** The Go types of the fields at hand, and a field's content. The instant
    a [time.Time] field is set to is not kept: nothing reads it. *)
Inductive kind := KString | KInt64 | KTime | KRawMessage.

Inductive field :=
| FString (s : string)
| FInt64 (i : Z)
| FTime
| FRawMessage (m : bytes).

Definition zero (k : kind) : field :=
  match k with
  | KString => FString ""
  | KInt64 => FInt64 0
  | KTime => FTime
  | KRawMessage => FRawMessage []
  end.

(** What [Marshal] is given for a field. *)
Inductive content :=
| CString (s : string)
| CInt64 (i : Z)
| CTime (x : GoTime.t)
| CRawMessage (m : bytes).

Definition marshal_content (c : content) : option bytes :=
  match c with
  | CString s => Some (appendString (str s))
  | CInt64 i => Some (Strconv.FormatInt i)
  | CTime x =>
      match GoTime.MarshalJSON x with
      | Some b => compact b
      | None => None
      end
  | CRawMessage [] => compact [x6e; x75; x6c; x6c]
  | CRawMessage m => compact m
  end.

Fixpoint marshal_fields (sep : byte) (fields : list (string * content)) : option bytes :=
  match fields with
  | [] => Some []
  | (name, c) :: rest =>
      match marshal_content c, marshal_fields x2c rest with
      | Some b, Some tail => Some ([sep] ++ appendString (str name) ++ [x3a] ++ b ++ tail)
      | _, _ => None
      end
  end.

(** [json.Marshal] of a struct with these fields, in their order. *)
Definition Marshal (fields : list (string * content)) : option bytes :=
  match fields with
  | [] => Some [x7b; x7d]
  | _ :: _ =>
      match marshal_fields x7b fields with
      | Some b => Some (b ++ [x7d])
      | None => None
      end
  end.

(** [foldName] of a key, for comparison with a name in ASCII: letters to
    upper case, U+017F to [S] and U+212A to [K]; no other rune folds to
    ASCII. *)
Fixpoint foldName (key : bytes) : bytes :=
  match key with
  | [] => []
  | xc5 :: xbf :: rest => x53 :: foldName rest
  | xe2 :: x84 :: xaa :: rest => x4b :: foldName rest
  | c :: rest =>
      (if Utf8.between 97 122 c then n2b (b2n c - 32) else c) :: foldName rest
  end.

Fixpoint bytes_eqb (a b : bytes) : bool :=
  match a, b with
  | [], [] => true
  | x :: a, y :: b => Byte.eqb x y && bytes_eqb a b
  | _, _ => false
  end.

Fixpoint index_where {A} (p : A -> bool) (l : list A) : option nat :=
  match l with
  | [] => None
  | x :: rest => if p x then Some O else option_map S (index_where p rest)
  end.

(** The field a key selects: the one of that very name, else the first
    whose name folds to the same. *)
Definition find_field (schema : list (string * kind)) (key : bytes) : option nat :=
  match index_where (fun f => bytes_eqb (str (fst f)) key) schema with
  | Some i => Some i
  | None =>
      index_where (fun f => bytes_eqb (foldName (str (fst f))) (foldName key)) schema
  end.

(** A member's value into a field of kind [k]: [None] is an error. *)
Definition store (layout_parse : bytes -> bool) (k : kind) (raw : bytes) (v : value)
    (old : field) : option field :=
  match k with
  | KRawMessage => Some (FRawMessage raw)
  | KTime => if GoTime.UnmarshalJSON layout_parse raw then Some FTime else None
  | KString =>
      match v with
      | JString s => Some (FString (unstr s))
      | JNull => Some old
      | _ => None
      end
  | KInt64 =>
      match v with
      | JNumber lit =>
          match Strconv.ParseInt lit with
          | Some i => Some (FInt64 i)
          | None => None
          end
      | JNull => Some old
      | _ => None
      end
  end.

Fixpoint decode_members (layout_parse : bytes -> bool) (schema : list (string * kind))
    (members : list (bytes * bytes * value)) (acc : list field) : option (list field) :=
  match members with
  | [] => Some acc
  | (key, raw, v) :: rest =>
      match find_field schema key with
      | None => decode_members layout_parse schema rest acc
      | Some i =>
          match schema !! i, acc !! i with
          | Some (_, k), Some old =>
              match store layout_parse k raw v old with
              | Some f => decode_members layout_parse schema rest (<[i := f]> acc)
              | None => None
              end
          | _, _ => None
          end
      end
  end.

(** [json.Unmarshal] into a struct with this schema, from its zero value:
    the fields in schema order, or [None] for an error. *)
Definition Unmarshal (layout_parse : bytes -> bool) (schema : list (string * kind))
    (data : bytes) : option (list field) :=
  match parse data with
  | Some JNull => Some (map (fun f => zero (snd f)) schema)
  | Some (JObject members) =>
      decode_members layout_parse schema members (map (fun f => zero (snd f)) schema)
  | _ => None
  end.

(** ** Notions the proofs about this module use *)

(** Bytes that [Compact] copies. *)
Definition special (c : byte) : bool :=
  existsb (N.eqb (b2n c)) [0x3C; 0x3E; 0x26] || (b2n c =? 0xE2).

(** Inside a string and copied without a change of state. *)
Definition inert (c : byte) : bool :=
  negb (special c) && negb (b2n c =? 0x22) && negb (b2n c =? 0x5C).

(** Outside a string and copied without a change of state. *)
Definition structural (c : byte) : bool :=
  negb (special c) && negb (b2n c =? 0x22) && negb (isSpace c).

(** What may follow a value inside an object: a comma or the closing
    brace; or nothing, at the end of the text. *)
Definition closes (rest : bytes) : Prop :=
  match rest with
  | [] => True
  | c :: _ => c = x2c \/ c = x7d
  end.

(** [txt] is the text of [v]: it starts with no space and, wherever a value
    may stand and with [need] fuel, the parser reads it as [v] and stops
    after it. *)
Definition parses (need : nat) (dmax : N) (txt : bytes) (v : value) : Prop :=
  (exists c t, txt = c :: t /\ isSpace c = false) /\
  forall (fuel : nat) (depth : N) (rest : bytes),
    (need <= fuel)%nat -> depth <= dmax -> closes rest ->
    parse_value fuel depth (txt ++ rest) = Some (v, rest).

(** The text [json.Marshal] writes for a struct of three fields. *)
Definition object3 (k1 t1 k2 t2 k3 t3 : bytes) : bytes :=
  [x7b] ++ appendString k1 ++ [x3a] ++ t1 ++
  [x2c] ++ appendString k2 ++ [x3a] ++ t2 ++
  [x2c] ++ appendString k3 ++ [x3a] ++ t3 ++ [x7d].

(** [Compact] copies the text, whatever follows it. *)
Definition compacts (txt : bytes) : Prop :=
  forall t, compact_go false false (txt ++ t) = txt ++ compact_go false false t.

End Json.

(* ===================================================================== *)
(** * Domain: commands and events *)
(* ===================================================================== *)

(** [domain.TransferCommand]. *)
Record TransferCommand := {
  TransactionID : string;
  FromAccount : string;
  ToAccount : string;
  Amount : Z
}.

(** [domain.Event]: the three structs implementing the interface. *)
Inductive Event :=
| MoneyDeducted (transaction_id account : string) (amount : Z)
| MoneyCredited (transaction_id account : string) (amount : Z)
| TransactionFailed (transaction_id from_account reason : string).

Definition EventTypeMoneyDeducted : string := "MoneyDeducted".
Definition EventTypeMoneyCredited : string := "MoneyCredited".
Definition EventTypeTransactionFailed : string := "TransactionFailed".

Definition GetType (e : Event) : string :=
  match e with
  | MoneyDeducted _ _ _ => EventTypeMoneyDeducted
  | MoneyCredited _ _ _ => EventTypeMoneyCredited
  | TransactionFailed _ _ _ => EventTypeTransactionFailed
  end.

Definition GetTransactionID (e : Event) : string :=
  match e with
  | MoneyDeducted t _ _ => t
  | MoneyCredited t _ _ => t
  | TransactionFailed t _ _ => t
  end.

(** ** The codec *)

(** The [json] tags of the event structs and of [EventEnvelope]. *)
Definition MoneyDeducted_schema : list (string * Json.kind) :=
  [("transaction_id", Json.KString); ("account", Json.KString); ("amount", Json.KInt64)].
Definition MoneyCredited_schema : list (string * Json.kind) :=
  [("transaction_id", Json.KString); ("account", Json.KString); ("amount", Json.KInt64)].
Definition TransactionFailed_schema : list (string * Json.kind) :=
  [("transaction_id", Json.KString); ("from_account", Json.KString);
   ("reason", Json.KString)].
Definition EventEnvelope_schema : list (string * Json.kind) :=
  [("type", Json.KString); ("timestamp", Json.KTime); ("data", Json.KRawMessage)].

(** [json.Marshal(event)]: the fields of the struct behind the interface. *)
Definition Marshal_event (event : Event) : option bytes :=
  match event with
  | MoneyDeducted t a m =>
      Json.Marshal [("transaction_id", Json.CString t); ("account", Json.CString a);
                    ("amount", Json.CInt64 m)]
  | MoneyCredited t a m =>
      Json.Marshal [("transaction_id", Json.CString t); ("account", Json.CString a);
                    ("amount", Json.CInt64 m)]
  | TransactionFailed t f r =>
      Json.Marshal [("transaction_id", Json.CString t); ("from_account", Json.CString f);
                    ("reason", Json.CString r)]
  end.

(** [SerializeEvent], [now] being what [time.Now().UTC()] returns. *)
Definition SerializeEvent (now : GoTime.t) (event : Event) : option bytes :=
  match Marshal_event event with
  | None => None
  | Some data =>
      Json.Marshal [("type", Json.CString (GetType event));
                    ("timestamp", Json.CTime now);
                    ("data", Json.CRawMessage data)]
  end.

(** [DeserializeEvent]; [None] stands for the error. *)
Definition DeserializeEvent (layout_parse : bytes -> bool) (data : bytes) : option Event :=
  match Json.Unmarshal layout_parse EventEnvelope_schema data with
  | Some [Json.FString type; Json.FTime; Json.FRawMessage payload] =>
      if String.eqb type EventTypeMoneyDeducted then
        match Json.Unmarshal layout_parse MoneyDeducted_schema payload with
        | Some [Json.FString t; Json.FString a; Json.FInt64 m] => Some (MoneyDeducted t a m)
        | _ => None
        end
      else if String.eqb type EventTypeMoneyCredited then
        match Json.Unmarshal layout_parse MoneyCredited_schema payload with
        | Some [Json.FString t; Json.FString a; Json.FInt64 m] => Some (MoneyCredited t a m)
        | _ => None
        end
      else if String.eqb type EventTypeTransactionFailed then
        match Json.Unmarshal layout_parse TransactionFailed_schema payload with
        | Some [Json.FString t; Json.FString f; Json.FString r] =>
            Some (TransactionFailed t f r)
        | _ => None
        end
      else None
  | _ => None
  end.

(** An event the codec can carry: strings in UTF-8, the amount an [int64]. *)
Definition well_formed_event (e : Event) : Prop :=
  match e with
  | MoneyDeducted t a m | MoneyCredited t a m =>
      Utf8.ValidString t = true /\ Utf8.ValidString a = true /\
      (- 2 ^ 63 <= m <= 2 ^ 63 - 1)%Z
  | TransactionFailed t f r =>
      Utf8.ValidString t = true /\ Utf8.ValidString f = true /\
      Utf8.ValidString r = true
  end.

(** What the payload of an event is on the wire, and that it reads back. *)
Record wire (layout_parse : bytes -> bool) (fields : list (string * Json.content)) (schema : list (string * Json.kind))
    (decoded : list Json.field) (payload : bytes) : Prop := {
  wire_marshal : Json.Marshal fields = Some payload;
  wire_parses : exists v, Json.parses 5 1 payload v;
  wire_compacts : Json.compacts payload;
  wire_length : (13 <= length payload)%nat;
  wire_unmarshal : Json.Unmarshal layout_parse schema payload = Some decoded
}.

(** A clock reading for the examples. *)
Definition clock0 : GoTime.t :=
  {| GoTime.year := 2024; GoTime.month := 2; GoTime.day := 29; GoTime.hour := 7;
     GoTime.minute := 5; GoTime.second := 9; GoTime.nanosecond := 120000000 |}.

(* ===================================================================== *)
(** * The wallet engine *)
(* ===================================================================== *)

(** The two maps of [WalletEngine] that make up its state. *)
Record WalletEngine := {
  balances : gmap string Z;
  processedTxns : gmap string bool
}.

(** Go's [m[k]] on a map: the zero value when the key is absent. *)
Definition balance_at (m : gmap string Z) (k : string) : Z := default 0 (m !! k).
Definition flag_at (m : gmap string bool) (k : string) : bool := default false (m !! k).

(** Go's [error]: a message, [None] for [nil]. *)
Definition error := option string.

(** ** State monad over the engine *)

Definition M (A : Type) : Type := WalletEngine -> A * WalletEngine.

Definition ret {A} (a : A) : M A := fun e => (a, e).
Definition bind {A B} (m : M A) (k : A -> M B) : M B :=
  fun e => let (a, e') := m e in k a e'.
Definition gets {A} (f : WalletEngine -> A) : M A := fun e => (f e, e).
Definition modify (f : WalletEngine -> WalletEngine) : M unit := fun e => (tt, f e).

Notation "'do' x <- c1 ; c2" := (bind c1 (fun x => c2))
  (at level 10, x name, c1 at level 100, c2 at level 200).
Notation "'do_' c1 ; c2" := (bind c1 (fun _ => c2))
  (at level 10, c1 at level 100, c2 at level 200).

Definition NewWalletEngine : WalletEngine :=
  {| balances := ∅; processedTxns := ∅ |}.

(** [ExecuteWithContext]: the idempotency check, then the three validation
    rules, then the success pair. *)
Definition ExecuteWithContext (cmd : TransferCommand) : M (list Event * error) :=
  do processed <- gets (fun e => flag_at (processedTxns e) (TransactionID cmd)) ;
  if processed then ret ([], None)
  else if Amount cmd <=? 0 then
    ret ([TransactionFailed (TransactionID cmd) (FromAccount cmd)
            "amount must be positive"], None)
  else if String.eqb (FromAccount cmd) (ToAccount cmd) then
    ret ([TransactionFailed (TransactionID cmd) (FromAccount cmd)
            "cannot transfer to same account"], None)
  else
    do fromBalance <- gets (fun e => balance_at (balances e) (FromAccount cmd)) ;
    if fromBalance <? Amount cmd then
      ret ([TransactionFailed (TransactionID cmd) (FromAccount cmd)
              "insufficient funds"], None)
    else
      ret ([MoneyDeducted (TransactionID cmd) (FromAccount cmd) (Amount cmd);
            MoneyCredited (TransactionID cmd) (ToAccount cmd) (Amount cmd)], None).

Definition Execute (cmd : TransferCommand) : M (list Event * error) :=
  ExecuteWithContext cmd.

(** [applyEvent]. *)
Definition applyEvent (event : Event) : M unit :=
  match event with
  | MoneyDeducted txn account amount =>
      modify (fun e =>
        {| balances :=
             <[account := Int64.sub (balance_at (balances e) account) amount]> (balances e);
           processedTxns := <[txn := true]> (processedTxns e) |})
  | MoneyCredited _ account amount =>
      modify (fun e =>
        {| balances :=
             <[account := Int64.add (balance_at (balances e) account) amount]> (balances e);
           processedTxns := processedTxns e |})
  | TransactionFailed txn _ _ =>
      modify (fun e =>
        {| balances := balances e;
           processedTxns := <[txn := true]> (processedTxns e) |})
  end.

(** [ApplyEvents]: the range loop over the batch. *)
Fixpoint ApplyEvents (events : list Event) : M unit :=
  match events with
  | [] => ret tt
  | ev :: rest => do_ applyEvent ev ; ApplyEvents rest
  end.

(** [InitializeFromEventStore], given what [LoadAll] returned. *)
Definition InitializeFromEventStore (loaded : list Event + string) : M error :=
  match loaded with
  | inr msg => ret (Some ("failed to load events: " ++ msg)%string)
  | inl events => do_ ApplyEvents events ; ret None
  end.

Definition GetBalance (account : string) : M Z :=
  gets (fun e => balance_at (balances e) account).

Definition SetBalance (account : string) (balance : Z) : M unit :=
  modify (fun e =>
    {| balances := <[account := balance]> (balances e);
       processedTxns := processedTxns e |}).

Definition GetAllBalances : M (gmap string Z) := gets balances.

(** [GetTotalBalance]: [total += balance] over the map, in [int64]. *)
Definition total_of (m : gmap string Z) : Z :=
  map_fold (fun _ balance total => Int64.add total balance) 0 m.

(** The exact sum of the balances, without the 64-bit reduction. *)
Definition sum_of (m : gmap string Z) : Z :=
  map_fold (fun _ balance total => total + balance) 0 m.

(** No balance is negative. *)
Definition nonnegative (m : gmap string Z) : Prop :=
  map_Forall (fun _ balance => 0 <= balance) m.

Definition GetTotalBalance : M Z := gets (fun e => total_of (balances e)).

(** ** Processing a stream of commands

    One command: [Execute], then the returned events are applied, as
    [handleCommand] does once the batch is persisted. The events of a
    stream, in order, are the log. *)

Definition process (cmd : TransferCommand) : M (list Event) :=
  do r <- Execute cmd ;
  do_ ApplyEvents (fst r) ;
  ret (fst r).

Fixpoint run (cmds : list TransferCommand) : M (list Event) :=
  match cmds with
  | [] => ret []
  | c :: cs =>
      do evs <- process c ;
      do log <- run cs ;
      ret (evs ++ log)
  end.

(** Pre-existing balances injected with [SetBalance] before the first command. *)
Fixpoint inject (init : list (string * Z)) : M unit :=
  match init with
  | [] => ret tt
  | (a, b) :: rest => do_ SetBalance a b ; inject rest
  end.

(** What can happen to an engine between two commands: a command is
    processed, a balance is set, a batch of events is applied (a replay). *)
Inductive Op :=
| OpCommand (cmd : TransferCommand)
| OpSetBalance (account : string) (balance : Z)
| OpApplyEvents (events : list Event).

Definition perform (op : Op) : M unit :=
  match op with
  | OpCommand cmd => do_ process cmd ; ret tt
  | OpSetBalance account balance => SetBalance account balance
  | OpApplyEvents events => ApplyEvents events
  end.

Fixpoint perform_all (ops : list Op) : M unit :=
  match ops with
  | [] => ret tt
  | op :: rest => do_ perform op ; perform_all rest
  end.

Definition exec {A} (m : M A) (e : WalletEngine) : WalletEngine := snd (m e).
Definition eval {A} (m : M A) (e : WalletEngine) : A := fst (m e).

(** Whether a transaction id is marked. *)
Definition is_processed (e : WalletEngine) (txn : string) : bool := flag_at (processedTxns e) txn.

(** The invariant behind non-negativity: no balance is negative and the
    exact sum fits in [int64]. *)
Definition solvent (m : gmap string Z) : Prop :=
  nonnegative m /\ sum_of m <= Int64.max_int.

(** The engine of the validation tests: alice holds 1000. *)
Definition alice_engine : WalletEngine :=
  exec (SetBalance "alice" 1000) NewWalletEngine.

(* ===================================================================== *)
(** * The event store *)
(* ===================================================================== *)

(** What a call on the file meets: it goes through, or it fails after
    some bytes of the buffer have reached the file. *)
Inductive outcome := Succeeds | FailsAfter (written : nat).

(** The file of the store and what surrounds an append: the readings
    [time.Now().UTC()] gives one after the other (each [SerializeEvent]
    takes one), and what the coming [Write] and [Sync] calls meet (success
    once the list is used up). *)
Record EventStore := {
  file : bytes;
  synced : nat;
  clock : nat -> GoTime.t;
  ticks : nat;
  faults : list outcome
}.

Inductive StoreError := SerializeError | WriteError | SyncError.

Definition time_Now (s : EventStore) : GoTime.t * EventStore :=
  (clock s (ticks s),
   {| file := file s; synced := synced s; clock := clock s;
      ticks := S (ticks s); faults := faults s |}).

(** [s.file.Write(data)] on a file opened with [O_APPEND]. *)
Definition file_Write (data : bytes) (s : EventStore) : bool * EventStore :=
  match faults s with
  | FailsAfter n :: rest =>
      (false, {| file := file s ++ take n data; synced := synced s; clock := clock s;
                 ticks := ticks s; faults := rest |})
  | _ =>
      (true, {| file := file s ++ data; synced := synced s; clock := clock s;
                ticks := ticks s; faults := tl (faults s) |})
  end.

(** [s.file.Sync()]. *)
Definition file_Sync (s : EventStore) : bool * EventStore :=
  match faults s with
  | FailsAfter _ :: rest =>
      (false, {| file := file s; synced := synced s; clock := clock s;
                 ticks := ticks s; faults := rest |})
  | _ =>
      (true, {| file := file s; synced := length (file s); clock := clock s;
                ticks := ticks s; faults := tl (faults s) |})
  end.

(** The loop of [AppendBatch]: each event is serialized, then written,
    before the next one is looked at. *)
Fixpoint append_events (events : list Event) (s : EventStore)
    : option StoreError * EventStore :=
  match events with
  | [] => (None, s)
  | event :: rest =>
      let (now, s) := time_Now s in
      match SerializeEvent now event with
      | None => (Some SerializeError, s)
      | Some data =>
          let (ok, s) := file_Write (data ++ [x0a]) s in
          if ok then append_events rest s else (Some WriteError, s)
      end
  end.

(** [AppendBatch]. *)
Definition AppendBatch (events : list Event) (s : EventStore)
    : option StoreError * EventStore :=
  match append_events events s with
  | (Some err, s) => (Some err, s)
  | (None, s) =>
      let (ok, s) := file_Sync s in
      if ok then (None, s) else (Some SyncError, s)
  end.

(** A clock that passes from the year 9999 to the year 10000 between its
    first and its second reading. *)
Definition clock_rollover (n : nat) : GoTime.t :=
  match n with
  | O => {| GoTime.year := 9999; GoTime.month := 12; GoTime.day := 31; GoTime.hour := 23;
            GoTime.minute := 59; GoTime.second := 59; GoTime.nanosecond := 999999999 |}
  | S _ => {| GoTime.year := 10000; GoTime.month := 1; GoTime.day := 1; GoTime.hour := 0;
              GoTime.minute := 0; GoTime.second := 0; GoTime.nanosecond := 0 |}
  end.

Definition empty_store (c : nat -> GoTime.t) : EventStore :=
  {| file := []; synced := 0; clock := c; ticks := 0; faults := [] |}.

(** ** The store on the interface type

    [domain.Event] is an interface, and [Append] and [AppendBatch] take
    values of it. A value handed to the store is one of the three event
    structs or a value of another type that has the two methods; of such a
    value [SerializeEvent] uses its [GetType] and what [json.Marshal] makes
    of it: the bytes, or [None] for the error [json.Marshal] returns on a
    type it does not support (a channel or a function among the fields) or
    whose [MarshalJSON] fails. *)
Inductive AnyEvent :=
| Known (event : Event)
| Foreign (type_name transaction_id : string) (marshalled : option bytes).

(** [json.Marshal(event)] on a value of the interface. *)
Definition marshal_any (event : AnyEvent) : option bytes :=
  match event with
  | Known e => Marshal_event e
  | Foreign _ _ marshalled => marshalled
  end.

Definition GetType_any (event : AnyEvent) : string :=
  match event with
  | Known e => GetType e
  | Foreign type_name _ _ => type_name
  end.

(** [SerializeEvent] on a value of the interface: the clock is read once
    the value itself is marshalled. *)
Definition SerializeEvent_any (event : AnyEvent) (s : EventStore)
    : option bytes * EventStore :=
  match marshal_any event with
  | None => (None, s)
  | Some data =>
      let (now, s) := time_Now s in
      (Json.Marshal [("type", Json.CString (GetType_any event));
                     ("timestamp", Json.CTime now);
                     ("data", Json.CRawMessage data)], s)
  end.

(** The loop of [AppendBatch] on values of the interface. *)
Fixpoint append_events_any (events : list AnyEvent) (s : EventStore)
    : option StoreError * EventStore :=
  match events with
  | [] => (None, s)
  | event :: rest =>
      let (serialized, s) := SerializeEvent_any event s in
      match serialized with
      | None => (Some SerializeError, s)
      | Some data =>
          let (ok, s) := file_Write (data ++ [x0a]) s in
          if ok then append_events_any rest s else (Some WriteError, s)
      end
  end.

(** [AppendBatch] on values of the interface; on a batch of the three
    structs it is [AppendBatch] above. *)
Definition AppendBatch_any (events : list AnyEvent) (s : EventStore)
    : option StoreError * EventStore :=
  match append_events_any events s with
  | (Some err, s) => (Some err, s)
  | (None, s) =>
      let (ok, s) := file_Sync s in
      if ok then (None, s) else (Some SyncError, s)
  end.

(* ===================================================================== *)
(** * The event store: appending one event, loading *)
(* ===================================================================== *)

(** [Append]: one event, serialized, written and synced. *)
Definition Append (event : Event) (s : EventStore) : option StoreError * EventStore :=
  let (now, s) := time_Now s in
  match SerializeEvent now event with
  | None => (Some SerializeError, s)
  | Some data =>
      let (ok, s) := file_Write (data ++ [x0a]) s in
      if ok then
        let (ok, s) := file_Sync s in
        if ok then (None, s) else (Some SyncError, s)
      else (Some WriteError, s)
  end.

(** Go's [bufio.Scanner] with the default split function [ScanLines], set up
    as [LoadAll] does: [scanner.Buffer(buf, 1024*1024)]. *)
Module Bufio.

Definition maxTokenSize : N := 1024 * 1024.

(** [dropCR]: one carriage return at the end of a line goes. *)
Definition dropCR (data : bytes) : bytes :=
  match last data with
  | Some x0d => take (length data - 1) data
  | _ => data
  end.

(** The tokens the successive calls of [Scan] deliver over [data], and
    whether the scan then stops with [ErrTooLong]. [held] is the part of the
    current line that is in the buffer already, its last byte first, and [n]
    the length of that part: the buffer grows up to [maxTokenSize] bytes, and
    a line whose first [maxTokenSize] bytes hold no newline cannot be
    delivered. A last line without a newline is delivered at the end of the
    input. *)
Fixpoint scan (held : bytes) (n : N) (data : bytes) {struct data} : list bytes * bool :=
  if (maxTokenSize <=? n)%N then ([], true)
  else
    match data with
    | [] =>
        (match held with [] => [] | _ :: _ => [dropCR (rev held)] end, false)
    | c :: rest =>
        if Byte.eqb c x0a then
          let (tokens, too_long) := scan [] 0%N rest in
          (dropCR (rev held) :: tokens, too_long)
        else scan (c :: held) (n + 1)%N rest
    end.

Definition lines (data : bytes) : list bytes := fst (scan [] 0%N data).
Definition too_long (data : bytes) : bool := snd (scan [] 0%N data).

End Bufio.

(** What [os.Open(s.filePath)] meets. *)
Inductive opened :=
| NotExist
| OpenFails
| Opened (content : bytes).

Inductive LoadError :=
| OpenError
| DeserializeError (lineNum : nat)
| ReadError.

(** The loop of [LoadAll] over the lines the scanner delivers: the line
    number counts every line, an empty line is skipped, the first line that
    does not deserialize ends the load. *)
Fixpoint load_lines (layout_parse : bytes -> bool) (tokens : list bytes) (lineNum : nat)
    (events : list Event) : list Event + LoadError :=
  match tokens with
  | [] => inl events
  | line :: rest =>
      let lineNum := S lineNum in
      match line with
      | [] => load_lines layout_parse rest lineNum events
      | _ :: _ =>
          match DeserializeEvent layout_parse line with
          | None => inr (DeserializeError lineNum)
          | Some event => load_lines layout_parse rest lineNum (events ++ [event])
          end
      end
  end.

(** [LoadAll]; the reads of the scanner themselves do not fail. The error
    of the scanner is looked at after the loop. *)
Definition LoadAll (layout_parse : bytes -> bool) (f : opened) : list Event + LoadError :=
  match f with
  | NotExist => inl []
  | OpenFails => inr OpenError
  | Opened content =>
      let (tokens, too_long) := Bufio.scan [] 0%N content in
      match load_lines layout_parse tokens 0 [] with
      | inr err => inr err
      | inl events => if too_long then inr ReadError else inl events
      end
  end.

(** A line [LoadAll] skips. *)
Definition blank (line : bytes) : bool :=
  match line with [] => true | _ :: _ => false end.

(** What a batch adds to the file when every event is serialized and
    written: the lines of its events, each closed by a newline; the event at
    position [j] is serialized at the reading [k + j] of the clock. *)
Fixpoint batch_text (c : nat -> GoTime.t) (k : nat) (events : list Event) : option bytes :=
  match events with
  | [] => Some []
  | event :: rest =>
      match SerializeEvent (c k) event, batch_text c (S k) rest with
      | Some line, Some tail => Some (line ++ [x0a] ++ tail)
      | _, _ => None
      end
  end.

(** The file is empty or its last line is complete. *)
Definition terminated (data : bytes) : Prop :=
  data = [] \/ exists d, data = d ++ [x0a].

(** Every reading of the clock is an instant of the years 0 to 9999. *)
Definition clock_in_range (c : nat -> GoTime.t) : Prop :=
  forall i : nat, GoTime.wf (c i) /\ 0 <= GoTime.year (c i) <= 9999.

(** The strings of a command are valid UTF-8 and its amount is an [int64]. *)
Definition well_formed_command (cmd : TransferCommand) : Prop :=
  Utf8.ValidString (TransactionID cmd) = true /\
  Utf8.ValidString (FromAccount cmd) = true /\
  Utf8.ValidString (ToAccount cmd) = true /\
  - 2 ^ 63 <= Amount cmd <= 2 ^ 63 - 1.

(** What [encoding/json] carries of a Go string: the encoder writes every
    byte that begins no well-formed sequence as the escape of U+FFFD, and
    the decoder reads that escape as the three bytes of U+FFFD. *)
Fixpoint coerce_go (fuel : nat) (s : bytes) : bytes :=
  match fuel with
  | O => []
  | S fuel =>
      match s with
      | [] => []
      | _ :: rest =>
          if Utf8.ill_formed s then [xef; xbf; xbd] ++ coerce_go fuel rest
          else take (snd (Utf8.DecodeRune s)) s
                 ++ coerce_go fuel (drop (snd (Utf8.DecodeRune s)) s)
      end
  end.

Definition coerce (s : string) : string := unstr (coerce_go (length (str s)) (str s)).

(** An event with its strings as the codec carries them. *)
Definition normalize (e : Event) : Event :=
  match e with
  | MoneyDeducted t a m => MoneyDeducted (coerce t) (coerce a) m
  | MoneyCredited t a m => MoneyCredited (coerce t) (coerce a) m
  | TransactionFailed t f r => TransactionFailed (coerce t) (coerce f) (coerce r)
  end.

(** The amount of an event, if it has one, is an [int64]. *)
Definition amount_in_int64 (e : Event) : Prop :=
  match e with
  | MoneyDeducted _ _ m | MoneyCredited _ _ m => - 2 ^ 63 <= m <= 2 ^ 63 - 1
  | TransactionFailed _ _ _ => True
  end.

(** What [json.Unmarshal] made of a message: no command, or a well-formed one. *)
Definition well_formed_message (m : option TransferCommand) : Prop :=
  match m with
  | Some cmd => well_formed_command cmd
  | None => True
  end.

(** Bytes from the space on: no control byte, so no line break. *)
Definition printable (b : byte) : bool := (0x20 <=? b2n b)%N.

Definition no_newline (line : bytes) : bool :=
  forallb (fun b => negb (Byte.eqb b x0a)) line.

(** What a line of the log has to be for [LoadAll] to read it back as the
    event: it deserializes to it, holds no control byte and is not empty. *)
Definition reads_back (layout_parse : bytes -> bool) (line : bytes) (ev : Event) : Prop :=
  DeserializeEvent layout_parse line = Some ev /\
  forallb printable line = true /\ line <> [].

(** Whether an event marks the transaction id [txn] as processed. *)
Definition marks (txn : string) (ev : Event) : bool :=
  match ev with
  | MoneyDeducted t _ _ | TransactionFailed t _ _ => String.eqb t txn
  | MoneyCredited _ _ _ => false
  end.

(** The accounts whose balance an event writes. *)
Definition touched (ev : Event) : gset string :=
  match ev with
  | MoneyDeducted _ a _ | MoneyCredited _ a _ => {[ a ]}
  | TransactionFailed _ _ _ => ∅
  end.

(* ===================================================================== *)
(** * The read model *)
(* ===================================================================== *)

Module ReadModel.

(** The map of [cqrs.ReadModel]. *)
Record t := { balances : gmap string Z }.

Definition NewReadModel : t := {| balances := ∅ |}.

(** [applyEvent]. *)
Definition applyEvent (event : Event) (r : t) : t :=
  match event with
  | MoneyDeducted _ account amount =>
      {| balances :=
           <[account := Int64.sub (balance_at (balances r) account) amount]> (balances r) |}
  | MoneyCredited _ account amount =>
      {| balances :=
           <[account := Int64.add (balance_at (balances r) account) amount]> (balances r) |}
  | TransactionFailed _ _ _ => r
  end.

Definition HandleEventDirect (event : Event) (r : t) : t := applyEvent event r.

(** [handleEvent]: a message that does not deserialize is dropped. *)
Definition handleEvent (layout_parse : bytes -> bool) (data : bytes) (r : t) : t :=
  match DeserializeEvent layout_parse data with
  | None => r
  | Some event => applyEvent event r
  end.

Fixpoint apply_all (events : list Event) (r : t) : t :=
  match events with
  | [] => r
  | event :: rest => apply_all rest (applyEvent event r)
  end.

(** [InitializeFromEventStore], given what [LoadAll] returned: the error, if
    any, and the read model. *)
Definition InitializeFromEventStore (loaded : list Event + LoadError) (r : t)
    : option LoadError * t :=
  match loaded with
  | inr err => (Some err, r)
  | inl events => (None, apply_all events r)
  end.

(** [GetBalance]: the balance and whether the account exists. *)
Definition GetBalance (account : string) (r : t) : Z * bool :=
  match balances r !! account with
  | Some balance => (balance, true)
  | None => (0, false)
  end.

Definition GetAllBalances (r : t) : gmap string Z := balances r.

Definition GetTotalBalance (r : t) : Z := total_of (balances r).

Definition SetBalance (account : string) (balance : Z) (r : t) : t :=
  {| balances := <[account := balance]> (balances r) |}.

End ReadModel.

(* ===================================================================== *)
(** * The engine at work: handling a command *)
(* ===================================================================== *)

(** [CommandResponse], as handed to [json.Marshal]. *)
Record CommandResponse := {
  Success : bool;
  Error : string;
  Events : list string
}.

(** The response [respondSuccess] builds. *)
Definition respondSuccess (events : list Event) : CommandResponse :=
  {| Success := true; Error := ""; Events := map GetType events |}.

(** The response [respondError] builds. *)
Definition respondError (errMsg : string) : CommandResponse :=
  {| Success := false; Error := errMsg; Events := [] |}.

Section Node.

(** What the registered event handlers act on. *)
Variable World : Type.

Definition EventHandler : Type := Event -> World -> World.

(** The engine with what it holds and reaches: its store, its handlers and
    what they act on, and the messages handed to [natsConn.Publish] on the
    event subject, the first one first. *)
Record Node := {
  engine : WalletEngine;
  store : EventStore;
  eventHandlers : list EventHandler;
  world : World;
  published : list bytes
}.

(** [RegisterEventHandler]. *)
Definition RegisterEventHandler (handler : EventHandler) (n : Node) : Node :=
  {| engine := engine n; store := store n;
     eventHandlers := eventHandlers n ++ [handler];
     world := world n; published := published n |}.

(** [notifyEventHandlers]: event by event, every handler in the order of
    registration. *)
Fixpoint notifyEventHandlers (handlers : list EventHandler) (events : list Event)
    (w : World) : World :=
  match events with
  | [] => w
  | event :: rest =>
      notifyEventHandlers handlers rest
        (fold_left (fun w handler => handler event w) handlers w)
  end.

(** [publishEvents]: each event is serialized anew, with a reading of the
    clock of its own; an event that does not serialize is passed over. *)
Fixpoint publishEvents (events : list Event) (s : EventStore) : list bytes * EventStore :=
  match events with
  | [] => ([], s)
  | event :: rest =>
      let (now, s) := time_Now s in
      match SerializeEvent now event with
      | None => publishEvents rest s
      | Some data => let (msgs, s) := publishEvents rest s in (data :: msgs, s)
      end
  end.

(** [handleCommand], given what [json.Unmarshal] made of the message
    ([None]: an error), and returning the response, which is sent when the
    message names a reply subject. The readings of the clock taken for
    metrics and spans are not among those of [clock]. *)
Definition handleCommand (decoded : option TransferCommand) (n : Node)
    : CommandResponse * Node :=
  match decoded with
  | None => (respondError "invalid command format", n)
  | Some cmd =>
      let '((events, err), e) := ExecuteWithContext cmd (engine n) in
      match err with
      | Some msg =>
          (respondError msg,
           {| engine := e; store := store n; eventHandlers := eventHandlers n;
              world := world n; published := published n |})
      | None =>
          let (failed, s) := AppendBatch events (store n) in
          match failed with
          | Some _ =>
              (respondError "failed to persist events",
               {| engine := e; store := s; eventHandlers := eventHandlers n;
                  world := world n; published := published n |})
          | None =>
              let e := exec (ApplyEvents events) e in
              let w := notifyEventHandlers (eventHandlers n) events (world n) in
              let (msgs, s) := publishEvents events s in
              (respondSuccess events,
               {| engine := e; store := s; eventHandlers := eventHandlers n;
                  world := w; published := published n ++ msgs |})
          end
      end
  end.

(** A run of messages through [handleCommand]: the responses and the node
    after the last. *)
Fixpoint handle_all (msgs : list (option TransferCommand)) (n : Node)
    : list CommandResponse * Node :=
  match msgs with
  | [] => ([], n)
  | m :: rest =>
      let (r, n) := handleCommand m n in
      let (rs, n) := handle_all rest n in
      (r :: rs, n)
  end.

End Node.

Arguments engine {World} _.
Arguments store {World} _.
Arguments eventHandlers {World} _.
Arguments world {World} _.
Arguments published {World} _.
Arguments RegisterEventHandler {World} _ _.
Arguments notifyEventHandlers {World} _ _ _.
Arguments handleCommand {World} _ _.
Arguments handle_all {World} _ _.

(* ===================================================================== *)
(** * Facts about 64-bit arithmetic *)
(* ===================================================================== *)

Module Int64Facts.
Import Int64.

Lemma wrap_range z : in_range (wrap z).
Proof.
  unfold in_range, wrap, min_int, max_int, modulus.
  pose proof (Z.mod_pos_bound (z + 2 ^ 63) (2 ^ 64) ltac:(lia)). lia.
Qed.

Lemma wrap_small z : in_range z -> wrap z = z.
Proof.
  unfold in_range, wrap, min_int, max_int, modulus. intros H.
  rewrite Z.mod_small by lia. lia.
Qed.

Lemma wrap_eqm z : (wrap z) mod modulus = z mod modulus.
Proof.
  unfold wrap, modulus.
  rewrite Zminus_mod, Zmod_mod, <- Zminus_mod. f_equal. lia.
Qed.

Lemma wrap_congr a b : a mod modulus = b mod modulus -> wrap a = wrap b.
Proof.
  unfold wrap. intros H.
  rewrite (Zplus_mod a), (Zplus_mod b), H. reflexivity.
Qed.

Lemma wrap_wrap z : wrap (wrap z) = wrap z.
Proof. apply wrap_small, wrap_range. Qed.

Lemma add_wrap_l a b : add (wrap a) b = wrap (a + b).
Proof.
  unfold add. apply wrap_congr.
  rewrite Zplus_mod, wrap_eqm, <- Zplus_mod. reflexivity.
Qed.

Lemma add_wrap_r a b : add a (wrap b) = wrap (a + b).
Proof.
  unfold add. apply wrap_congr.
  rewrite Zplus_mod, wrap_eqm, <- Zplus_mod. reflexivity.
Qed.

End Int64Facts.

(* ===================================================================== *)
(** * The engine: Execute *)
(* ===================================================================== *)

Section ExecuteFacts.

Implicit Types (e : WalletEngine) (cmd : TransferCommand).


Lemma Execute_state cmd e : exec (Execute cmd) e = e.
Proof.
  unfold exec, Execute, ExecuteWithContext, bind, gets, ret.
  repeat (case_match; simpl; try reflexivity).
Qed.

Lemma Execute_duplicate cmd e :
  is_processed e (TransactionID cmd) = true ->
  Execute cmd e = (([], None), e).
Proof.
  unfold is_processed, Execute, ExecuteWithContext, bind, gets, ret.
  intros ->. reflexivity.
Qed.

Lemma Execute_fresh cmd e :
  is_processed e (TransactionID cmd) = false ->
  Execute cmd e =
    ((if Amount cmd <=? 0 then
        [TransactionFailed (TransactionID cmd) (FromAccount cmd) "amount must be positive"]
      else if String.eqb (FromAccount cmd) (ToAccount cmd) then
        [TransactionFailed (TransactionID cmd) (FromAccount cmd)
           "cannot transfer to same account"]
      else if balance_at (balances e) (FromAccount cmd) <? Amount cmd then
        [TransactionFailed (TransactionID cmd) (FromAccount cmd) "insufficient funds"]
      else
        [MoneyDeducted (TransactionID cmd) (FromAccount cmd) (Amount cmd);
         MoneyCredited (TransactionID cmd) (ToAccount cmd) (Amount cmd)],
      None), e).
Proof.
  unfold is_processed, Execute, ExecuteWithContext, bind, gets, ret.
  intros ->. repeat (case_match; try reflexivity).
Qed.

End ExecuteFacts.

(** C10. [ExecuteWithContext] never fails and never writes: whatever the
    command and the engine state, the returned error is nil and both
    [balances] and [processedTxns] are what they were. *)
Theorem ExecuteWithContext_read_only (cmd : TransferCommand) (e : WalletEngine) :
  snd (eval (ExecuteWithContext cmd) e) = None /\
  balances (exec (ExecuteWithContext cmd) e) = balances e /\
  processedTxns (exec (ExecuteWithContext cmd) e) = processedTxns e.
Proof.
  unfold eval, exec, ExecuteWithContext, bind, gets, ret.
  repeat (case_match; simpl; auto).
Qed.

(** C2. On a transaction id that is not yet processed the three rules are
    tried in the order amount, same account, funds, and the first that
    fails decides: each gives exactly one [TransactionFailed] with its
    reason, and a nil error. *)
Theorem Execute_validation_order (cmd : TransferCommand) (e : WalletEngine) :
  is_processed e (TransactionID cmd) = false ->
  (Amount cmd <= 0 ->
     eval (Execute cmd) e =
       ([TransactionFailed (TransactionID cmd) (FromAccount cmd)
           "amount must be positive"], None)) /\
  (0 < Amount cmd -> FromAccount cmd = ToAccount cmd ->
     eval (Execute cmd) e =
       ([TransactionFailed (TransactionID cmd) (FromAccount cmd)
           "cannot transfer to same account"], None)) /\
  (0 < Amount cmd -> FromAccount cmd <> ToAccount cmd ->
   balance_at (balances e) (FromAccount cmd) < Amount cmd ->
     eval (Execute cmd) e =
       ([TransactionFailed (TransactionID cmd) (FromAccount cmd)
           "insufficient funds"], None)).
Proof.
  intros Hfresh. unfold eval. rewrite (Execute_fresh _ _ Hfresh). simpl.
  repeat split.
  - intros Ha. apply Z.leb_le in Ha. rewrite Ha. reflexivity.
  - intros Ha Heq. apply Z.leb_gt in Ha. rewrite Ha.
    apply String.eqb_eq in Heq. rewrite Heq. reflexivity.
  - intros Ha Hne Hb. apply Z.leb_gt in Ha. rewrite Ha.
    apply String.eqb_neq in Hne. rewrite Hne.
    apply Z.ltb_lt in Hb. rewrite Hb. reflexivity.
Qed.


Lemma Execute_validation_order_witness :
  eval (Execute {| TransactionID := "test-1"; FromAccount := "alice";
                   ToAccount := "bob"; Amount := -100 |}) alice_engine =
    ([TransactionFailed "test-1" "alice" "amount must be positive"], None) /\
  eval (Execute {| TransactionID := "test-3"; FromAccount := "alice";
                   ToAccount := "alice"; Amount := 100 |}) alice_engine =
    ([TransactionFailed "test-3" "alice" "cannot transfer to same account"], None) /\
  eval (Execute {| TransactionID := "test-4"; FromAccount := "alice";
                   ToAccount := "bob"; Amount := 10000 |}) alice_engine =
    ([TransactionFailed "test-4" "alice" "insufficient funds"], None).
Proof.
  split; [|split].
  - apply (Execute_validation_order
             {| TransactionID := "test-1"; FromAccount := "alice";
                ToAccount := "bob"; Amount := -100 |} alice_engine);
      [reflexivity | simpl; lia].
  - apply (Execute_validation_order
             {| TransactionID := "test-3"; FromAccount := "alice";
                ToAccount := "alice"; Amount := 100 |} alice_engine);
      [reflexivity | simpl; lia | reflexivity].
  - apply (Execute_validation_order
             {| TransactionID := "test-4"; FromAccount := "alice";
                ToAccount := "bob"; Amount := 10000 |} alice_engine);
      [reflexivity | simpl; lia | simpl; congruence | vm_compute; reflexivity].
Defined.

(* ===================================================================== *)
(** * The engine: applying events and running a stream *)
(* ===================================================================== *)

Section RunFacts.

Implicit Types (e : WalletEngine) (cmd : TransferCommand) (ev : Event).

Lemma ApplyEvents_app (l1 l2 : list Event) e :
  exec (ApplyEvents (l1 ++ l2)) e = exec (ApplyEvents l2) (exec (ApplyEvents l1) e).
Proof.
  revert e. induction l1 as [|ev l1 IH]; intros e; [reflexivity|].
  unfold exec in *. simpl. unfold bind.
  destruct (applyEvent ev e) as [[] e1]. apply IH.
Qed.

Lemma process_unfold cmd e :
  process cmd e =
    (fst (eval (Execute cmd) e), exec (ApplyEvents (fst (eval (Execute cmd) e))) e).
Proof.
  unfold process, bind, eval, exec.
  pose proof (Execute_state cmd e) as Hst. unfold exec in Hst.
  destruct (Execute cmd e) as [r e1]. simpl in *. subst e1.
  destruct (ApplyEvents (fst r) e) as [[] e2]. reflexivity.
Qed.

Lemma run_cons cmd (cmds : list TransferCommand) e :
  run (cmd :: cmds) e =
    (eval (process cmd) e ++ eval (run cmds) (exec (process cmd) e),
     exec (run cmds) (exec (process cmd) e)).
Proof.
  unfold eval, exec. simpl. unfold bind.
  destruct (process cmd e) as [evs e1]. simpl.
  destruct (run cmds e1) as [log e2]. reflexivity.
Qed.

Lemma run_cons_eval cmd (cmds : list TransferCommand) e :
  eval (run (cmd :: cmds)) e =
    eval (process cmd) e ++ eval (run cmds) (exec (process cmd) e).
Proof. unfold eval at 1. rewrite run_cons. reflexivity. Qed.

Lemma run_cons_exec cmd (cmds : list TransferCommand) e :
  exec (run (cmd :: cmds)) e = exec (run cmds) (exec (process cmd) e).
Proof. unfold exec at 1. rewrite run_cons. reflexivity. Qed.

Lemma process_state cmd e :
  exec (process cmd) e = exec (ApplyEvents (eval (process cmd) e)) e.
Proof. unfold exec at 1, eval. rewrite process_unfold. reflexivity. Qed.

(** The state after a stream is the fold of [applyEvent] over its log. *)
Lemma run_is_replay (cmds : list TransferCommand) e :
  exec (run cmds) e = exec (ApplyEvents (eval (run cmds) e)) e.
Proof.
  revert e. induction cmds as [|c cs IH]; intros e; [reflexivity|].
  rewrite run_cons_exec, run_cons_eval, ApplyEvents_app, IH, <- process_state.
  reflexivity.
Qed.

(** A processed flag is never cleared. *)
Lemma applyEvent_processed ev e txn :
  is_processed e txn = true -> is_processed (exec (applyEvent ev) e) txn = true.
Proof.
  unfold is_processed, flag_at. intros H.
  destruct ev as [t a m|t a m|t a r]; simpl; auto;
    (destruct (decide (t = txn)) as [->|Hne];
     [rewrite lookup_insert_eq | rewrite lookup_insert_ne by done]; auto).
Qed.

Lemma ApplyEvents_processed (evs : list Event) e txn :
  is_processed e txn = true -> is_processed (exec (ApplyEvents evs) e) txn = true.
Proof.
  revert e. induction evs as [|ev evs IH]; intros e H; [exact H|].
  change (ev :: evs) with ([ev] ++ evs). rewrite ApplyEvents_app.
  apply IH. unfold exec. simpl. unfold bind.
  pose proof (applyEvent_processed ev e txn H) as H'. unfold exec in H'.
  destruct (applyEvent ev e) as [[] e1]. exact H'.
Qed.

Lemma SetBalance_processed a b e txn :
  is_processed (exec (SetBalance a b) e) txn = is_processed e txn.
Proof. reflexivity. Qed.

Lemma process_processed cmd e txn :
  is_processed e txn = true -> is_processed (exec (process cmd) e) txn = true.
Proof. rewrite process_state. apply ApplyEvents_processed. Qed.

Lemma run_processed (cmds : list TransferCommand) e txn :
  is_processed e txn = true -> is_processed (exec (run cmds) e) txn = true.
Proof. rewrite run_is_replay. apply ApplyEvents_processed. Qed.

(** The three shapes of what one command emits. *)
Lemma process_cases cmd e :
  (is_processed e (TransactionID cmd) = true /\ eval (process cmd) e = []) \/
  (is_processed e (TransactionID cmd) = false /\
   exists reason,
     eval (process cmd) e =
       [TransactionFailed (TransactionID cmd) (FromAccount cmd) reason]) \/
  (is_processed e (TransactionID cmd) = false /\
   0 < Amount cmd /\ FromAccount cmd <> ToAccount cmd /\
   Amount cmd <= balance_at (balances e) (FromAccount cmd) /\
   eval (process cmd) e =
     [MoneyDeducted (TransactionID cmd) (FromAccount cmd) (Amount cmd);
      MoneyCredited (TransactionID cmd) (ToAccount cmd) (Amount cmd)]).
Proof.
  unfold eval at 1 2 3. rewrite process_unfold. simpl. unfold eval.
  destruct (is_processed e (TransactionID cmd)) eqn:Hp.
  - left. rewrite (Execute_duplicate _ _ Hp). auto.
  - right. rewrite (Execute_fresh _ _ Hp). simpl.
    destruct (Amount cmd <=? 0) eqn:Ha; [left; eauto|].
    destruct (String.eqb (FromAccount cmd) (ToAccount cmd)) eqn:Hs; [left; eauto|].
    destruct (balance_at (balances e) (FromAccount cmd) <? Amount cmd) eqn:Hb;
      [left; eauto|].
    right. apply Z.leb_gt in Ha. apply String.eqb_neq in Hs. apply Z.ltb_ge in Hb.
    auto.
Qed.

(** Once a command has been processed its transaction id is marked. *)
Lemma process_marks cmd e :
  is_processed (exec (process cmd) e) (TransactionID cmd) = true.
Proof.
  destruct (process_cases cmd e) as [[Hp He]|[[Hp [r He]]|[Hp (_ & _ & _ & He)]]];
    rewrite process_state, He.
  - exact Hp.
  - unfold is_processed, flag_at. simpl. rewrite lookup_insert_eq. reflexivity.
  - unfold is_processed, flag_at. simpl. rewrite lookup_insert_eq. reflexivity.
Qed.

(** Every event a command emits carries the command's transaction id, and
    is emitted only while that id is unprocessed. *)
Lemma process_events_fresh cmd e ev :
  In ev (eval (process cmd) e) ->
  GetTransactionID ev = TransactionID cmd /\ is_processed e (TransactionID cmd) = false.
Proof.
  destruct (process_cases cmd e) as [[Hp He]|[[Hp [r He]]|[Hp (_ & _ & _ & He)]]];
    rewrite He; simpl; intros Hin.
  - contradiction.
  - destruct Hin as [<-|[]]. auto.
  - destruct Hin as [<-|[<-|[]]]; auto.
Qed.

Lemma run_events_fresh (cmds : list TransferCommand) e ev :
  In ev (eval (run cmds) e) -> is_processed e (GetTransactionID ev) = false.
Proof.
  revert e. induction cmds as [|c cs IH]; intros e; [intros []|].
  rewrite run_cons_eval, in_app_iff. intros [Hin|Hin].
  - apply process_events_fresh in Hin as [-> Hp]. exact Hp.
  - apply IH in Hin.
    destruct (is_processed e (GetTransactionID ev)) eqn:Hp; [|reflexivity].
    rewrite (process_processed c e _ Hp) in Hin. discriminate.
Qed.

End RunFacts.

Section LogOrder.

Implicit Types (e : WalletEngine) (cmd : TransferCommand) (ev : Event).

Lemma lookup_In (l : list Event) (i : nat) ev : l !! i = Some ev -> In ev l.
Proof. intros H. apply list_elem_of_In, list_elem_of_lookup. eauto. Qed.

Lemma log_deduction_before_credit (cmds : list TransferCommand) e
      (i j : nat) txn a1 m1 a2 m2 :
  eval (run cmds) e !! i = Some (MoneyDeducted txn a1 m1) ->
  eval (run cmds) e !! j = Some (MoneyCredited txn a2 m2) ->
  (i < j)%nat.
Proof.
  revert e i j. induction cmds as [|c cs IH]; intros e i j; [discriminate|].
  rewrite run_cons_eval.
  intros [Hi|[Hil Hi]]%lookup_app_Some [Hj|[Hjl Hj]]%lookup_app_Some.
  - destruct (process_cases c e) as [[_ He]|[[_ [r He]]|(_ & _ & _ & _ & He)]];
      rewrite He in Hi, Hj.
    + discriminate.
    + destruct i as [|[|]], j as [|[|]]; discriminate.
    + destruct i as [|[|]], j as [|[|]]; try discriminate. lia.
  - apply lookup_lt_Some in Hi. lia.
  - exfalso.
    apply lookup_In, process_events_fresh in Hj as [Hj _]. simpl in Hj.
    apply lookup_In, run_events_fresh in Hi. simpl in Hi. subst txn.
    rewrite process_marks in Hi. discriminate.
  - specialize (IH _ _ _ Hi Hj). lia.
Qed.

Lemma log_credit_has_deduction (cmds : list TransferCommand) e (j : nat) txn a m :
  eval (run cmds) e !! j = Some (MoneyCredited txn a m) ->
  exists i a',
    j = S i /\ eval (run cmds) e !! i = Some (MoneyDeducted txn a' m).
Proof.
  revert e j. induction cmds as [|c cs IH]; intros e j; [discriminate|].
  rewrite run_cons_eval. intros [Hj|[Hjl Hj]]%lookup_app_Some.
  - destruct (process_cases c e) as [[_ He]|[[_ [r He]]|(_ & _ & _ & _ & He)]];
      rewrite He in Hj |- *.
    + discriminate.
    + destruct j as [|[|]]; discriminate.
    + destruct j as [|[|]]; try discriminate. injection Hj as <- <- <-.
      exists 0%nat, (FromAccount c). split; reflexivity.
  - destruct (IH _ _ Hj) as (i & a' & Hij & Hi).
    exists (length (eval (process c) e) + i)%nat, a'. split; [lia|].
    rewrite lookup_app_r by lia.
    replace (length (eval (process c) e) + i - length (eval (process c) e))%nat
      with i by lia.
    exact Hi.
Qed.

End LogOrder.

(** C3. A command that is not a duplicate and passes the three rules gets
    exactly [[MoneyDeducted txn from amount; MoneyCredited txn to amount]],
    the deduction first. In the log of any stream, from any engine state,
    a [MoneyDeducted] and a [MoneyCredited] of one transaction id stand in
    that order, and each [MoneyCredited] follows a [MoneyDeducted]
    of its transaction id and amount. *)
Theorem Execute_success_pair_ordered :
  (forall (cmd : TransferCommand) (e : WalletEngine),
     is_processed e (TransactionID cmd) = false ->
     0 < Amount cmd ->
     FromAccount cmd <> ToAccount cmd ->
     Amount cmd <= balance_at (balances e) (FromAccount cmd) ->
     eval (Execute cmd) e =
       ([MoneyDeducted (TransactionID cmd) (FromAccount cmd) (Amount cmd);
         MoneyCredited (TransactionID cmd) (ToAccount cmd) (Amount cmd)], None)) /\
  (forall (cmds : list TransferCommand) (e : WalletEngine)
          (i j : nat) txn a1 m1 a2 m2,
     eval (run cmds) e !! i = Some (MoneyDeducted txn a1 m1) ->
     eval (run cmds) e !! j = Some (MoneyCredited txn a2 m2) ->
     (i < j)%nat) /\
  (forall (cmds : list TransferCommand) (e : WalletEngine) (j : nat) txn a m,
     eval (run cmds) e !! j = Some (MoneyCredited txn a m) ->
     exists (i : nat) a',
       (i < j)%nat /\ eval (run cmds) e !! i = Some (MoneyDeducted txn a' m)).
Proof.
  split; [|split].
  - intros cmd e Hp Ha Hne Hb. unfold eval. rewrite (Execute_fresh _ _ Hp). simpl.
    apply Z.leb_gt in Ha. apply String.eqb_neq in Hne. apply Z.ltb_ge in Hb.
    rewrite Ha, Hne, Hb. reflexivity.
  - intros. eapply log_deduction_before_credit; eauto.
  - intros cmds e j txn a m Hj.
    destruct (log_credit_has_deduction _ _ _ _ _ _ Hj) as (i & a' & -> & Hi).
    exists i, a'. split; [lia | exact Hi].
Qed.

(** C4. A command whose transaction id is already processed gets the empty
    vector, a nil error and an untouched engine; and the stream [[c; c]]
    ends in the same log and the same engine state as the stream [[c]]. *)
Theorem process_idempotent (c : TransferCommand) (e : WalletEngine) :
  (is_processed e (TransactionID c) = true ->
     Execute c e = (([], None), e) /\ process c e = ([], e)) /\
  run [c; c] e = run [c] e.
Proof.
  assert (Hdup : forall e', is_processed e' (TransactionID c) = true ->
                            process c e' = ([], e')).
  { intros e' Hp. rewrite process_unfold. unfold eval.
    rewrite (Execute_duplicate _ _ Hp). reflexivity. }
  split.
  - intros Hp. split; [apply Execute_duplicate, Hp | apply Hdup, Hp].
  - rewrite (run_cons c [c]), (run_cons c []), run_cons_eval, run_cons_exec.
    assert (Hnoop : process c (exec (process c) e) = ([], exec (process c) e))
      by apply Hdup, process_marks.
    assert (Hev : eval (process c) (exec (process c) e) = [])
      by (unfold eval at 1; rewrite Hnoop; reflexivity).
    assert (Hst : exec (process c) (exec (process c) e) = exec (process c) e)
      by (unfold exec at 1; rewrite Hnoop; reflexivity).
    rewrite Hev, Hst. reflexivity.
Qed.

Lemma process_idempotent_witness :
  let c := {| TransactionID := "test-txn-123"; FromAccount := "alice";
              ToAccount := "bob"; Amount := 100 |} in
  let e := exec (process c) alice_engine in
  is_processed e "test-txn-123" = true /\
  Execute c e = (([], None), e) /\
  run [c; c] alice_engine = run [c] alice_engine.
Proof.
  intros c e. split; [reflexivity|]. split.
  - apply (process_idempotent c e). reflexivity.
  - apply (process_idempotent c alice_engine).
Defined.

Lemma InitializeFromEventStore_loaded (events : list Event) (e : WalletEngine) :
  InitializeFromEventStore (inl events) e = (None, exec (ApplyEvents events) e).
Proof.
  unfold exec. simpl. unfold bind.
  destruct (ApplyEvents events e) as [[] e1]. reflexivity.
Qed.

(** C7. Replay identity. A fresh engine given the same [SetBalance] calls as
    the originating one and then fed the log of the originating run through
    [InitializeFromEventStore] reports no error and ends with the balances
    map of the originating engine. *)
Theorem replay_identity (init : list (string * Z)) (cmds : list TransferCommand) :
  let origin := exec (inject init) NewWalletEngine in
  let L := eval (run cmds) origin in
  let fresh := exec (inject init) NewWalletEngine in
  eval (InitializeFromEventStore (inl L)) fresh = None /\
  balances (exec (InitializeFromEventStore (inl L)) fresh) =
    balances (exec (run cmds) origin).
Proof.
  intros origin L fresh. subst fresh L. fold origin.
  rewrite (run_is_replay cmds origin).
  assert (Hinit : forall evs e, eval (InitializeFromEventStore (inl evs)) e = None /\
                                exec (InitializeFromEventStore (inl evs)) e =
                                  exec (ApplyEvents evs) e).
  { intros evs e. unfold eval, exec at 1.
    rewrite InitializeFromEventStore_loaded. split; reflexivity. }
  destruct (Hinit (eval (run cmds) origin) origin) as [-> ->].
  split; reflexivity.
Qed.

Section Consumed.

Implicit Types (e : WalletEngine).

Lemma perform_processed (op : Op) e txn :
  is_processed e txn = true -> is_processed (exec (perform op) e) txn = true.
Proof.
  intros H. destruct op as [cmd|a b|evs].
  - pose proof (process_processed cmd e txn H) as H'.
    unfold exec in *. simpl. unfold bind.
    destruct (process cmd e) as [l e1]. exact H'.
  - exact H.
  - apply ApplyEvents_processed, H.
Qed.

Lemma perform_all_processed (ops : list Op) e txn :
  is_processed e txn = true -> is_processed (exec (perform_all ops) e) txn = true.
Proof.
  revert e. induction ops as [|op ops IH]; intros e H; [exact H|].
  pose proof (perform_processed op e txn H) as H1. apply IH in H1.
  unfold exec in *. simpl. unfold bind.
  destruct (perform op e) as [[] e1]. exact H1.
Qed.

End Consumed.

(** C8. Once a command with transaction id X has been processed and has
    produced a [TransactionFailed], X is marked; whatever happens to the
    engine afterwards (further commands, balances set, events applied),
    every command carrying X gets the empty vector. *)
Theorem failed_transaction_id_consumed
    (c : TransferCommand) (e : WalletEngine) (from reason : string) :
  eval (process c) e = [TransactionFailed (TransactionID c) from reason] ->
  forall (ops : list Op) (c' : TransferCommand),
    TransactionID c' = TransactionID c ->
    is_processed (exec (perform_all ops) (exec (process c) e)) (TransactionID c) = true /\
    eval (Execute c') (exec (perform_all ops) (exec (process c) e)) = ([], None).
Proof.
  intros Hfail ops c' Htx.
  assert (Hp : is_processed (exec (perform_all ops) (exec (process c) e))
                 (TransactionID c) = true).
  { apply perform_all_processed. rewrite process_state, Hfail.
    unfold is_processed, flag_at. simpl. rewrite lookup_insert_eq. reflexivity. }
  split; [exact Hp|].
  unfold eval. rewrite Execute_duplicate by (rewrite Htx; exact Hp). reflexivity.
Qed.

Lemma failed_transaction_id_consumed_witness :
  let poor := exec (SetBalance "alice" 10) NewWalletEngine in
  let c := {| TransactionID := "X"; FromAccount := "alice";
              ToAccount := "bob"; Amount := 100 |} in
  let later := exec (perform_all [OpSetBalance "alice" 1000]) (exec (process c) poor) in
  eval (process c) poor = [TransactionFailed "X" "alice" "insufficient funds"] /\
  balance_at (balances later) "alice" = 1000 /\
  eval (Execute c) later = ([], None).
Proof.
  intros poor c later. split; [reflexivity|]. split; [reflexivity|].
  apply (failed_transaction_id_consumed c poor "alice" "insufficient funds"
           eq_refl [OpSetBalance "alice" 1000] c eq_refl).
Defined.

(* ===================================================================== *)
(** * Sums of balances *)
(* ===================================================================== *)

Section Sums.

Import Int64 Int64Facts.
Implicit Types (m : gmap string Z) (k : string).

Lemma wrap_shift z n : wrap (z + n * modulus) = wrap z.
Proof. apply wrap_congr, Z_mod_plus_full. Qed.

Lemma wrap_spec z : exists n, wrap z = z + n * modulus.
Proof.
  exists (- ((z + 2 ^ 63) / modulus)). unfold wrap.
  pose proof (Z_div_mod_eq_full (z + 2 ^ 63) modulus). lia.
Qed.

Lemma sum_of_empty : sum_of ∅ = 0.
Proof. apply map_fold_empty. Qed.

Lemma sum_of_insert_fresh m k v :
  m !! k = None -> sum_of (<[k:=v]> m) = sum_of m + v.
Proof.
  intros H. unfold sum_of. rewrite map_fold_insert_L; [reflexivity| |exact H].
  intros. lia.
Qed.

Lemma sum_of_delete m k : sum_of m = sum_of (delete k m) + balance_at m k.
Proof.
  unfold balance_at. destruct (m !! k) as [x|] eqn:Hk; simpl.
  - rewrite <- (insert_delete_id m k x Hk) at 1.
    apply sum_of_insert_fresh, lookup_delete_eq.
  - rewrite delete_id by exact Hk. lia.
Qed.

Lemma sum_of_insert m k v :
  sum_of (<[k:=v]> m) = sum_of m - balance_at m k + v.
Proof.
  rewrite <- (insert_delete_eq m k v).
  rewrite sum_of_insert_fresh by apply lookup_delete_eq.
  rewrite (sum_of_delete m k). lia.
Qed.

Lemma total_of_sum m : total_of m = wrap (sum_of m).
Proof.
  induction m as [|k x m Hk IH] using map_ind; [reflexivity|].
  rewrite sum_of_insert_fresh by exact Hk. unfold total_of.
  rewrite map_fold_insert_L; [fold (total_of m); rewrite IH; apply add_wrap_l| |exact Hk].
  intros j1 j2 z1 z2 y _ _ _. unfold add at 2 4. rewrite !add_wrap_l.
  f_equal. lia.
Qed.

Lemma balance_at_insert m k k' v :
  balance_at (<[k:=v]> m) k' = if decide (k = k') then v else balance_at m k'.
Proof.
  unfold balance_at. destruct (decide (k = k')) as [->|Hne].
  - rewrite lookup_insert_eq. reflexivity.
  - rewrite lookup_insert_ne by exact Hne. reflexivity.
Qed.

Lemma nonnegative_sum m : nonnegative m -> 0 <= sum_of m.
Proof.
  unfold nonnegative.
  induction m as [|k x m Hk IH] using map_ind; intros H.
  - rewrite sum_of_empty. lia.
  - apply map_Forall_insert in H as [Hx Hm]; [|exact Hk].
    rewrite sum_of_insert_fresh by exact Hk. specialize (IH Hm). lia.
Qed.

Lemma nonnegative_at m k : nonnegative m -> 0 <= balance_at m k.
Proof.
  intros H. unfold balance_at. destruct (m !! k) as [x|] eqn:Hk; simpl; [|lia].
  exact (H k x Hk).
Qed.

Lemma nonnegative_insert m k v : nonnegative m -> 0 <= v -> nonnegative (<[k:=v]> m).
Proof. intros Hm Hv. apply map_Forall_insert_2; assumption. Qed.

Lemma nonnegative_delete m k : nonnegative m -> nonnegative (delete k m).
Proof. intros H. apply map_Forall_delete, H. Qed.

Lemma balance_le_sum m k : nonnegative m -> balance_at m k <= sum_of m.
Proof.
  intros H. rewrite (sum_of_delete m k).
  pose proof (nonnegative_sum _ (nonnegative_delete m k H)). lia.
Qed.

Lemma two_balances_le_sum m k1 k2 :
  nonnegative m -> k1 <> k2 -> balance_at m k1 + balance_at m k2 <= sum_of m.
Proof.
  intros H Hne. rewrite (sum_of_delete m k1).
  pose proof (balance_le_sum (delete k1 m) k2 (nonnegative_delete m k1 H)) as Hle.
  unfold balance_at in Hle at 1. rewrite lookup_delete_ne in Hle by exact Hne.
  fold (balance_at m k2) in Hle. lia.
Qed.

End Sums.

(* ===================================================================== *)
(** * Conservation and non-negativity *)
(* ===================================================================== *)

Section Conservation.

Import Int64 Int64Facts.
Implicit Types (e : WalletEngine) (cmd : TransferCommand).

Lemma exec_cons (ev : Event) (evs : list Event) e :
  exec (ApplyEvents (ev :: evs)) e = exec (ApplyEvents evs) (exec (applyEvent ev) e).
Proof.
  unfold exec. simpl. unfold bind. destruct (applyEvent ev e) as [[] e1]. reflexivity.
Qed.

Lemma exec_nil e : exec (ApplyEvents []) e = e.
Proof. reflexivity. Qed.

(** A deduction followed by a credit of the same amount leaves the 64-bit
    total where it was, whatever the two accounts hold. *)
Lemma pair_total txn from to amount e :
  total_of (balances (exec (ApplyEvents [MoneyDeducted txn from amount;
                                         MoneyCredited txn to amount]) e)) =
  total_of (balances e).
Proof.
  rewrite !exec_cons. unfold exec. simpl. rewrite !total_of_sum, !sum_of_insert.
  unfold add, sub.
  destruct (wrap_spec (balance_at (balances e) from - amount)) as [n1 H1].
  destruct (wrap_spec
    (balance_at
       (<[from := wrap (balance_at (balances e) from - amount)]> (balances e)) to
     + amount)) as [n2 H2].
  rewrite H2, H1. rewrite <- (wrap_shift (sum_of (balances e)) (n1 + n2)).
  f_equal. lia.
Qed.

Lemma process_total cmd e :
  total_of (balances (exec (process cmd) e)) = total_of (balances e).
Proof.
  destruct (process_cases cmd e) as [[_ He]|[[_ [r He]]|(_ & _ & _ & _ & He)]];
    rewrite process_state, He.
  - reflexivity.
  - reflexivity.
  - apply pair_total.
Qed.

Lemma process_balances cmd e :
  balances (exec (process cmd) e) = balances e \/
  exists amount,
    eval (process cmd) e =
      [MoneyDeducted (TransactionID cmd) (FromAccount cmd) amount;
       MoneyCredited (TransactionID cmd) (ToAccount cmd) amount].
Proof.
  destruct (process_cases cmd e) as [[_ He]|[[_ [r He]]|(_ & _ & _ & _ & He)]].
  - left. rewrite process_state, He. reflexivity.
  - left. rewrite process_state, He. reflexivity.
  - right. eauto.
Qed.


Lemma deduct_solvent txn from amount e :
  solvent (balances e) -> 0 < amount ->
  amount <= balance_at (balances e) from ->
  nonnegative (balances (exec (applyEvent (MoneyDeducted txn from amount)) e)) /\
  sum_of (balances (exec (applyEvent (MoneyDeducted txn from amount)) e)) =
    sum_of (balances e) - amount.
Proof.
  intros [Hnn Hsum] Ha Hb.
  pose proof (balance_le_sum _ from Hnn) as Hle.
  assert (Hw : sub (balance_at (balances e) from) amount =
               balance_at (balances e) from - amount).
  { apply wrap_small. unfold in_range, min_int, max_int in *. lia. }
  unfold exec. simpl. rewrite Hw. split.
  - apply nonnegative_insert; [exact Hnn | lia].
  - rewrite sum_of_insert. lia.
Qed.

Lemma credit_solvent txn to amount e :
  nonnegative (balances e) -> 0 < amount ->
  sum_of (balances e) + amount <= max_int ->
  nonnegative (balances (exec (applyEvent (MoneyCredited txn to amount)) e)) /\
  sum_of (balances (exec (applyEvent (MoneyCredited txn to amount)) e)) =
    sum_of (balances e) + amount.
Proof.
  intros Hnn Ha Hsum.
  pose proof (balance_le_sum _ to Hnn) as Hle.
  pose proof (nonnegative_at _ to Hnn) as Hge.
  assert (Hw : add (balance_at (balances e) to) amount =
               balance_at (balances e) to + amount).
  { apply wrap_small. unfold in_range, min_int, max_int in *. lia. }
  unfold exec. simpl. rewrite Hw. split.
  - apply nonnegative_insert; [exact Hnn | lia].
  - rewrite sum_of_insert. lia.
Qed.

(** Along the events of one command, every state is non-negative, and the
    state at the end is solvent with the exact sum it started from. *)
Lemma process_solvent cmd e :
  solvent (balances e) ->
  (forall k : nat,
     nonnegative (balances (exec (ApplyEvents (take k (eval (process cmd) e))) e))) /\
  solvent (balances (exec (process cmd) e)) /\
  sum_of (balances (exec (process cmd) e)) = sum_of (balances e).
Proof.
  intros Hs. pose proof Hs as [Hnn Hsum].
  destruct (process_cases cmd e) as [[_ He]|[[_ [r He]]|(_ & Ha & _ & Hb & He)]];
    rewrite process_state, He.
  - split; [|split; [exact Hs | reflexivity]].
    intros k. rewrite take_nil. exact Hnn.
  - split; [|split; [exact Hs | reflexivity]].
    intros [|k]; [exact Hnn|]. simpl. rewrite take_nil. exact Hnn.
  - destruct (deduct_solvent (TransactionID cmd) (FromAccount cmd) (Amount cmd) e
                Hs Ha Hb) as [Hnn1 Hsum1].
    assert (Hroom : sum_of (balances (exec (applyEvent
               (MoneyDeducted (TransactionID cmd) (FromAccount cmd) (Amount cmd))) e))
             + Amount cmd <= max_int) by (rewrite Hsum1; lia).
    destruct (credit_solvent (TransactionID cmd) (ToAccount cmd) (Amount cmd) _
                Hnn1 Ha Hroom) as [Hnn2 Hsum2].
    rewrite !exec_cons, exec_nil.
    split; [|split; [split; [exact Hnn2 | rewrite Hsum2, Hsum1; lia]
                    | rewrite Hsum2, Hsum1; lia]].
    intros [|[|[|k]]]; simpl; rewrite ?take_nil, ?exec_cons, ?exec_nil; assumption.
Qed.

Lemma run_solvent (cmds : list TransferCommand) e :
  solvent (balances e) ->
  solvent (balances (exec (run cmds) e)) /\
  sum_of (balances (exec (run cmds) e)) = sum_of (balances e).
Proof.
  revert e. induction cmds as [|c cs IH]; intros e Hs; [split; [exact Hs|reflexivity]|].
  rewrite run_cons_exec.
  destruct (process_solvent c e Hs) as (_ & Hs1 & Hsum1).
  destruct (IH _ Hs1) as [Hs2 Hsum2]. split; [exact Hs2 | lia].
Qed.

Lemma log_prefix_nonnegative (cmds : list TransferCommand) e (k : nat) :
  solvent (balances e) ->
  nonnegative (balances (exec (ApplyEvents (take k (eval (run cmds) e))) e)).
Proof.
  revert e k. induction cmds as [|c cs IH]; intros e k Hs.
  - change (eval (run []) e) with (@nil Event). rewrite take_nil. apply Hs.
  - rewrite run_cons_eval, take_app.
    destruct (process_solvent c e Hs) as (Hpre & Hs1 & _).
    destruct (decide (k <= length (eval (process c) e))%nat) as [Hk|Hk].
    + replace (k - length (eval (process c) e))%nat with 0%nat by lia.
      rewrite take_0, app_nil_r. apply Hpre.
    + rewrite take_ge by lia. rewrite ApplyEvents_app, <- process_state.
      apply IH, Hs1.
Qed.

End Conservation.

(** C1. Conservation. From any engine state and for any finite stream of
    commands, [GetTotalBalance] after the stream is [GetTotalBalance]
    before it. One command either leaves the balances map as it is (a
    duplicate or a failure) or emits a deduction and a credit of one
    amount. *)
Theorem total_balance_conserved :
  (forall (cmds : list TransferCommand) (e : WalletEngine),
     eval GetTotalBalance (exec (run cmds) e) = eval GetTotalBalance e) /\
  (forall (cmd : TransferCommand) (e : WalletEngine),
     balances (exec (process cmd) e) = balances e \/
     exists amount,
       eval (process cmd) e =
         [MoneyDeducted (TransactionID cmd) (FromAccount cmd) amount;
          MoneyCredited (TransactionID cmd) (ToAccount cmd) amount]).
Proof.
  split; [|exact process_balances].
  intros cmds. induction cmds as [|c cs IH]; intros e; [reflexivity|].
  rewrite run_cons_exec, IH. apply process_total.
Qed.

(** C6, as stated, fails where a credit overflows: with balances
    [{a: 1, b: 2^63 - 1}], none negative, the transfer of 1 from [a] to [b]
    passes the three rules and leaves [b] at [-2^63]. *)
Lemma nonnegativity_counterexample :
  let e0 := exec (inject [("a", 1); ("b", Int64.max_int)]) NewWalletEngine in
  let c0 := {| TransactionID := "t"; FromAccount := "a"; ToAccount := "b"; Amount := 1 |} in
  nonnegative (balances e0) /\
  eval (process c0) e0 = [MoneyDeducted "t" "a" 1; MoneyCredited "t" "b" 1] /\
  balance_at (balances (exec (run [c0]) e0)) "b" = Int64.min_int /\
  ~ nonnegative (balances (exec (run [c0]) e0)).
Proof.
  intros e0 c0. split; [|split; [|split]].
  - unfold nonnegative. apply (bool_decide_unpack _). vm_compute. exact I.
  - vm_compute. reflexivity.
  - vm_compute. reflexivity.
  - unfold nonnegative. intros H. apply (bool_decide_pack _) in H. vm_compute in H. exact H.
Qed.

(** C6, amended. From an engine state in which no balance is negative and
    the exact sum of the balances fits in [int64], no balance is negative
    after any prefix of any stream of commands, nor after any prefix of the
    events of its log (so also between a deduction and its credit). *)
Theorem balances_stay_nonnegative (cmds : list TransferCommand) (e : WalletEngine) :
  nonnegative (balances e) ->
  sum_of (balances e) <= Int64.max_int ->
  (forall n : nat, nonnegative (balances (exec (run (take n cmds)) e))) /\
  (forall k : nat,
     nonnegative (balances (exec (ApplyEvents (take k (eval (run cmds) e))) e))).
Proof.
  intros Hnn Hsum. assert (Hs : solvent (balances e)) by (split; assumption).
  split.
  - intros n. apply (run_solvent (take n cmds) e Hs).
  - intros k. apply log_prefix_nonnegative, Hs.
Qed.

Lemma balances_stay_nonnegative_witness :
  let e := exec (inject [("sender", 100)]) NewWalletEngine in
  let cmds := [ {| TransactionID := "test-txn-00"; FromAccount := "sender";
                   ToAccount := "receiver"; Amount := 80 |};
                {| TransactionID := "test-txn-01"; FromAccount := "sender";
                   ToAccount := "receiver"; Amount := 80 |} ] in
  nonnegative (balances e) /\
  sum_of (balances e) <= Int64.max_int /\
  nonnegative (balances (exec (run (take 2 cmds)) e)).
Proof.
  intros e cmds.
  assert (Hnn : nonnegative (balances e))
    by (unfold nonnegative; apply (bool_decide_unpack _); vm_compute; exact I).
  assert (Hsum : sum_of (balances e) <= Int64.max_int)
    by (vm_compute; discriminate).
  split; [exact Hnn|]. split; [exact Hsum|].
  apply (balances_stay_nonnegative cmds e Hnn Hsum).
Defined.

(* ===================================================================== *)
(** * Facts about the library models *)
(* ===================================================================== *)

Module Utf8Facts.
Import Utf8.
Local Open Scope N_scope.

Lemma n2b_b2n (b : byte) : n2b (b2n b) = b.
Proof.
  unfold n2b, b2n. rewrite N.mod_small.
  - rewrite Byte.of_to_N. reflexivity.
  - pose proof (Byte.to_N_bounded b). lia.
Qed.

Lemma b2n_inj (a b : byte) : b2n a = b2n b -> a = b.
Proof. intros H. rewrite <- (n2b_b2n a), <- (n2b_b2n b), H. reflexivity. Qed.

Lemma lor_add (x lo k : N) : x mod 2 ^ k = 0 -> lo < 2 ^ k -> N.lor x lo = x + lo.
Proof.
  intros Hx Hlo.
  assert (Hland : N.land x lo = 0).
  { apply N.bits_inj. intros m. rewrite N.land_spec, N.bits_0.
    destruct (N.lt_ge_cases m k) as [Hm|Hm].
    - rewrite <- (N.mod_pow2_bits_low x k m Hm), Hx, N.bits_0. reflexivity.
    - rewrite <- (N.mod_small lo (2 ^ k) Hlo), N.mod_pow2_bits_high by exact Hm.
      apply andb_false_r. }
  rewrite <- N.lxor_lor by exact Hland. symmetry. apply N.add_nocarry_lxor, Hland.
Qed.

Lemma land_mod (x : N) (k : N) : N.land x (N.ones k) = x mod 2 ^ k.
Proof. apply N.land_ones. Qed.

Ltac arith :=
  repeat match goal with
  | |- context [N.land ?x 0x3F] => change (N.land x 0x3F) with (N.land x (N.ones 6)); rewrite (land_mod x 6)
  | |- context [N.land ?x 0x1F] => change (N.land x 0x1F) with (N.land x (N.ones 5)); rewrite (land_mod x 5)
  | |- context [N.land ?x 0x0F] => change (N.land x 0x0F) with (N.land x (N.ones 4)); rewrite (land_mod x 4)
  | |- context [N.land ?x 0x07] => change (N.land x 0x07) with (N.land x (N.ones 3)); rewrite (land_mod x 3)
  | |- context [N.shiftl ?x ?k] => rewrite (N.shiftl_mul_pow2 x k)
  | |- context [N.shiftr ?x ?k] => rewrite (N.shiftr_div_pow2 x k)
  end.

Lemma first_spec (c0 : N) (sz : nat) (lo hi : N) :
  first c0 = Some (sz, lo, hi) ->
  (sz = 2%nat /\ 0xC2 <= c0 <= 0xDF /\ lo = 0x80 /\ hi = 0xBF) \/
  (sz = 3%nat /\ c0 = 0xE0 /\ lo = 0xA0 /\ hi = 0xBF) \/
  (sz = 3%nat /\ c0 = 0xED /\ lo = 0x80 /\ hi = 0x9F) \/
  (sz = 3%nat /\ 0xE1 <= c0 <= 0xEF /\ c0 <> 0xED /\ lo = 0x80 /\ hi = 0xBF) \/
  (sz = 4%nat /\ c0 = 0xF0 /\ lo = 0x90 /\ hi = 0xBF) \/
  (sz = 4%nat /\ 0xF1 <= c0 <= 0xF3 /\ lo = 0x80 /\ hi = 0xBF) \/
  (sz = 4%nat /\ c0 = 0xF4 /\ lo = 0x80 /\ hi = 0x8F).
Proof.
  unfold first.
  repeat match goal with
  | |- context [?a <? ?b] => destruct (N.ltb_spec a b)
  | |- context [?a =? ?b] => destruct (N.eqb_spec a b)
  end; intros Heq; inversion Heq; subst; lia.
Qed.

Lemma between_spec lo hi b : between lo hi b = true <-> lo <= b2n b <= hi.
Proof. unfold between. rewrite andb_true_iff, !N.leb_le. reflexivity. Qed.

Ltac dm := zify; Z.quot_rem_to_equations; Z.to_euclidean_division_equations; lia.

Ltac decide_cmp :=
  repeat (match goal with
  | |- context [?a <=? ?b] =>
      first [ rewrite (proj2 (N.leb_le a b)) by lia | rewrite (proj2 (N.leb_gt a b)) by lia ]
  | |- context [?a <? ?b] =>
      first [ rewrite (proj2 (N.ltb_lt a b)) by lia | rewrite (proj2 (N.ltb_ge a b)) by lia ]
  end; cbn [orb andb negb]).

Lemma rune2 x0 x1 : 0xC2 <= x0 <= 0xDF -> 0x80 <= x1 <= 0xBF ->
  N.lor (N.shiftl (N.land x0 0x1F) 6) (N.land x1 0x3F) = (x0 - 192) * 64 + (x1 - 128).
Proof.
  intros H0 H1. arith. change (2 ^ 6) with 64. change (2 ^ 5) with 32.
  rewrite (lor_add _ _ 6) by dm. dm.
Qed.

Lemma rune3 x0 x1 x2 : 0xE0 <= x0 <= 0xEF -> 0x80 <= x1 <= 0xBF -> 0x80 <= x2 <= 0xBF ->
  N.lor (N.lor (N.shiftl (N.land x0 0x0F) 12) (N.shiftl (N.land x1 0x3F) 6))
        (N.land x2 0x3F) = (x0 - 224) * 4096 + (x1 - 128) * 64 + (x2 - 128).
Proof.
  intros H0 H1 H2. arith.
  change (2 ^ 6) with 64. change (2 ^ 4) with 16. change (2 ^ 12) with 4096.
  rewrite (lor_add (_ * _) _ 12) by dm. rewrite (lor_add (_ + _) _ 6) by dm. dm.
Qed.

Lemma rune4 x0 x1 x2 x3 :
  0xF0 <= x0 <= 0xF4 -> 0x80 <= x1 <= 0xBF -> 0x80 <= x2 <= 0xBF -> 0x80 <= x3 <= 0xBF ->
  N.lor (N.lor (N.lor (N.shiftl (N.land x0 0x07) 18) (N.shiftl (N.land x1 0x3F) 12))
               (N.shiftl (N.land x2 0x3F) 6))
        (N.land x3 0x3F) =
  (x0 - 240) * 262144 + (x1 - 128) * 4096 + (x2 - 128) * 64 + (x3 - 128).
Proof.
  intros H0 H1 H2 H3. arith.
  change (2 ^ 6) with 64. change (2 ^ 3) with 8. change (2 ^ 12) with 4096.
  change (2 ^ 18) with 262144.
  rewrite (lor_add (_ * _) _ 18) by dm. rewrite (lor_add (_ + _) _ 12) by dm.
  rewrite (lor_add (_ + _) _ 6) by dm. dm.
Qed.

Lemma encode2 a b : 2 <= a < 32 -> b < 64 ->
  EncodeRune (a * 64 + b) = [n2b (192 + a); n2b (128 + b)].
Proof.
  intros Ha Hb. unfold EncodeRune. decide_cmp. arith. change (2 ^ 6) with 64.
  rewrite (lor_add 0xC0 _ 5), (lor_add 0x80 _ 6) by (simpl; dm).
  repeat f_equal; dm.
Qed.

Lemma encode3 a b c : a < 16 -> b < 64 -> c < 64 ->
  2048 <= a * 4096 + b * 64 + c ->
  ~ (0xD800 <= a * 4096 + b * 64 + c <= 0xDFFF) ->
  EncodeRune (a * 4096 + b * 64 + c) = [n2b (224 + a); n2b (128 + b); n2b (128 + c)].
Proof.
  intros Ha Hb Hc Hlo Hsur.
  assert (Hs : (0xD800 <=? a * 4096 + b * 64 + c) && (a * 4096 + b * 64 + c <=? 0xDFFF)
               = false).
  { destruct (N.leb_spec 0xD800 (a * 4096 + b * 64 + c)),
             (N.leb_spec (a * 4096 + b * 64 + c) 0xDFFF); try reflexivity; lia. }
  unfold EncodeRune, MaxRune, RuneError. rewrite Hs.
  decide_cmp. arith. change (2 ^ 6) with 64. change (2 ^ 12) with 4096.
  rewrite (lor_add 0xE0 _ 4), !(lor_add 0x80 _ 6) by (simpl; dm).
  repeat f_equal; dm.
Qed.

Lemma encode4 a b c d : a < 8 -> b < 64 -> c < 64 -> d < 64 ->
  65536 <= a * 262144 + b * 4096 + c * 64 + d <= 0x10FFFF ->
  EncodeRune (a * 262144 + b * 4096 + c * 64 + d) =
    [n2b (240 + a); n2b (128 + b); n2b (128 + c); n2b (128 + d)].
Proof.
  intros Ha Hb Hc Hd Hr.
  assert (Hs : (0xD800 <=? a * 262144 + b * 4096 + c * 64 + d) = true ->
               (a * 262144 + b * 4096 + c * 64 + d <=? 0xDFFF) = false).
  { intros _. apply N.leb_gt. lia. }
  unfold EncodeRune, MaxRune, RuneError.
  decide_cmp. arith. change (2 ^ 6) with 64. change (2 ^ 12) with 4096.
  change (2 ^ 18) with 262144.
  rewrite (lor_add 0xF0 _ 3), !(lor_add 0x80 _ 6) by (simpl; dm).
  repeat f_equal; dm.
Qed.

Lemma n2b_add_sub (k : N) (b : byte) : k <= b2n b -> n2b (k + (b2n b - k)) = b.
Proof. intros H. replace (k + (b2n b - k)) with (b2n b) by lia. apply n2b_b2n. Qed.

(** What [DecodeRune] finds at a well-formed multi-byte head: its bytes are
    the encoding of the rune, and nothing after them matters. *)
Lemma DecodeRune_well_formed (p0 : byte) (t : bytes) (r : N) (n : nat) :
  0x80 <= b2n p0 ->
  DecodeRune (p0 :: t) = (r, n) ->
  ill_formed (p0 :: t) = false ->
  (2 <= n <= 4)%nat /\ (n <= length (p0 :: t))%nat /\
  EncodeRune r = take n (p0 :: t) /\
  (forall t', DecodeRune (take n (p0 :: t) ++ t') = (r, n)) /\
  Forall (fun x => 0x80 <= b2n x <= 0xBF) (take (n - 1) t).
Proof.
  intros Hhi Hdec Hill. unfold ill_formed in Hill. rewrite Hdec in Hill.
  unfold DecodeRune in Hdec |- *.
  assert (Hlt : (b2n p0 <? 0x80) = false) by (apply N.ltb_ge; lia).
  rewrite Hlt in Hdec.
  destruct (first (b2n p0)) as [[[sz lo] hi]|] eqn:Hf.
  2: { destruct t; injection Hdec as <- <-; discriminate. }
  pose proof (first_spec _ _ _ _ Hf) as Hrow.
  assert (Hsz : sz = 2%nat \/ sz = 3%nat \/ sz = 4%nat) by (clear -Hrow; intuition auto).
  destruct Hsz as [->|[->| ->]].
  - destruct t as [|b1 t]; [injection Hdec as <- <-; discriminate|].
    destruct (between lo hi b1) eqn:Hb1; [|injection Hdec as <- <-; discriminate].
    injection Hdec as <- <-. apply between_spec in Hb1 as Hr1.
    assert (H0 : 0xC2 <= b2n p0 <= 0xDF /\ 0x80 <= b2n b1 <= 0xBF)
      by (clear -Hrow Hr1; intuition (try discriminate; subst; lia)).
    destruct H0 as [H0 H1].
    split; [lia|]. split; [simpl; lia|]. split.
    + rewrite rune2 by assumption. rewrite encode2 by lia.
      cbn [take]. rewrite !n2b_add_sub by lia. reflexivity.
    + split; [intros t'; cbn [take app]; rewrite Hlt, Hf, Hb1; reflexivity|].
      cbn [Nat.sub take]. repeat constructor; lia.
  - destruct t as [|b1 [|b2 t]]; try (injection Hdec as <- <-; discriminate).
    destruct (between lo hi b1) eqn:Hb1; [|injection Hdec as <- <-; discriminate].
    destruct (cont b2) eqn:Hb2; [|injection Hdec as <- <-; discriminate].
    cbn [andb] in Hdec. injection Hdec as <- <-.
    apply between_spec in Hb1 as Hr1. apply between_spec in Hb2 as Hr2.
    split; [lia|]. split; [simpl; lia|]. split.
    + rewrite rune3
        by (clear -Hrow Hr1 Hr2; intuition (try discriminate; subst; lia)).
      rewrite encode3
        by (clear -Hrow Hr1 Hr2; intuition (try discriminate; subst; lia)).
      cbn [take]. rewrite !n2b_add_sub
        by (clear -Hrow Hr1 Hr2; intuition (try discriminate; subst; lia)).
      reflexivity.
    + split; [intros t'; cbn [take app]; rewrite Hlt, Hf, Hb1, Hb2; reflexivity|].
      cbn [Nat.sub take]. repeat constructor;
        clear -Hrow Hr1 Hr2; intuition (try discriminate; subst; lia).
  - destruct t as [|b1 [|b2 [|b3 t]]]; try (injection Hdec as <- <-; discriminate).
    destruct (between lo hi b1) eqn:Hb1; [|injection Hdec as <- <-; discriminate].
    destruct (cont b2) eqn:Hb2; [|injection Hdec as <- <-; discriminate].
    destruct (cont b3) eqn:Hb3; [|injection Hdec as <- <-; discriminate].
    cbn [andb] in Hdec. injection Hdec as <- <-.
    apply between_spec in Hb1 as Hr1. apply between_spec in Hb2 as Hr2.
    apply between_spec in Hb3 as Hr3.
    split; [lia|]. split; [simpl; lia|]. split.
    + rewrite rune4
        by (clear -Hrow Hr1 Hr2 Hr3; intuition (try discriminate; subst; lia)).
      rewrite encode4
        by (clear -Hrow Hr1 Hr2 Hr3; intuition (try discriminate; subst; lia)).
      cbn [take]. rewrite !n2b_add_sub
        by (clear -Hrow Hr1 Hr2 Hr3; intuition (try discriminate; subst; lia)).
      reflexivity.
    + split; [intros t'; cbn [take app]; rewrite Hlt, Hf, Hb1, Hb2, Hb3; reflexivity|].
      cbn [Nat.sub take]. repeat constructor;
        clear -Hrow Hr1 Hr2 Hr3; intuition (try discriminate; subst; lia).
Qed.

End Utf8Facts.

Module JsonStringFacts.
Import Utf8 Utf8Facts Json.
Local Open Scope N_scope.

Lemma unquote_plain (b : byte) (f : nat) (t : bytes) :
  htmlSafe b = true ->
  unquote_go (S f) (b :: t) = continue [b] (unquote_go f t).
Proof. destruct b; intros H; try discriminate H; reflexivity. Qed.

Lemma unquote_escape (b : byte) (f : nat) (t : bytes) :
  (b2n b <? 0x80) = true -> htmlSafe b = false ->
  unquote_go (S f) (escape b ++ t) = continue [b] (unquote_go f t).
Proof. destruct b; intros H1 H2; try discriminate H1; try discriminate H2; reflexivity. Qed.

Lemma unquote_high (b : byte) (f : nat) (t : bytes) :
  (b2n b <? 0x80) = false ->
  unquote_go (S f) (b :: t) =
    continue (EncodeRune (fst (DecodeRune (b :: t))))
             (unquote_go f (drop (snd (DecodeRune (b :: t))) (b :: t))).
Proof.
  destruct b; intros H; try discriminate H;
    cbn [unquote_go]; destruct (DecodeRune _) as [rr size]; reflexivity.
Qed.

Lemma length_escape (b : byte) : (2 <= length (escape b))%nat.
Proof. destruct b; simpl; lia. Qed.

Lemma unquote_u2028 (f : nat) (t : bytes) :
  unquote_go (S f) (x5c :: x75 :: x32 :: x30 :: x32 :: x38 :: t) =
    continue [xe2; x80; xa8] (unquote_go f t).
Proof. reflexivity. Qed.

Lemma unquote_u2029 (f : nat) (t : bytes) :
  unquote_go (S f) (x5c :: x75 :: x32 :: x30 :: x32 :: x39 :: t) =
    continue [xe2; x80; xa9] (unquote_go f t).
Proof. reflexivity. Qed.

Lemma DecodeRune_ascii (b : byte) (t : bytes) :
  (b2n b <? 0x80) = true -> DecodeRune (b :: t) = (b2n b, 1%nat).
Proof. intros H. unfold DecodeRune. rewrite H. reflexivity. Qed.

Lemma length_continue out r t rest :
  continue out r = Some (t, rest) -> exists u, r = Some (u, rest) /\ t = out ++ u.
Proof. destruct r as [[u r']|]; simpl; intros H; inversion H; eauto. Qed.

(** Reading back what [appendString] wrote for well-formed UTF-8 gives the
    bytes it was given. *)
Lemma unquote_appendString (fuel : nat) :
  forall (s rest : bytes) (f' : nat),
    Valid_go fuel s = true ->
    (length s <= fuel)%nat ->
    (length (appendString_go fuel s) < f')%nat ->
    unquote_go f' (appendString_go fuel s ++ x22 :: rest) = Some (s, rest).
Proof.
  induction fuel as [|fuel IH]; intros s rest f' Hv Hlen Hf.
  - destruct s; [|simpl in Hlen; lia]. destruct f'; [simpl in Hf; lia|]. reflexivity.
  - destruct s as [|b s].
    { destruct f'; [simpl in Hf; lia|]. reflexivity. }
    cbn [Valid_go] in Hv. apply andb_true_iff in Hv as [Hill Hv].
    apply negb_true_iff in Hill.
    cbn [appendString_go] in Hf |- *.
    destruct (b2n b <? 0x80) eqn:Hb.
    + rewrite (DecodeRune_ascii b s Hb) in Hv. cbn [snd drop] in Hv.
      rewrite length_app in Hf. rewrite <- app_assoc.
      destruct f' as [|f']; [lia|].
      destruct (htmlSafe b) eqn:Hs.
      * cbn [app]. rewrite unquote_plain by exact Hs.
        rewrite IH; [reflexivity | exact Hv | simpl in Hlen; lia | simpl in Hf; lia].
      * rewrite unquote_escape by assumption. pose proof (length_escape b).
        rewrite IH; [reflexivity | exact Hv | simpl in Hlen; lia | lia].
    + destruct (DecodeRune (b :: s)) as [c size] eqn:Hd.
      apply N.ltb_ge in Hb.
      destruct (DecodeRune_well_formed b s c size Hb Hd Hill) as (Hsz & Hle & Henc & Htail & _).
      unfold ill_formed in Hill. rewrite Hd in Hill. rewrite Hill in Hf |- *.
      cbn [snd] in Hv.
      assert (Hsplit : b :: s = take size (b :: s) ++ drop size (b :: s))
        by (symmetry; apply take_drop).
      assert (Hdl : (length (drop size (b :: s)) <= fuel)%nat)
        by (rewrite length_drop; simpl in Hlen |- *; lia).
      destruct ((c =? 0x2028) || (c =? 0x2029)) eqn:Hsep.
      * rewrite length_app in Hf. cbn [length] in Hf. rewrite <- app_assoc.
        destruct f' as [|f']; [lia|].
        apply orb_true_iff in Hsep as [Hc|Hc]; apply N.eqb_eq in Hc; subst c.
        -- change (hex (N.land 0x2028 0xF)) with x38. cbn [app].
           rewrite unquote_u2028, IH by (first [exact Hv | exact Hdl | lia]).
           cbn [continue]. change [xe2; x80; xa8] with (EncodeRune 0x2028).
           rewrite Henc, take_drop. reflexivity.
        -- change (hex (N.land 0x2029 0xF)) with x39. cbn [app].
           rewrite unquote_u2029, IH by (first [exact Hv | exact Hdl | lia]).
           cbn [continue]. change [xe2; x80; xa9] with (EncodeRune 0x2029).
           rewrite Henc, take_drop. reflexivity.
      * rewrite length_app in Hf. rewrite <- app_assoc.
        assert (Htl : (length (take size (b :: s)) = size)%nat)
          by (rewrite length_take; lia).
        rewrite Htl in Hf.
        destruct f' as [|f']; [lia|].
        assert (Hhd : exists b' t', take size (b :: s) = b' :: t' /\ b' = b).
        { destruct size; [lia|]. cbn [take]. eauto. }
        destruct Hhd as (b' & t' & Htk & ->).
        rewrite Htk. cbn [app]. rewrite unquote_high by (apply N.ltb_ge; exact Hb).
        change (b :: t' ++ ?x) with ((b :: t') ++ x). rewrite <- Htk.
        rewrite Htail. cbn [fst snd].
        rewrite drop_app_length' by (symmetry; exact Htl).
        rewrite IH by (first [exact Hv | exact Hdl | lia]).
        cbn [continue]. rewrite Henc, take_drop. reflexivity.
Qed.

End JsonStringFacts.

Module CompactFacts.
Import Utf8 Utf8Facts Json JsonStringFacts.
Local Open Scope N_scope.


Lemma compact_go_plain (c : byte) (rest : bytes) (i e : bool) :
  special c = false ->
  compact_go i e (c :: rest) =
    if i then
      c :: compact_go (negb (negb e && (b2n c =? 0x22))) (negb e && (b2n c =? 0x5C)) rest
    else if isSpace c then compact_go false false rest
    else c :: compact_go (b2n c =? 0x22) false rest.
Proof.
  unfold special. intros [H1 H2]%orb_false_iff. cbn [compact_go]. rewrite H1.
  destruct rest as [|b1 [|b2 r]]; rewrite ?H2; reflexivity.
Qed.

Lemma compact_inert (c : byte) (t : bytes) :
  inert c = true -> compact_go true false (c :: t) = c :: compact_go true false t.
Proof.
  unfold inert. intros [[H1 H2]%andb_true_iff H3]%andb_true_iff.
  apply negb_true_iff in H1, H2, H3.
  rewrite compact_go_plain by exact H1. rewrite H2, H3. reflexivity.
Qed.

Lemma compact_inert_list (l t : bytes) :
  forallb inert l = true -> compact_go true false (l ++ t) = l ++ compact_go true false t.
Proof.
  induction l as [|c l IH]; [reflexivity|]. cbn [forallb app].
  intros [Hc Hl]%andb_true_iff. rewrite compact_inert by exact Hc. rewrite IH by exact Hl.
  reflexivity.
Qed.

Lemma compact_escaped (c : byte) (t : bytes) :
  special c = false -> compact_go true true (c :: t) = c :: compact_go true false t.
Proof. intros H. rewrite compact_go_plain by exact H. reflexivity. Qed.

Lemma compact_backslash (t : bytes) :
  compact_go true false (x5c :: t) = x5c :: compact_go true true t.
Proof. rewrite compact_go_plain by reflexivity. reflexivity. Qed.

Lemma compact_structural (c : byte) (t : bytes) :
  structural c = true -> compact_go false false (c :: t) = c :: compact_go false false t.
Proof.
  unfold structural. intros [[H1 H2]%andb_true_iff H3]%andb_true_iff.
  apply negb_true_iff in H1, H2, H3.
  rewrite compact_go_plain by exact H1. rewrite H2, H3. reflexivity.
Qed.

Lemma compact_open_quote (t : bytes) :
  compact_go false false (x22 :: t) = x22 :: compact_go true false t.
Proof. rewrite compact_go_plain by reflexivity. reflexivity. Qed.

Lemma compact_close_quote (t : bytes) :
  compact_go true false (x22 :: t) = x22 :: compact_go false false t.
Proof. rewrite compact_go_plain by reflexivity. reflexivity. Qed.

Lemma htmlSafe_inert (b : byte) : htmlSafe b = true -> inert b = true.
Proof. destruct b; intros H; try discriminate H; reflexivity. Qed.

Lemma compact_escape (b : byte) (t : bytes) :
  (b2n b <? 0x80) = true -> htmlSafe b = false ->
  compact_go true false (escape b ++ t) = escape b ++ compact_go true false t.
Proof.
  destruct b; intros H1 H2; try discriminate H1; try discriminate H2;
    cbn [escape u00 app]; rewrite compact_backslash;
    rewrite compact_escaped by reflexivity;
    rewrite ?compact_inert by reflexivity; reflexivity.
Qed.

Lemma continuation_inert (l : bytes) :
  Forall (fun x => 0x80 <= b2n x <= 0xBF) l -> forallb inert l = true.
Proof.
  induction 1 as [|x l Hx _ IH]; [reflexivity|]. cbn [forallb]. rewrite IH, andb_true_r.
  unfold inert, special. cbn [existsb].
  repeat match goal with
  | |- context [?a =? ?b] => rewrite (proj2 (N.eqb_neq a b)) by lia
  end. reflexivity.
Qed.

(** A well-formed sequence other than U+2028 and U+2029 is copied. *)
Lemma compact_rune (b : byte) (s t : bytes) (c : N) (size : nat) :
  0x80 <= b2n b -> DecodeRune (b :: s) = (c, size) -> ill_formed (b :: s) = false ->
  (c =? 0x2028) || (c =? 0x2029) = false ->
  compact_go true false (take size (b :: s) ++ t) =
    take size (b :: s) ++ compact_go true false t.
Proof.
  intros Hb Hd Hill Hsep.
  destruct (DecodeRune_well_formed b s c size Hb Hd Hill) as (Hsz & Hle & _ & Htail & Hcont).
  apply continuation_inert in Hcont.
  destruct size as [|n]; [lia|]. cbn [take app]. cbn [Nat.sub] in Hcont.
  replace (n - 0)%nat with n in Hcont by lia.
  destruct (b2n b =? 0xE2) eqn:HE2.
  - apply N.eqb_eq in HE2. assert (b = xe2) by (apply b2n_inj; exact HE2). subst b.
    cbn [compact_go existsb b2n Byte.to_N N.eqb Pos.eqb orb].
    destruct (take n s ++ t) as [|b1 [|b2 r]] eqn:Hr;
      try (rewrite <- Hr, compact_inert_list by exact Hcont; reflexivity).
    destruct ((b2n b1 =? 0x80) && (N.land (b2n b2) 0xFE =? 0xA8)) eqn:Hs.
    + exfalso. apply andb_true_iff in Hs as [H1 H2]. apply N.eqb_eq in H1, H2.
      assert (b1 = x80) by (apply b2n_inj; exact H1). subst b1.
      assert (Hdec : DecodeRune (xe2 :: x80 :: b2 :: r) = (c, S n)).
      { rewrite <- Hr. apply (Htail t). }
      apply orb_false_iff in Hsep as [Hs1 Hs2]. apply N.eqb_neq in Hs1, Hs2.
      clear -Hdec H2 Hs1 Hs2. destruct b2; try discriminate H2;
        cbv in Hdec; injection Hdec as <- _; congruence.
    + cbn [andb] in Hs |- *. change (226 =? 226) with true. cbn [andb].
      rewrite Hs. rewrite <- Hr, compact_inert_list by exact Hcont. reflexivity.
  - rewrite compact_inert, compact_inert_list by
      (first [exact Hcont | unfold inert, special; cbn [existsb]; rewrite HE2;
        repeat match goal with
        | |- context [?a =? ?b] => rewrite (proj2 (N.eqb_neq a b)) by lia
        end; reflexivity]).
    reflexivity.
Qed.

Lemma ill_formed_size (p : bytes) (c : N) (size : nat) :
  DecodeRune p = (c, size) -> ill_formed p = true -> size = 1%nat.
Proof.
  unfold ill_formed. intros ->. intros [_ H]%andb_true_iff. apply Nat.eqb_eq, H.
Qed.

(** [Compact] copies what [appendString] wrote. *)
Lemma compact_appendString_go (fuel : nat) :
  forall (s t : bytes),
    compact_go true false (appendString_go fuel s ++ x22 :: t) =
      appendString_go fuel s ++ x22 :: compact_go false false t.
Proof.
  induction fuel as [|fuel IH]; intros s t.
  - apply compact_close_quote.
  - destruct s as [|b s]; [apply compact_close_quote|].
    cbn [appendString_go]. destruct (b2n b <? 0x80) eqn:Hb.
    + rewrite <- !app_assoc. destruct (htmlSafe b) eqn:Hs.
      * cbn [app]. rewrite compact_inert by (apply htmlSafe_inert, Hs).
        rewrite IH. reflexivity.
      * rewrite compact_escape by assumption. rewrite IH. reflexivity.
    + destruct (DecodeRune (b :: s)) as [c size] eqn:Hd.
      destruct ((c =? RuneError) && (size =? 1)%nat) eqn:Hill.
      * rewrite <- !app_assoc. cbn [app].
        rewrite compact_backslash, compact_escaped by reflexivity.
        rewrite !compact_inert by reflexivity. rewrite IH. reflexivity.
      * destruct ((c =? 0x2028) || (c =? 0x2029)) eqn:Hsep.
        -- rewrite <- !app_assoc. cbn [app].
           rewrite compact_backslash, compact_escaped by reflexivity.
           apply orb_true_iff in Hsep as [Hc|Hc]; apply N.eqb_eq in Hc; subst c;
             rewrite !compact_inert by reflexivity; rewrite IH; reflexivity.
        -- rewrite <- !app_assoc.
           rewrite (compact_rune b s _ c size); try assumption.
           ++ rewrite IH. reflexivity.
           ++ apply N.ltb_ge, Hb.
           ++ unfold ill_formed. rewrite Hd. exact Hill.
Qed.

Lemma compact_appendString (s t : bytes) :
  compact_go false false (appendString s ++ t) = appendString s ++ compact_go false false t.
Proof.
  unfold appendString. rewrite <- !app_assoc. cbn [app].
  rewrite compact_open_quote, compact_appendString_go. reflexivity.
Qed.

End CompactFacts.

Module StrconvFacts.
Import Utf8 Utf8Facts Strconv Json.
Local Open Scope N_scope.

Lemma b2n_n2b (n : N) : n <= 255 -> b2n (n2b n) = n.
Proof.
  intros H. unfold n2b, b2n. rewrite N.mod_small by lia.
  destruct (Byte.of_N n) as [b|] eqn:Hb.
  - apply Byte.to_of_N in Hb. exact Hb.
  - pose proof (Byte.to_of_N_option_map n) as Hm. rewrite Hb in Hm. simpl in Hm.
    destruct (N.leb_spec n 255); [discriminate | lia].
Qed.

Lemma b2n_digit (n : N) : b2n (digit n) = 48 + n mod 10.
Proof. unfold digit. apply b2n_n2b. dm. Qed.

Lemma is_digit_spec (b : byte) : is_digit b = true <-> 48 <= b2n b <= 57.
Proof. apply between_spec. Qed.

Lemma is_digit_digit (n : N) : is_digit (digit n) = true.
Proof. apply is_digit_spec. rewrite b2n_digit. dm. Qed.

Lemma format_go_acc (fuel : nat) :
  forall n acc, format_go fuel n acc = format_go fuel n [] ++ acc.
Proof.
  induction fuel as [|fuel IH]; intros n acc; [reflexivity|].
  cbn [format_go]. destruct (n <? 10); [reflexivity|].
  rewrite (IH _ (digit n :: acc)), (IH _ [digit n]), <- app_assoc. reflexivity.
Qed.

Lemma digits_value_app (l1 l2 : bytes) :
  forall acc, digits_value acc (l1 ++ l2) =
    match digits_value acc l1 with
    | Some v => digits_value v l2
    | None => None
    end.
Proof.
  induction l1 as [|c l1 IH]; intros acc; [reflexivity|].
  cbn [app digits_value]. destruct (is_digit c); [apply IH | reflexivity].
Qed.

Lemma log2_div10 (n : N) : 10 <= n -> N.log2 (n / 10) < N.log2 n.
Proof.
  intros H.
  assert (Hle : n / 10 <= N.div2 n) by (rewrite N.div2_div; dm).
  apply N.log2_le_mono in Hle.
  assert (Hd : N.log2 (N.div2 n) = N.log2 n - 1).
  { rewrite N.div2_spec. apply N.log2_shiftr. }
  assert (0 < N.log2 n) by (apply N.log2_pos; lia). lia.
Qed.

(** The digits of [n]: a non-empty run of digits whose value is [n], with
    no leading zero unless [n] is zero, and no longer than [n] needs. *)
Lemma format_go_spec (fuel : nat) :
  forall n, (N.to_nat (N.log2 n) < fuel)%nat ->
    let l := format_go fuel n [] in
    forallb is_digit l = true /\
    digits_value 0 l = Some n /\
    (exists d l', l = d :: l' /\ (d = x30 -> n = 0 /\ l' = [])) /\
    (forall w : nat, n < 10 ^ N.of_nat w -> (0 < w)%nat -> (length l <= w)%nat).
Proof.
  induction fuel as [|fuel IH]; intros n Hfuel; [lia|].
  cbn [format_go]. destruct (N.ltb_spec n 10) as [Hn|Hn].
  - cbn zeta. cbn [forallb digits_value]. rewrite is_digit_digit, b2n_digit.
    split; [reflexivity|]. split; [f_equal; dm|]. split.
    + exists (digit n), []. split; [reflexivity|]. intros Hd.
      assert (Hb : b2n (digit n) = 48) by (rewrite Hd; reflexivity).
      rewrite b2n_digit in Hb. split; [dm | reflexivity].
    + intros w _ Hw. simpl. lia.
  - rewrite format_go_acc. cbn zeta.
    assert (Hf : (N.to_nat (N.log2 (n / 10)) < fuel)%nat)
      by (pose proof (log2_div10 n Hn); lia).
    destruct (IH _ Hf) as (Hall & Hval & (d & l' & Hl & Hz) & Hlen).
    split; [|split; [|split]].
    + rewrite forallb_app, Hall. cbn [forallb]. rewrite is_digit_digit. reflexivity.
    + rewrite digits_value_app, Hval. cbn [digits_value].
      rewrite is_digit_digit, b2n_digit. f_equal. dm.
    + exists d, (l' ++ [digit n]). rewrite Hl. split; [reflexivity|].
      intros Hd. destruct (Hz Hd) as [H0 _]. exfalso. dm.
    + intros w Hw Hpos. rewrite length_app. cbn [length].
      destruct w as [|[|w]]; [lia| simpl in Hw; lia |].
      assert (n / 10 < 10 ^ N.of_nat (S w)).
      { replace (N.of_nat (S (S w))) with (N.succ (N.of_nat (S w))) in Hw by lia.
        rewrite N.pow_succ_r' in Hw. dm. }
      specialize (Hlen (S w) ltac:(assumption) ltac:(lia)). lia.
Qed.

Lemma FormatUint_spec (n : N) :
  forallb is_digit (FormatUint n) = true /\
  digits_value 0 (FormatUint n) = Some n /\
  (exists d l', FormatUint n = d :: l' /\ (d = x30 -> n = 0 /\ l' = [])) /\
  (forall w : nat, n < 10 ^ N.of_nat w -> (0 < w)%nat -> (length (FormatUint n) <= w)%nat).
Proof. apply format_go_spec. lia. Qed.

Lemma span_digits_app (l rest : bytes) :
  forallb is_digit l = true ->
  match rest with [] => True | c :: _ => is_digit c = false end ->
  span_digits (l ++ rest) = (l, rest).
Proof.
  intros Hl Hrest. induction l as [|c l IH].
  - destruct rest as [|c rest]; [reflexivity|]. cbn [app span_digits]. rewrite Hrest.
    reflexivity.
  - cbn [forallb] in Hl. apply andb_true_iff in Hl as [Hc Hl].
    cbn [app span_digits]. rewrite Hc, (IH Hl). reflexivity.
Qed.


Lemma closes_not_digit (rest : bytes) :
  closes rest -> match rest with [] => True | c :: _ => is_digit c = false end.
Proof. destruct rest as [|c rest]; [trivial|]. intros [->| ->]; reflexivity. Qed.

Lemma scan_frac_closes (rest : bytes) : closes rest -> scan_frac rest = Some ([], rest).
Proof. destruct rest as [|c rest]; [reflexivity|]. intros [->| ->]; reflexivity. Qed.

Lemma scan_exp_closes (rest : bytes) : closes rest -> scan_exp rest = Some ([], rest).
Proof. destruct rest as [|c rest]; [reflexivity|]. intros [->| ->]; reflexivity. Qed.

Lemma scan_int_digits (d : byte) (l rest : bytes) :
  is_digit d = true -> (d = x30 -> l = []) -> forallb is_digit l = true ->
  closes rest ->
  scan_int ((d :: l) ++ rest) = Some (d :: l, rest).
Proof.
  intros Hd Hz Hl Hrest. apply closes_not_digit in Hrest.
  destruct d; try discriminate Hd;
    try (rewrite (Hz eq_refl); reflexivity);
    cbn [app scan_int is_digit]; cbn [between b2n Byte.to_N N.leb N.compare Pos.compare
                                      Pos.compare_cont andb];
    rewrite (span_digits_app l rest Hl Hrest); reflexivity.
Qed.

Lemma scan_sign_digit (d : byte) (l : bytes) :
  is_digit d = true -> scan_sign (d :: l) = ([], d :: l).
Proof. destruct d; intros H; try discriminate H; reflexivity. Qed.

Lemma scan_number_FormatInt (i : Z) (rest : bytes) :
  closes rest -> scan_number (FormatInt i ++ rest) = Some (FormatInt i, rest).
Proof.
  intros Hrest. unfold FormatInt, scan_number.
  destruct (Z.ltb_spec i 0) as [Hi|Hi].
  - destruct (FormatUint_spec (Z.to_N (- i))) as (Hall & _ & (d & l & Hl & Hz) & _).
    rewrite Hl in Hall |- *. cbn [forallb] in Hall. apply andb_true_iff in Hall as [Hd Hall].
    cbn [app scan_sign]. change (d :: l ++ rest) with ((d :: l) ++ rest).
    rewrite scan_int_digits by (first [assumption | intros E; apply Hz, E]).
    rewrite scan_frac_closes, scan_exp_closes by exact Hrest.
    rewrite !app_nil_r. reflexivity.
  - destruct (FormatUint_spec (Z.to_N i)) as (Hall & _ & (d & l & Hl & Hz) & _).
    rewrite Hl in Hall |- *. cbn [forallb] in Hall. apply andb_true_iff in Hall as [Hd Hall].
    cbn [app]. rewrite scan_sign_digit by exact Hd.
    change (d :: l ++ rest) with ((d :: l) ++ rest).
    rewrite scan_int_digits by (first [assumption | intros E; apply Hz, E]).
    rewrite scan_frac_closes, scan_exp_closes by exact Hrest.
    rewrite !app_nil_r. reflexivity.
Qed.

Lemma ParseInt_unsigned (d : byte) (l : bytes) :
  is_digit d = true ->
  ParseInt (d :: l) =
    match digits_value 0 (d :: l) with
    | None => None
    | Some n =>
        if ((- 2 ^ 63 <=? Z.of_N n) && (Z.of_N n <=? 2 ^ 63 - 1))%Z then Some (Z.of_N n)
        else None
    end.
Proof. destruct d; intros H; try discriminate H; reflexivity. Qed.

Lemma ParseInt_FormatInt (i : Z) :
  (- 2 ^ 63 <= i <= 2 ^ 63 - 1)%Z -> ParseInt (FormatInt i) = Some i.
Proof.
  intros Hi. unfold FormatInt. destruct (Z.ltb_spec i 0) as [Hn|Hn].
  - destruct (FormatUint_spec (Z.to_N (- i))) as (Hall & Hval & (d & l & Hl & _) & _).
    unfold ParseInt. rewrite Hl in Hval |- *. rewrite Hval.
    replace (- Z.of_N (Z.to_N (- i)))%Z with i by lia.
    destruct (Z.leb_spec (- 2 ^ 63) i), (Z.leb_spec i (2 ^ 63 - 1)); try lia. reflexivity.
  - destruct (FormatUint_spec (Z.to_N i)) as (Hall & Hval & (d & l & Hl & _) & _).
    rewrite Hl in Hall, Hval |- *. cbn [forallb] in Hall.
    apply andb_true_iff in Hall as [Hd _].
    rewrite ParseInt_unsigned by exact Hd. rewrite Hval.
    replace (Z.of_N (Z.to_N i)) with i by lia.
    destruct (Z.leb_spec (- 2 ^ 63) i), (Z.leb_spec i (2 ^ 63 - 1)); try lia. reflexivity.
Qed.

End StrconvFacts.

Module TimeFacts.
Import Utf8 Utf8Facts Strconv StrconvFacts Json JsonStringFacts CompactFacts GoTime.
Local Open Scope N_scope.

Lemma digits_value_zeros (k : nat) (l : bytes) :
  digits_value 0 (repeat x30 k ++ l) = digits_value 0 l.
Proof. induction k as [|k IH]; [reflexivity|]. cbn [repeat app digits_value]. exact IH. Qed.

Lemma forallb_repeat {A} (p : A -> bool) (x : A) (k : nat) :
  p x = true -> forallb p (repeat x k) = true.
Proof. intros H. induction k; [reflexivity|]. cbn. rewrite H. exact IHk. Qed.

(** A field of fixed width: exactly [w] digits, of value [n]. *)
Lemma pad_spec (w : nat) (n : N) :
  n < 10 ^ N.of_nat w -> (0 < w)%nat ->
  length (pad w (FormatUint n)) = w /\
  forallb is_digit (pad w (FormatUint n)) = true /\
  digits_value 0 (pad w (FormatUint n)) = Some n.
Proof.
  intros Hn Hw. destruct (FormatUint_spec n) as (Hall & Hval & _ & Hlen).
  specialize (Hlen w Hn Hw). unfold pad. split; [|split].
  - rewrite length_app, repeat_length. lia.
  - rewrite forallb_app, Hall, forallb_repeat by reflexivity. reflexivity.
  - rewrite digits_value_zeros. exact Hval.
Qed.

Lemma appendInt_nonneg (x : N) (w : nat) :
  appendInt (Z.of_N x) w = pad w (FormatUint x).
Proof.
  unfold appendInt. destruct (Z.ltb_spec (Z.of_N x) 0); [lia|].
  rewrite N2Z.id. reflexivity.
Qed.

Lemma parseUint_digits (l : bytes) (n lo hi : N) :
  digits_value 0 l = Some n -> lo <= n <= hi -> parseUint l lo hi = Some n.
Proof.
  intros Hv Hr. unfold parseUint. rewrite Hv.
  destruct (N.leb_spec lo n), (N.leb_spec n hi); try lia. reflexivity.
Qed.

Lemma is_digit_htmlSafe (b : byte) : is_digit b = true -> htmlSafe b = true.
Proof. destruct b; intros H; try discriminate H; reflexivity. Qed.

Lemma digits_htmlSafe (l : bytes) : forallb is_digit l = true -> forallb htmlSafe l = true.
Proof.
  induction l as [|c l IH]; [reflexivity|]. cbn [forallb].
  intros [Hc Hl]%andb_true_iff. rewrite (is_digit_htmlSafe c Hc), (IH Hl). reflexivity.
Qed.

Lemma drop_zeros_digits (l : bytes) :
  forallb is_digit l = true -> forallb is_digit (drop_zeros l) = true.
Proof.
  induction l as [|c l IH]; [reflexivity|]. intros H. pose proof H as H'.
  cbn [forallb] in H. apply andb_true_iff in H as [Hc Hl].
  destruct c; try discriminate Hc; try exact H'. cbn [drop_zeros]. apply IH, Hl.
Qed.

Lemma drop_zeros_nil (l : bytes) :
  forallb is_digit l = true -> drop_zeros l = [] -> digits_value 0 (rev l) = Some 0.
Proof.
  induction l as [|c l IH]; [reflexivity|]. intros H Hz.
  cbn [forallb] in H. apply andb_true_iff in H as [Hc Hl].
  destruct c; try discriminate Hc; try discriminate Hz. cbn [drop_zeros] in Hz.
  cbn [rev]. rewrite digits_value_app, (IH Hl Hz). reflexivity.
Qed.

Lemma skip_digits_app (l rest : bytes) :
  forallb is_digit l = true ->
  match rest with [] => True | c :: _ => is_digit c = false end ->
  skip_digits (l ++ rest) = rest.
Proof.
  intros Hl Hrest. induction l as [|c l IH].
  - destruct rest as [|c rest]; [reflexivity|]. cbn [app skip_digits]. rewrite Hrest.
    reflexivity.
  - cbn [forallb] in Hl. apply andb_true_iff in Hl as [Hc Hl].
    cbn [app skip_digits]. rewrite Hc. apply IH, Hl.
Qed.

(** The fraction [appendNano] writes: digits after a dot, or nothing. *)
Lemma appendNano_spec (n : N) :
  n <= 999999999 ->
  forallb htmlSafe (appendNano n) = true /\ parse_zone (appendNano n ++ [x5a]) = true.
Proof.
  intros Hn. unfold appendNano. destruct (N.eqb_spec n 0) as [->|Hnz]; [split; reflexivity|].
  rewrite appendInt_nonneg.
  destruct (pad_spec 9 n) as (Hlen & Hall & Hval); [simpl; lia | lia |].
  set (ds := pad 9 (FormatUint n)) in *.
  assert (Hrev : forallb is_digit (rev ds) = true).
  { rewrite forallb_forall in Hall |- *. intros x Hx. apply Hall, in_rev, Hx. }
  pose proof (drop_zeros_digits _ Hrev) as Htrim.
  assert (Hne : drop_zeros (rev ds) <> []).
  { intros Hz. pose proof (drop_zeros_nil _ Hrev Hz) as H0.
    rewrite rev_involutive, Hval in H0. injection H0 as H0. lia. }
  assert (Hall' : forallb is_digit (rev (drop_zeros (rev ds))) = true).
  { rewrite forallb_forall in Htrim |- *. intros x Hx. apply Htrim, in_rev, Hx. }
  split.
  - cbn [forallb]. rewrite digits_htmlSafe by exact Hall'. reflexivity.
  - destruct (rev (drop_zeros (rev ds))) as [|d l] eqn:Hl.
    { exfalso. apply Hne. apply (f_equal (@rev byte)) in Hl.
      rewrite rev_involutive in Hl. exact Hl. }
    cbn [forallb] in Hall'. apply andb_true_iff in Hall' as [Hd Hl'].
    cbn [app]. unfold parse_zone. rewrite Hd.
    rewrite (skip_digits_app l [x5a] Hl') by reflexivity. reflexivity.
Qed.

Lemma list_of_length_2 (l : bytes) :
  length l = 2%nat -> exists a b, l = [a; b].
Proof. destruct l as [|a [|b [|]]]; try discriminate. eauto. Qed.

Lemma list_of_length_4 (l : bytes) :
  length l = 4%nat -> exists a b c d, l = [a; b; c; d].
Proof. destruct l as [|a [|b [|c [|d [|]]]]]; try discriminate. eauto 6. Qed.

(** A field of two digits. *)
Lemma field2 (n : N) :
  n <= 99 ->
  exists a b, appendInt (Z.of_N n) 2 = [a; b] /\
    htmlSafe a = true /\ htmlSafe b = true /\
    forall lo hi, lo <= n <= hi -> parseUint [a; b] lo hi = Some n.
Proof.
  intros Hn. rewrite appendInt_nonneg.
  destruct (pad_spec 2 n) as (Hlen & Hall & Hval); [simpl; lia | lia |].
  destruct (list_of_length_2 _ Hlen) as (a & b & Hl). rewrite Hl in *.
  exists a, b. cbn [forallb] in Hall.
  apply andb_true_iff in Hall as [Ha [Hb _]%andb_true_iff].
  repeat split; try (apply is_digit_htmlSafe; assumption).
  intros lo hi Hr. apply parseUint_digits; assumption.
Qed.

Lemma field4 (n : N) :
  n <= 9999 ->
  exists a b c d, appendInt (Z.of_N n) 4 = [a; b; c; d] /\
    forallb htmlSafe [a; b; c; d] = true /\
    parseUint [a; b; c; d] 0 9999 = Some n.
Proof.
  intros Hn. rewrite appendInt_nonneg.
  destruct (pad_spec 4 n) as (Hlen & Hall & Hval); [simpl; lia | lia |].
  destruct (list_of_length_4 _ Hlen) as (a & b & c & d & Hl). rewrite Hl in *.
  exists a, b, c, d. split; [reflexivity|]. split; [apply digits_htmlSafe, Hall|].
  apply parseUint_digits; [assumption | lia].
Qed.

Lemma daysIn_le (m y : N) : daysIn m y <= 31.
Proof.
  unfold daysIn. repeat match goal with |- context [if ?c then _ else _] => destruct c end; lia.
Qed.

(** [MarshalJSON] of an instant of the years 0 to 9999 gives a quoted text
    of bytes that need no escape, which [parseRFC3339] accepts. *)
Lemma MarshalJSON_spec (x : GoTime.t) :
  wf x -> (0 <= year x <= 9999)%Z ->
  exists b, MarshalJSON x = Some ([x22] ++ b ++ [x22]) /\
            forallb htmlSafe b = true /\ parseRFC3339 b = true.
Proof.
  intros (Hmo & Hd & Hh & Hmi & Hs & Hns) Hy.
  pose proof (daysIn_le (month x) (Z.to_N (year x))) as Hdays.
  exists (appendFormatRFC3339 x). unfold MarshalJSON, appendFormatRFC3339.
  replace (appendInt (year x) 4) with (appendInt (Z.of_N (Z.to_N (year x))) 4)
    by (rewrite Z2N.id by lia; reflexivity).
  destruct (field4 (Z.to_N (year x))) as (y1 & y2 & y3 & y4 & -> & Hys & Hyv); [lia|].
  destruct (field2 (month x)) as (m1 & m2 & -> & Hm1 & Hm2 & Hmv); [lia|].
  destruct (field2 (day x)) as (d1 & d2 & -> & Hd1 & Hd2 & Hdv); [lia|].
  destruct (field2 (hour x)) as (h1 & h2 & -> & Hh1 & Hh2 & Hhv); [lia|].
  destruct (field2 (minute x)) as (i1 & i2 & -> & Hi1 & Hi2 & Hiv); [lia|].
  destruct (field2 (second x)) as (s1 & s2 & -> & Hs1 & Hs2 & Hsv); [lia|].
  destruct (appendNano_spec (nanosecond x) Hns) as (Hfs & Hfz).
  cbn [app nth_error].
  split; [reflexivity|]. split.
  - cbn [forallb] in Hys |- *. apply andb_true_iff in Hys as [Hy1 Hys].
    apply andb_true_iff in Hys as [Hy2 Hys]. apply andb_true_iff in Hys as [Hy3 Hys].
    apply andb_true_iff in Hys as [Hy4 _].
    rewrite Hy1, Hy2, Hy3, Hy4, Hm1, Hm2, Hd1, Hd2, Hh1, Hh2, Hi1, Hi2, Hs1, Hs2.
    cbn [andb]. change (htmlSafe "-") with true. change (htmlSafe "T") with true.
    change (htmlSafe ":") with true. cbn [andb].
    rewrite forallb_app, Hfs. reflexivity.
  - cbn [parseRFC3339]. rewrite Hyv, (Hmv 1 12) by lia.
    rewrite (Hdv 1 (daysIn (month x) (Z.to_N (year x)))) by lia.
    rewrite (Hhv 0 23), (Hiv 0 59), (Hsv 0 59) by lia.
    rewrite Hfz. reflexivity.
Qed.

Lemma UnmarshalJSON_quoted (layout_parse : bytes -> bool) (b : bytes) :
  parseRFC3339 b = true -> UnmarshalJSON layout_parse ([x22] ++ b ++ [x22]) = true.
Proof.
  intros H. unfold UnmarshalJSON. cbn [app].
  rewrite rev_app_distr. cbn [rev app]. rewrite rev_involutive, H. reflexivity.
Qed.

End TimeFacts.

Module ParseFacts.
Import Utf8 Utf8Facts Strconv StrconvFacts Json JsonStringFacts CompactFacts.
Local Open Scope N_scope.


Lemma scan_appendString (s rest : bytes) :
  Valid s = true -> scan_string (appendString s ++ rest) = Some (s, rest).
Proof.
  intros Hv. unfold appendString, scan_string. rewrite <- !app_assoc. cbn [app].
  apply unquote_appendString; [exact Hv | lia |].
  rewrite length_app. simpl. lia.
Qed.

Lemma consumed_app (txt rest : bytes) : consumed (txt ++ rest) rest = txt.
Proof.
  unfold consumed. rewrite length_app.
  replace (length txt + length rest - length rest)%nat with (length txt) by lia.
  apply take_app_length.
Qed.

Lemma skip_space_parses need dmax txt v rest :
  parses need dmax txt v -> skip_space (txt ++ rest) = txt ++ rest.
Proof. intros [(c & t & -> & Hc) _]. cbn [app skip_space]. rewrite Hc. reflexivity. Qed.

Lemma parses_string (s : bytes) (dmax : N) :
  Valid s = true -> parses 1 dmax (appendString s) (JString s).
Proof.
  intros Hv. split; [unfold appendString; cbn [app]; eauto|].
  intros fuel depth rest Hf _ _. destruct fuel as [|fuel]; [lia|].
  pose proof (scan_appendString s rest Hv) as Hs.
  unfold appendString in *. cbn [app] in *. cbn [parse_value]. rewrite Hs. reflexivity.
Qed.

Lemma parse_value_digit (d : byte) (fuel : nat) (depth : N) (s : bytes) :
  is_digit d = true \/ d = x2d ->
  parse_value (S fuel) depth (d :: s) =
    match scan_number (d :: s) with
    | Some (lit, r) => Some (JNumber lit, r)
    | None => None
    end.
Proof.
  intros [H| ->]; [|reflexivity]. destruct d; try discriminate H; reflexivity.
Qed.

Lemma parses_int (i : Z) (dmax : N) :
  parses 1 dmax (FormatInt i) (JNumber (FormatInt i)).
Proof.
  assert (Hhead : exists d t, FormatInt i = d :: t /\ (is_digit d = true \/ d = x2d)).
  { unfold FormatInt. destruct (i <? 0)%Z; [eauto|].
    destruct (FormatUint_spec (Z.to_N i)) as (Hall & _ & (d & l & Hl & _) & _).
    rewrite Hl in *. cbn [forallb] in Hall. apply andb_true_iff in Hall as [Hd _]. eauto. }
  destruct Hhead as (d & t & Heq & Hd). split.
  - exists d, t. split; [exact Heq|]. destruct Hd as [Hd| ->]; [|reflexivity].
    destruct d; try discriminate Hd; reflexivity.
  - intros fuel depth rest Hf _ Hrest. destruct fuel as [|fuel]; [lia|].
    pose proof (scan_number_FormatInt i rest Hrest) as Hs.
    rewrite Heq in Hs |- *. cbn [app] in *.
    rewrite parse_value_digit by exact Hd. rewrite Hs. reflexivity.
Qed.

(** An object, from its brace on. *)
Lemma parse_value_object (fuel : nat) (depth : N) (k s : bytes) :
  depth < maxNestingDepth ->
  parse_value (S fuel) depth (x7b :: appendString k ++ s) =
    match parse_members fuel (N.succ depth) (appendString k ++ s) with
    | Some (ms, r) => Some (JObject ms, r)
    | None => None
    end.
Proof.
  intros Hd. unfold appendString. cbn [app parse_value].
  destruct (N.leb_spec maxNestingDepth depth); [lia|]. reflexivity.
Qed.

Lemma skip_space_appendString (k s : bytes) :
  skip_space (appendString k ++ s) = appendString k ++ s.
Proof. reflexivity. Qed.

(** One member, and what its follower decides. *)
Lemma parse_members_step (fuel need : nat) (depth dmax : N) (k txt : bytes) (v : value)
    (rest : bytes) :
  Valid k = true -> parses need dmax txt v -> (need <= fuel)%nat -> depth <= dmax ->
  closes rest ->
  parse_members (S fuel) depth (appendString k ++ x3a :: txt ++ rest) =
    match skip_space rest with
    | x7d :: r'' => Some ([(k, txt, v)], r'')
    | x2c :: r'' =>
        match parse_members fuel depth (skip_space r'') with
        | Some (ms, r3) => Some ((k, txt, v) :: ms, r3)
        | None => None
        end
    | _ => None
    end.
Proof.
  intros Hk Hp Hf Hd Hrest. cbn [parse_members].
  rewrite scan_appendString by exact Hk. cbn [skip_space isSpace existsb b2n Byte.to_N N.eqb Pos.eqb orb].
  rewrite (skip_space_parses _ _ _ _ _ Hp).
  destruct Hp as [_ Hp]. rewrite (Hp fuel depth rest Hf Hd Hrest), consumed_app.
  reflexivity.
Qed.


Ltac flatten_app := repeat (rewrite <- app_assoc || rewrite <- app_comm_cons); cbn [app].

Lemma parses_object3 (need : nat) (dmax : N) (k1 t1 k2 t2 k3 t3 : bytes) (v1 v2 v3 : value) :
  dmax < maxNestingDepth ->
  Valid k1 = true -> Valid k2 = true -> Valid k3 = true ->
  parses need (N.succ dmax) t1 v1 -> parses need (N.succ dmax) t2 v2 ->
  parses need (N.succ dmax) t3 v3 ->
  parses (need + 4) dmax (object3 k1 t1 k2 t2 k3 t3)
         (JObject [(k1, t1, v1); (k2, t2, v2); (k3, t3, v3)]).
Proof.
  intros Hd Hk1 Hk2 Hk3 H1 H2 H3. split; [unfold object3; cbn [app]; eauto|].
  intros fuel depth rest Hf Hdepth _.
  do 4 (destruct fuel as [|fuel]; [lia|]).
  unfold object3. flatten_app.
  rewrite parse_value_object by lia.
  rewrite (parse_members_step _ need _ (N.succ dmax) k1 t1 v1) by
    (first [assumption | lia | simpl; auto]).
  cbn [skip_space isSpace existsb b2n Byte.to_N N.eqb Pos.eqb orb].
  rewrite skip_space_appendString.
  rewrite (parse_members_step _ need _ (N.succ dmax) k2 t2 v2) by
    (first [assumption | lia | simpl; auto]).
  cbn [skip_space isSpace existsb b2n Byte.to_N N.eqb Pos.eqb orb].
  rewrite skip_space_appendString.
  rewrite (parse_members_step _ need _ (N.succ dmax) k3 t3 v3) by
    (first [assumption | lia | simpl; auto]).
  reflexivity.
Qed.

End ParseFacts.

Module MarshalFacts.
Import Utf8 Utf8Facts Strconv StrconvFacts Json JsonStringFacts CompactFacts TimeFacts ParseFacts.
Local Open Scope N_scope.


Lemma compacts_appendString (s : bytes) : compacts (appendString s).
Proof. intros t. apply compact_appendString. Qed.

Lemma compacts_structural (l : bytes) : forallb structural l = true -> compacts l.
Proof.
  intros H t. induction l as [|c l IH]; [reflexivity|].
  cbn [forallb] in H. apply andb_true_iff in H as [Hc Hl].
  cbn [app]. rewrite compact_structural by exact Hc. rewrite IH by exact Hl. reflexivity.
Qed.

Lemma is_digit_structural (b : byte) : is_digit b = true -> structural b = true.
Proof. destruct b; intros H; try discriminate H; reflexivity. Qed.

Lemma compacts_FormatInt (i : Z) : compacts (FormatInt i).
Proof.
  apply compacts_structural. unfold FormatInt.
  assert (Hd : forall n, forallb structural (FormatUint n) = true).
  { intros n. destruct (FormatUint_spec n) as (Hall & _).
    rewrite forallb_forall in Hall |- *. intros x Hx. apply is_digit_structural, Hall, Hx. }
  destruct (i <? 0)%Z; [cbn [forallb]; rewrite Hd; reflexivity | apply Hd].
Qed.

Lemma compacts_object3 (k1 t1 k2 t2 k3 t3 : bytes) :
  compacts t1 -> compacts t2 -> compacts t3 -> compacts (object3 k1 t1 k2 t2 k3 t3).
Proof.
  intros H1 H2 H3 t. unfold object3. flatten_app.
  rewrite compact_structural by reflexivity. rewrite compact_appendString.
  rewrite compact_structural by reflexivity. rewrite H1.
  rewrite compact_structural by reflexivity. rewrite compact_appendString.
  rewrite compact_structural by reflexivity. rewrite H2.
  rewrite compact_structural by reflexivity. rewrite compact_appendString.
  rewrite compact_structural by reflexivity. rewrite H3.
  rewrite compact_structural by reflexivity. reflexivity.
Qed.

Lemma parse_of_parses (need : nat) (dmax : N) (txt : bytes) (v : value) :
  parses need dmax txt v -> (need <= S (length txt))%nat -> parse txt = Some v.
Proof.
  intros Hp Hn. unfold parse.
  pose proof (skip_space_parses _ _ _ _ [] Hp) as Hs. rewrite app_nil_r in Hs.
  destruct Hp as [_ Hp].
  pose proof (Hp (S (length txt)) 0 [] Hn ltac:(lia) I) as H. rewrite app_nil_r in H.
  cbv zeta. rewrite Hs, H. reflexivity.
Qed.

Lemma compact_of (need : nat) (dmax : N) (txt : bytes) (v : value) :
  parses need dmax txt v -> (need <= S (length txt))%nat -> compacts txt ->
  compact txt = Some txt.
Proof.
  intros Hp Hn Hc. unfold compact. rewrite (parse_of_parses _ _ _ _ Hp Hn).
  rewrite <- (app_nil_r txt) at 1. rewrite Hc. cbn [compact_go]. rewrite app_nil_r.
  reflexivity.
Qed.

(** Bytes that need no escape are written as they are, and are UTF-8. *)
Lemma appendString_go_safe (l : bytes) :
  forall fuel, (length l <= fuel)%nat -> forallb htmlSafe l = true ->
    appendString_go fuel l = l /\ Valid_go fuel l = true.
Proof.
  induction l as [|c l IH]; intros fuel Hf Hl.
  - destruct fuel; split; reflexivity.
  - destruct fuel as [|fuel]; [simpl in Hf; lia|].
    cbn [forallb] in Hl. apply andb_true_iff in Hl as [Hc Hl].
    destruct (IH fuel ltac:(simpl in Hf; lia) Hl) as [Ha Hv].
    assert (Hlt : (b2n c <? 0x80) = true)
      by (clear -Hc; destruct c; try discriminate Hc; reflexivity).
    split.
    + cbn [appendString_go]. rewrite Hlt, Hc, Ha. reflexivity.
    + cbn [Valid_go]. unfold ill_formed. rewrite (DecodeRune_ascii c l Hlt).
      cbn [snd]. change (drop 1 (c :: l)) with l. rewrite Hv, andb_true_r. apply negb_true_iff.
      apply andb_false_iff. left. apply N.eqb_neq. unfold RuneError.
      apply N.ltb_lt in Hlt. lia.
Qed.

Lemma appendString_safe (l : bytes) :
  forallb htmlSafe l = true -> appendString l = [x22] ++ l ++ [x22] /\ Valid l = true.
Proof.
  intros Hl. destruct (appendString_go_safe l (length l) ltac:(lia) Hl) as [Ha Hv].
  unfold appendString, Valid. rewrite Ha. split; [reflexivity | exact Hv].
Qed.

Lemma length_object3 (k1 t1 k2 t2 k3 t3 : bytes) :
  (13 <= length (object3 k1 t1 k2 t2 k3 t3))%nat.
Proof. unfold object3, appendString. rewrite !length_app. simpl. lia. Qed.

Lemma Marshal3 (n1 n2 n3 : string) (c1 c2 c3 : content) (t1 t2 t3 : bytes) :
  marshal_content c1 = Some t1 -> marshal_content c2 = Some t2 ->
  marshal_content c3 = Some t3 ->
  Marshal [(n1, c1); (n2, c2); (n3, c3)] =
    Some (object3 (str n1) t1 (str n2) t2 (str n3) t3).
Proof.
  intros H1 H2 H3. cbn [Marshal marshal_fields]. rewrite H1, H2, H3.
  unfold object3. f_equal. repeat rewrite <- app_assoc. reflexivity.
Qed.

End MarshalFacts.

(* ===================================================================== *)
(** * The codec *)
(* ===================================================================== *)

Section CodecFacts.
Import Utf8 Utf8Facts Strconv StrconvFacts Json JsonStringFacts CompactFacts TimeFacts
       ParseFacts MarshalFacts.
Local Open Scope N_scope.

Variable layout_parse : bytes -> bool.

Lemma unstr_str (s : string) : unstr (str s) = s.
Proof. apply string_of_list_byte_of_string. Qed.

Lemma decode_envelope (tag : string) (r1 ts payload : bytes) (vts vp : value) :
  GoTime.UnmarshalJSON layout_parse ts = true ->
  decode_members layout_parse EventEnvelope_schema
    [(str "type", r1, JString (str tag)); (str "timestamp", ts, vts);
     (str "data", payload, vp)]
    (map (fun f => zero (snd f)) EventEnvelope_schema) =
  Some [FString tag; FTime; FRawMessage payload].
Proof.
  intros Hts. cbn. rewrite Hts. cbn. rewrite unstr_str. reflexivity.
Qed.

Lemma decode_transfer (t a : string) (m : Z) (r1 r2 : bytes) :
  (- 2 ^ 63 <= m <= 2 ^ 63 - 1)%Z ->
  decode_members layout_parse MoneyDeducted_schema
    [(str "transaction_id", r1, JString (str t)); (str "account", r2, JString (str a));
     (str "amount", FormatInt m, JNumber (FormatInt m))]
    (map (fun f => zero (snd f)) MoneyDeducted_schema) =
  Some [FString t; FString a; FInt64 m].
Proof.
  intros Hm. pose proof (ParseInt_FormatInt m Hm) as Hp.
  generalize dependent (FormatInt m). intros lit Hp.
  cbn. rewrite Hp. cbn. rewrite !unstr_str. reflexivity.
Qed.

Lemma decode_failed (t f r : string) (r1 r2 r3 : bytes) :
  decode_members layout_parse TransactionFailed_schema
    [(str "transaction_id", r1, JString (str t)); (str "from_account", r2, JString (str f));
     (str "reason", r3, JString (str r))]
    (map (fun f => zero (snd f)) TransactionFailed_schema) =
  Some [FString t; FString f; FString r].
Proof. cbn. rewrite !unstr_str. reflexivity. Qed.

Lemma parses_weaken (n n' : nat) (d d' : N) (txt : bytes) (v : value) :
  parses n d txt v -> (n <= n')%nat -> d' <= d -> parses n' d' txt v.
Proof.
  intros [Hh Hp] Hn Hd. split; [exact Hh|].
  intros fuel depth rest Hf Hdepth Hrest. apply Hp; [lia | lia | exact Hrest].
Qed.


Lemma wire_transfer (t a : string) (m : Z) (schema : list (string * kind)) :
  schema = MoneyDeducted_schema ->
  ValidString t = true -> ValidString a = true -> (- 2 ^ 63 <= m <= 2 ^ 63 - 1)%Z ->
  wire layout_parse [("transaction_id", CString t); ("account", CString a); ("amount", CInt64 m)]
       schema [FString t; FString a; FInt64 m]
       (object3 (str "transaction_id") (appendString (str t))
                (str "account") (appendString (str a))
                (str "amount") (FormatInt m)).
Proof.
  intros -> Ht Ha Hm.
  assert (Hp : parses 5 1
            (object3 (str "transaction_id") (appendString (str t))
                     (str "account") (appendString (str a)) (str "amount") (FormatInt m))
            (JObject [(str "transaction_id", appendString (str t), JString (str t));
                     (str "account", appendString (str a), JString (str a));
                     (str "amount", FormatInt m, JNumber (FormatInt m))])).
  { apply (parses_object3 1 1); try reflexivity;
      first [apply parses_string; assumption | apply parses_int]. }
  split.
  - apply Marshal3; reflexivity.
  - eauto.
  - apply compacts_object3;
      first [apply compacts_appendString | apply compacts_FormatInt].
  - apply length_object3.
  - unfold Unmarshal. rewrite (parse_of_parses _ _ _ _ Hp)
      by (pose proof (length_object3 (str "transaction_id") (appendString (str t))
            (str "account") (appendString (str a)) (str "amount") (FormatInt m)); lia).
    apply decode_transfer, Hm.
Qed.

Lemma wire_failed (t f r : string) :
  ValidString t = true -> ValidString f = true -> ValidString r = true ->
  wire layout_parse [("transaction_id", CString t); ("from_account", CString f); ("reason", CString r)]
       TransactionFailed_schema [FString t; FString f; FString r]
       (object3 (str "transaction_id") (appendString (str t))
                (str "from_account") (appendString (str f))
                (str "reason") (appendString (str r))).
Proof.
  intros Ht Hf Hr.
  assert (Hp : parses 5 1
            (object3 (str "transaction_id") (appendString (str t))
                     (str "from_account") (appendString (str f))
                     (str "reason") (appendString (str r)))
            (JObject [(str "transaction_id", appendString (str t), JString (str t));
                     (str "from_account", appendString (str f), JString (str f));
                     (str "reason", appendString (str r), JString (str r))])).
  { apply (parses_object3 1 1); try reflexivity; apply parses_string; assumption. }
  split.
  - apply Marshal3; reflexivity.
  - eauto.
  - apply compacts_object3; apply compacts_appendString.
  - apply length_object3.
  - unfold Unmarshal. rewrite (parse_of_parses _ _ _ _ Hp)
      by (pose proof (length_object3 (str "transaction_id") (appendString (str t))
            (str "from_account") (appendString (str f))
            (str "reason") (appendString (str r))); lia).
    apply decode_failed.
Qed.

(** The envelope around a payload: written, and read back to its three
    fields. *)
Lemma envelope_round_trip (now : GoTime.t) (tag : string) (payload : bytes)
    (fields : list (string * content)) (schema : list (string * kind))
    (decoded : list field) :
  GoTime.wf now -> (0 <= GoTime.year now <= 9999)%Z ->
  ValidString tag = true ->
  wire layout_parse fields schema decoded payload ->
  exists data,
    Marshal [("type", CString tag); ("timestamp", CTime now);
             ("data", CRawMessage payload)] = Some data /\
    Unmarshal layout_parse EventEnvelope_schema data =
      Some [FString tag; FTime; FRawMessage payload].
Proof.
  intros Hwf Hy Htag [_ [vp Hpp] Hpc Hlen _].
  destruct (MarshalJSON_spec now Hwf Hy) as (b & Hmar & Hsafe & Hrfc).
  destruct (appendString_safe b Hsafe) as [Hts Hvb].
  assert (Hpts : forall d, parses 1 d ([x22] ++ b ++ [x22]) (JString b))
    by (intros d; rewrite <- Hts; apply parses_string, Hvb).
  assert (Hcts : compact ([x22] ++ b ++ [x22]) = Some ([x22] ++ b ++ [x22])).
  { apply (compact_of 1 0 _ (JString b)); [apply Hpts | lia |].
    rewrite <- Hts. apply compacts_appendString. }
  assert (Hcp : compact payload = Some payload).
  { apply (compact_of 5 1 _ vp Hpp); [lia | exact Hpc]. }
  exists (object3 (str "type") (appendString (str tag))
                  (str "timestamp") ([x22] ++ b ++ [x22]) (str "data") payload).
  split.
  - apply Marshal3; [reflexivity | cbn [marshal_content]; rewrite Hmar; exact Hcts |].
    destruct payload as [|c tl]; [simpl in Hlen; lia|]. exact Hcp.
  - assert (Hp : parses 9 0
       (object3 (str "type") (appendString (str tag))
                (str "timestamp") ([x22] ++ b ++ [x22]) (str "data") payload)
       (JObject [(str "type", appendString (str tag), JString (str tag));
                (str "timestamp", [x22] ++ b ++ [x22], JString b);
                (str "data", payload, vp)])).
    { apply (parses_object3 5 0); try reflexivity.
      - apply (parses_weaken 1 5 1 1); [apply parses_string, Htag | lia | lia].
      - apply (parses_weaken 1 5 1 1); [apply Hpts | lia | lia].
      - exact Hpp. }
    unfold Unmarshal. rewrite (parse_of_parses _ _ _ _ Hp)
      by (pose proof (length_object3 (str "type") (appendString (str tag))
            (str "timestamp") ([x22] ++ b ++ [x22]) (str "data") payload); lia).
    apply decode_envelope, UnmarshalJSON_quoted, Hrfc.
Qed.

End CodecFacts.

(** C9, amended. Codec round trip. For an event of any of the three
    variants whose string fields are valid UTF-8 (its amount being an
    [int64]), and for any reading of the clock that is a calendar instant of
    the years 0 to 9999, [SerializeEvent] succeeds, and [DeserializeEvent]
    on the bytes it produced succeeds and returns an event equal to the one
    serialized; the reading of the clock does not show in the decoded
    event. [layout_parse] is the answer of [time.Parse] on a timestamp the
    strict RFC 3339 reader refuses; the result holds for every such answer. *)
Theorem codec_round_trip (layout_parse : bytes -> bool) (now : GoTime.t) (e : Event) :
  GoTime.wf now -> (0 <= GoTime.year now <= 9999)%Z ->
  well_formed_event e ->
  exists data,
    SerializeEvent now e = Some data /\
    DeserializeEvent layout_parse data = Some e.
Proof.
  intros Hwf Hy He. unfold SerializeEvent, DeserializeEvent.
  destruct e as [t a m|t a m|t f r]; cbn [well_formed_event] in He;
    destruct He as (H1 & H2 & H3).
  - pose proof (wire_transfer layout_parse t a m MoneyDeducted_schema eq_refl H1 H2 H3) as Hw.
    destruct (envelope_round_trip layout_parse now EventTypeMoneyDeducted _ _ _ _
                Hwf Hy eq_refl Hw) as (data & Hmar & Hun).
    exists data. cbn [Marshal_event GetType]. rewrite (wire_marshal _ _ _ _ _ Hw).
    split; [exact Hmar|]. rewrite Hun. cbn [String.eqb Ascii.eqb Bool.eqb EventTypeMoneyDeducted].
    rewrite (wire_unmarshal _ _ _ _ _ Hw). reflexivity.
  - pose proof (wire_transfer layout_parse t a m MoneyCredited_schema eq_refl H1 H2 H3) as Hw.
    destruct (envelope_round_trip layout_parse now EventTypeMoneyCredited _ _ _ _
                Hwf Hy eq_refl Hw) as (data & Hmar & Hun).
    exists data. cbn [Marshal_event GetType]. rewrite (wire_marshal _ _ _ _ _ Hw).
    split; [exact Hmar|]. rewrite Hun.
    change (String.eqb EventTypeMoneyCredited EventTypeMoneyDeducted) with false.
    change (String.eqb EventTypeMoneyCredited EventTypeMoneyCredited) with true.
    cbv iota. rewrite (wire_unmarshal _ _ _ _ _ Hw). reflexivity.
  - pose proof (wire_failed layout_parse t f r H1 H2 H3) as Hw.
    destruct (envelope_round_trip layout_parse now EventTypeTransactionFailed _ _ _ _
                Hwf Hy eq_refl Hw) as (data & Hmar & Hun).
    exists data. cbn [Marshal_event GetType]. rewrite (wire_marshal _ _ _ _ _ Hw).
    split; [exact Hmar|]. rewrite Hun.
    change (String.eqb EventTypeTransactionFailed EventTypeMoneyDeducted) with false.
    change (String.eqb EventTypeTransactionFailed EventTypeMoneyCredited) with false.
    change (String.eqb EventTypeTransactionFailed EventTypeTransactionFailed) with true.
    cbv iota. rewrite (wire_unmarshal _ _ _ _ _ Hw). reflexivity.
Qed.

(** The round trip of [MoneyDeducted{"txn-1", "alice", 100}] serialized at
    2024-02-29T07:05:09.12Z. *)
Lemma codec_round_trip_witness :
  exists data,
    SerializeEvent clock0 (MoneyDeducted "txn-1" "alice" 100) = Some data /\
    DeserializeEvent (fun _ => false) data = Some (MoneyDeducted "txn-1" "alice" 100).
Proof.
  apply (codec_round_trip (fun _ => false) clock0 (MoneyDeducted "txn-1" "alice" 100)).
  - unfold GoTime.wf. vm_compute. intuition discriminate.
  - simpl. lia.
  - simpl. repeat split; try reflexivity; lia.
Defined.

(** C9, as stated, fails on a string that is not valid UTF-8:
    [encoding/json] writes each ill-formed byte as [\ufffd], so
    [TransactionFailed] with the one-byte account [0xFF] is serialized
    without error and decoded without error to an event whose account is
    the three bytes [EF BF BD] of U+FFFD, which is not the event that was
    serialized. *)
Lemma codec_counterexample :
  let e := TransactionFailed "txn-2" (unstr [xff]) "insufficient funds" in
  exists data e',
    SerializeEvent clock0 e = Some data /\
    DeserializeEvent (fun _ => false) data = Some e' /\
    e' = TransactionFailed "txn-2" (unstr [xef; xbf; xbd]) "insufficient funds" /\
    e' <> e.
Proof.
  intros e. eexists. eexists. split; [vm_compute; reflexivity|].
  split; [vm_compute; reflexivity|]. split; [reflexivity|]. discriminate.
Qed.

(* ===================================================================== *)
(** * The event store *)
(* ===================================================================== *)

Section StoreFacts.

Implicit Types (s : EventStore) (events : list Event).

Lemma file_Write_env (data : bytes) s :
  clock (snd (file_Write data s)) = clock s /\ ticks (snd (file_Write data s)) = ticks s.
Proof. unfold file_Write. destruct (faults s) as [|[|n] rest]; split; reflexivity. Qed.

Lemma file_Write_ok (data : bytes) s :
  faults s = [] ->
  file_Write data s =
  (true, {| file := file s ++ data; synced := synced s; clock := clock s;
            ticks := ticks s; faults := [] |}).
Proof. intros Hf. unfold file_Write. rewrite Hf. reflexivity. Qed.

(** When the serialization of some event of the batch fails at its turn,
    the loop ends in an error: that one, or an earlier write error. *)
Lemma append_events_serialization_error events :
  forall s (i : nat) (event : Event),
    events !! i = Some event ->
    SerializeEvent (clock s (ticks s + i)) event = None ->
    fst (append_events events s) <> None.
Proof.
  induction events as [|ev events IH]; intros s i event Hi Hser; [discriminate|].
  cbn [append_events time_Now].
  destruct i as [|i].
  - injection Hi as ->. rewrite Nat.add_0_r in Hser. rewrite Hser. discriminate.
  - destruct (SerializeEvent (clock s (ticks s)) ev) as [data|]; [|discriminate].
    destruct (file_Write (data ++ [x0a]) _) as [ok s'] eqn:Hw.
    destruct ok; [|discriminate].
    pose proof (file_Write_env (data ++ [x0a])
      {| file := file s; synced := synced s; clock := clock s;
         ticks := S (ticks s); faults := faults s |}) as [Hc Ht].
    rewrite Hw in Hc, Ht. cbn [snd clock ticks] in Hc, Ht.
    apply (IH s' i event Hi). rewrite Hc, Ht.
    replace (S (ticks s) + i)%nat with (ticks s + S i)%nat by lia. exact Hser.
Qed.

Lemma AppendBatch_serialization_error events s (i : nat) (event : Event) :
  events !! i = Some event ->
  SerializeEvent (clock s (ticks s + i)) event = None ->
  fst (AppendBatch events s) <> None.
Proof.
  intros Hi Hser. pose proof (append_events_serialization_error events s i event Hi Hser) as H.
  unfold AppendBatch. destruct (append_events events s) as [[err|] s']; [discriminate|].
  contradiction.
Qed.

(** A batch whose first event is serialized and whose second is not leaves
    the line of the first in the file. *)
Lemma AppendBatch_partial (e1 e2 : Event) (rest : list Event) s (data : bytes) :
  faults s = [] ->
  SerializeEvent (clock s (ticks s)) e1 = Some data ->
  SerializeEvent (clock s (S (ticks s))) e2 = None ->
  fst (AppendBatch (e1 :: e2 :: rest) s) = Some SerializeError /\
  file (snd (AppendBatch (e1 :: e2 :: rest) s)) = file s ++ data ++ [x0a].
Proof.
  intros Hf H1 H2. unfold AppendBatch. cbn [append_events time_Now].
  rewrite H1. rewrite file_Write_ok by exact Hf.
  cbn [clock ticks]. rewrite H2. split; reflexivity.
Qed.

(** The three structs are always marshalled. *)
Lemma Marshal_event_total (e : Event) : exists data, Marshal_event e = Some data.
Proof. destruct e; eexists; reflexivity. Qed.

Lemma SerializeEvent_any_known (e : Event) s :
  SerializeEvent_any (Known e) s =
    (SerializeEvent (clock s (ticks s)) e, snd (time_Now s)).
Proof.
  unfold SerializeEvent_any, SerializeEvent. cbn [marshal_any GetType_any time_Now snd].
  destruct (Marshal_event_total e) as [data ->]. reflexivity.
Qed.

(** On a batch of the three structs the store on the interface type is the
    store above. *)
Lemma append_events_any_known events :
  forall s, append_events_any (map Known events) s = append_events events s.
Proof.
  induction events as [|ev events IH]; intros s; [reflexivity|].
  cbn [map append_events_any append_events]. rewrite SerializeEvent_any_known.
  cbn [time_Now snd].
  destruct (SerializeEvent (clock s (ticks s)) ev) as [data|]; [|reflexivity].
  destruct (file_Write (data ++ [x0a]) _) as [[|] s1]; [apply IH | reflexivity].
Qed.

Lemma AppendBatch_any_known events s :
  AppendBatch_any (map Known events) s = AppendBatch events s.
Proof. unfold AppendBatch_any, AppendBatch. rewrite append_events_any_known. reflexivity. Qed.

(** When [json.Marshal] refuses some value of the batch, the batch ends in
    an error: that one, or an earlier one. *)
Lemma AppendBatch_any_serialization_error (events : list AnyEvent) :
  forall s (i : nat) (event : AnyEvent),
    events !! i = Some event ->
    marshal_any event = None ->
    fst (AppendBatch_any events s) <> None.
Proof.
  assert (H : forall s (i : nat) (event : AnyEvent),
             events !! i = Some event -> marshal_any event = None ->
             fst (append_events_any events s) <> None).
  { induction events as [|ev events IH]; intros s i event Hi Hm; [discriminate|].
    cbn [append_events_any]. destruct i as [|i].
    - injection Hi as ->. unfold SerializeEvent_any. rewrite Hm. discriminate.
    - destruct (SerializeEvent_any ev s) as [[data|] s1]; [|discriminate].
      destruct (file_Write (data ++ [x0a]) s1) as [[|] s2]; [|discriminate].
      apply (IH s2 i event Hi Hm). }
  intros s i event Hi Hm. pose proof (H s i event Hi Hm) as Hne.
  unfold AppendBatch_any. destruct (append_events_any events s) as [[err|] s1];
    [discriminate | contradiction].
Qed.


End StoreFacts.


(* ===================================================================== *)
(** * More about the engine *)
(* ===================================================================== *)

Section EngineMore.

Implicit Types (e : WalletEngine) (cmd : TransferCommand) (ev : Event).

Lemma Execute_events cmd e :
  fst (eval (Execute cmd) e) = [] \/
  (exists reason,
     (reason = "amount must be positive" \/ reason = "cannot transfer to same account" \/
      reason = "insufficient funds")%string /\
     fst (eval (Execute cmd) e) =
       [TransactionFailed (TransactionID cmd) (FromAccount cmd) reason]) \/
  fst (eval (Execute cmd) e) =
    [MoneyDeducted (TransactionID cmd) (FromAccount cmd) (Amount cmd);
     MoneyCredited (TransactionID cmd) (ToAccount cmd) (Amount cmd)].
Proof.
  destruct (is_processed e (TransactionID cmd)) eqn:Hp.
  - left. unfold eval. rewrite (Execute_duplicate _ _ Hp). reflexivity.
  - right. unfold eval. rewrite (Execute_fresh _ _ Hp). cbn [fst].
    destruct (Amount cmd <=? 0); [left; eauto|].
    destruct (String.eqb _ _); [left; eauto|].
    destruct (_ <? _); [left; eauto 6 | right; reflexivity].
Qed.

Lemma Execute_result cmd e :
  Execute cmd e = ((fst (eval (Execute cmd) e), None), e).
Proof.
  destruct (is_processed e (TransactionID cmd)) eqn:Hp.
  - unfold eval. rewrite (Execute_duplicate _ _ Hp). reflexivity.
  - unfold eval. rewrite (Execute_fresh _ _ Hp). reflexivity.
Qed.

Lemma Execute_rejected cmd e :
  is_processed e (TransactionID cmd) = true \/ Amount cmd <= 0 \/
  FromAccount cmd = ToAccount cmd \/
  balance_at (balances e) (FromAccount cmd) < Amount cmd ->
  (is_processed e (TransactionID cmd) = true /\ fst (eval (Execute cmd) e) = []) \/
  (is_processed e (TransactionID cmd) = false /\
   exists reason,
     fst (eval (Execute cmd) e) =
       [TransactionFailed (TransactionID cmd) (FromAccount cmd) reason]).
Proof.
  intros Hrej. destruct (is_processed e (TransactionID cmd)) eqn:Hp.
  - left. split; [reflexivity|]. unfold eval. rewrite (Execute_duplicate _ _ Hp). reflexivity.
  - right. split; [reflexivity|]. unfold eval. rewrite (Execute_fresh _ _ Hp). cbn [fst].
    destruct (Z.leb_spec (Amount cmd) 0) as [Ha|Ha]; [eauto|].
    destruct (String.eqb_spec (FromAccount cmd) (ToAccount cmd)) as [Hs|Hs]; [eauto|].
    destruct (Z.ltb_spec (balance_at (balances e) (FromAccount cmd)) (Amount cmd))
      as [Hb|Hb]; [eauto|].
    exfalso. destruct Hrej as [H|[H|[H|H]]]; [discriminate | lia | contradiction | lia].
Qed.

Lemma applyEvent_flags ev e txn :
  is_processed (exec (applyEvent ev) e) txn = is_processed e txn || marks txn ev.
Proof.
  unfold is_processed, flag_at.
  destruct ev as [t a m|t a m|t f r]; cbn [exec applyEvent modify snd processedTxns marks].
  - destruct (String.eqb_spec t txn) as [->|Hne].
    + rewrite lookup_insert_eq. cbn. rewrite orb_true_r. reflexivity.
    + rewrite lookup_insert_ne by exact Hne. rewrite orb_false_r. reflexivity.
  - rewrite orb_false_r. reflexivity.
  - destruct (String.eqb_spec t txn) as [->|Hne].
    + rewrite lookup_insert_eq. cbn. rewrite orb_true_r. reflexivity.
    + rewrite lookup_insert_ne by exact Hne. rewrite orb_false_r. reflexivity.
Qed.

Lemma applyEvent_dom ev e :
  dom (balances (exec (applyEvent ev) e)) = dom (balances e) ∪ touched ev.
Proof.
  destruct ev as [t a m|t a m|t f r]; cbn [exec applyEvent modify snd balances touched].
  - rewrite dom_insert_L. apply (comm_L (∪)).
  - rewrite dom_insert_L. apply (comm_L (∪)).
  - rewrite (right_id_L ∅ (∪)). reflexivity.
Qed.

Lemma applyEvent_frame ev e (a : string) :
  a ∉ touched ev -> balances (exec (applyEvent ev) e) !! a = balances e !! a.
Proof.
  destruct ev as [t a' m|t a' m|t f r]; cbn [exec applyEvent modify snd balances touched];
    intros Ha; try reflexivity;
    apply lookup_insert_ne; intros ->; apply Ha, elem_of_singleton; reflexivity.
Qed.

End EngineMore.

(** X1. Whatever the state, [Execute] returns at most two events and each
    of them carries the transaction id of the command. *)
Theorem Execute_events_of_command (cmd : TransferCommand) (e : WalletEngine) :
  (length (fst (eval (Execute cmd) e)) <= 2)%nat /\
  Forall (fun ev => GetTransactionID ev = TransactionID cmd) (fst (eval (Execute cmd) e)).
Proof.
  destruct (Execute_events cmd e) as [H|[(reason & _ & H)|H]]; rewrite H; cbn [length];
    (split; [lia | repeat constructor]).
Qed.

(** X2. A transfer that passes the checks, from a balance that is an
    [int64] and to a balance the amount does not overflow, takes the amount
    off the sender, adds it to the receiver, leaves every other account as
    it was and marks the transaction id. *)
Theorem transfer_moves_amount (cmd : TransferCommand) (e : WalletEngine) :
  is_processed e (TransactionID cmd) = false ->
  0 < Amount cmd ->
  FromAccount cmd <> ToAccount cmd ->
  Amount cmd <= balance_at (balances e) (FromAccount cmd) ->
  balance_at (balances e) (FromAccount cmd) <= Int64.max_int ->
  Int64.in_range (balance_at (balances e) (ToAccount cmd) + Amount cmd) ->
  let e' := exec (process cmd) e in
  balance_at (balances e') (FromAccount cmd) =
    balance_at (balances e) (FromAccount cmd) - Amount cmd /\
  balance_at (balances e') (ToAccount cmd) =
    balance_at (balances e) (ToAccount cmd) + Amount cmd /\
  (forall a, a <> FromAccount cmd -> a <> ToAccount cmd ->
     balances e' !! a = balances e !! a) /\
  is_processed e' (TransactionID cmd) = true.
Proof.
  intros Hp Hpos Hne Hle Hmax Hto e'.
  assert (He' : e' = exec (ApplyEvents
            [MoneyDeducted (TransactionID cmd) (FromAccount cmd) (Amount cmd);
             MoneyCredited (TransactionID cmd) (ToAccount cmd) (Amount cmd)]) e).
  { unfold e'. rewrite process_state. f_equal. f_equal.
    unfold eval. rewrite process_unfold. cbn [fst].
    unfold eval. rewrite (Execute_fresh _ _ Hp). cbn [fst].
    rewrite (proj2 (Z.leb_gt _ _)) by lia.
    destruct (String.eqb_spec (FromAccount cmd) (ToAccount cmd)); [contradiction|].
    rewrite (proj2 (Z.ltb_ge _ _)) by lia. reflexivity. }
  rewrite He'. clear He' e'.
  cbn [ApplyEvents exec bind applyEvent modify snd ret balances processedTxns].
  assert (Hsub : Int64.sub (balance_at (balances e) (FromAccount cmd)) (Amount cmd) =
                 balance_at (balances e) (FromAccount cmd) - Amount cmd).
  { unfold Int64.sub. apply Int64Facts.wrap_small.
    unfold Int64.in_range, Int64.min_int, Int64.max_int in *. lia. }
  repeat split.
  - rewrite !balance_at_insert.
    destruct (decide (ToAccount cmd = FromAccount cmd)) as [E|_]; [symmetry in E; contradiction|].
    destruct (decide (FromAccount cmd = FromAccount cmd)); [exact Hsub | contradiction].
  - rewrite !balance_at_insert.
    destruct (decide (ToAccount cmd = ToAccount cmd)); [|contradiction].
    destruct (decide (FromAccount cmd = ToAccount cmd)); [contradiction|].
    unfold Int64.add. apply Int64Facts.wrap_small. exact Hto.
  - intros a Ha1 Ha2. rewrite !lookup_insert_ne by congruence. reflexivity.
  - unfold is_processed, flag_at. cbn [processedTxns]. rewrite lookup_insert_eq. reflexivity.
Qed.

Lemma transfer_moves_amount_witness :
  let cmd := {| TransactionID := "txn-1"; FromAccount := "alice";
                ToAccount := "bob"; Amount := 300 |} in
  let e' := exec (process cmd) alice_engine in
  balance_at (balances e') "alice" = 1000 - 300 /\
  balance_at (balances e') "bob" = 0 + 300 /\
  (forall a, a <> "alice" -> a <> "bob" -> balances e' !! a = balances alice_engine !! a) /\
  is_processed e' "txn-1" = true.
Proof.
  apply (transfer_moves_amount
           {| TransactionID := "txn-1"; FromAccount := "alice";
              ToAccount := "bob"; Amount := 300 |} alice_engine).
  - reflexivity.
  - reflexivity.
  - discriminate.
  - vm_compute. discriminate.
  - vm_compute. discriminate.
  - split; vm_compute; discriminate.
Defined.

(** X3. A command that is a duplicate or fails one of the three checks
    changes no balance. *)
Theorem rejected_command_keeps_balances (cmd : TransferCommand) (e : WalletEngine) :
  is_processed e (TransactionID cmd) = true \/ Amount cmd <= 0 \/
  FromAccount cmd = ToAccount cmd \/
  balance_at (balances e) (FromAccount cmd) < Amount cmd ->
  balances (exec (process cmd) e) = balances e.
Proof.
  intros H. unfold exec. rewrite process_unfold. cbn [snd].
  destruct (Execute_rejected cmd e H) as [[_ Hev]|[_ [reason Hev]]]; rewrite Hev; reflexivity.
Qed.

Lemma rejected_command_keeps_balances_witness :
  balances (exec (process {| TransactionID := "test-4"; FromAccount := "alice";
                             ToAccount := "bob"; Amount := 10000 |}) alice_engine) =
  balances alice_engine.
Proof.
  apply rejected_command_keeps_balances. right. right. right. vm_compute. reflexivity.
Defined.

(** X4. [GetBalance] after [SetBalance]: the balance that was set for that
    account, the balance as before for any other; [SetBalance] marks no
    transaction id. *)
Theorem GetBalance_SetBalance (a a' : string) (b : Z) (e : WalletEngine) :
  eval (GetBalance a') (exec (SetBalance a b) e) =
    (if decide (a = a') then b else eval (GetBalance a') e) /\
  processedTxns (exec (SetBalance a b) e) = processedTxns e.
Proof.
  split; [|reflexivity].
  cbn [eval GetBalance gets fst exec SetBalance modify snd balances].
  apply balance_at_insert.
Qed.

(** X5. An account that is not in the map reads as 0, so a transfer of a
    positive amount from it to another account is rejected for
    insufficient funds. *)
Theorem unknown_sender_rejected (cmd : TransferCommand) (e : WalletEngine) :
  balances e !! FromAccount cmd = None ->
  is_processed e (TransactionID cmd) = false ->
  0 < Amount cmd ->
  FromAccount cmd <> ToAccount cmd ->
  eval (GetBalance (FromAccount cmd)) e = 0 /\
  eval (Execute cmd) e =
    ([TransactionFailed (TransactionID cmd) (FromAccount cmd) "insufficient funds"], None).
Proof.
  intros Hnone Hp Hpos Hne.
  assert (H0 : balance_at (balances e) (FromAccount cmd) = 0)
    by (unfold balance_at; rewrite Hnone; reflexivity).
  split; [exact H0|].
  unfold eval. rewrite (Execute_fresh _ _ Hp). cbn [fst]. rewrite H0.
  rewrite (proj2 (Z.leb_gt _ _)) by lia.
  destruct (String.eqb_spec (FromAccount cmd) (ToAccount cmd)); [contradiction|].
  rewrite (proj2 (Z.ltb_lt _ _)) by lia. reflexivity.
Qed.

Lemma unknown_sender_rejected_witness :
  eval (Execute {| TransactionID := "t"; FromAccount := "nobody";
                   ToAccount := "alice"; Amount := 1 |}) alice_engine =
    ([TransactionFailed "t" "nobody" "insufficient funds"], None).
Proof.
  apply (unknown_sender_rejected {| TransactionID := "t"; FromAccount := "nobody";
                                    ToAccount := "alice"; Amount := 1 |} alice_engine);
    vm_compute; first [reflexivity | discriminate].
Defined.

(** X6. After a batch of events is applied, a transaction id is processed
    exactly when it was before or the batch holds a [MoneyDeducted] or a
    [TransactionFailed] with that id; a [MoneyCredited] marks nothing. *)
Theorem ApplyEvents_processed_exactly (evs : list Event) (e : WalletEngine) (txn : string) :
  is_processed (exec (ApplyEvents evs) e) txn = is_processed e txn || existsb (marks txn) evs.
Proof.
  revert e. induction evs as [|ev evs IH]; intros e.
  - rewrite exec_nil. cbn. rewrite orb_false_r. reflexivity.
  - rewrite exec_cons, IH, applyEvent_flags. cbn [existsb]. rewrite orb_assoc. reflexivity.
Qed.

(** X7. What [Execute] answers depends on the state only through the mark
    of the transaction id and the balance of the sender. *)
Theorem Execute_reads_only (cmd : TransferCommand) (e1 e2 : WalletEngine) :
  is_processed e1 (TransactionID cmd) = is_processed e2 (TransactionID cmd) ->
  balance_at (balances e1) (FromAccount cmd) = balance_at (balances e2) (FromAccount cmd) ->
  eval (Execute cmd) e1 = eval (Execute cmd) e2.
Proof.
  intros Hp Hb. unfold eval.
  destruct (is_processed e2 (TransactionID cmd)) eqn:H2.
  - rewrite (Execute_duplicate _ _ Hp), (Execute_duplicate _ _ H2). reflexivity.
  - rewrite (Execute_fresh _ _ Hp), (Execute_fresh _ _ H2). cbn [fst]. rewrite Hb. reflexivity.
Qed.

Lemma Execute_reads_only_witness :
  let cmd := {| TransactionID := "t"; FromAccount := "alice"; ToAccount := "bob";
                Amount := 100 |} in
  eval (Execute cmd) alice_engine =
  eval (Execute cmd) (exec (SetBalance "bob" 5) alice_engine).
Proof.
  intros cmd. apply (Execute_reads_only cmd); vm_compute; reflexivity.
Defined.

(** X8. Applying events removes no account and touches no other: the
    accounts afterwards are those from before together with the accounts
    the deductions and credits of the batch name, and an account that none
    of them names keeps its entry. *)
Theorem ApplyEvents_accounts (evs : list Event) (e : WalletEngine) :
  dom (balances (exec (ApplyEvents evs) e)) =
    dom (balances e) ∪ ⋃ (map touched evs) /\
  forall a : string,
    a ∉ ⋃ (map touched evs) ->
    balances (exec (ApplyEvents evs) e) !! a = balances e !! a.
Proof.
  revert e. induction evs as [|ev evs IH]; intros e.
  - rewrite exec_nil. cbn [map]. rewrite union_list_nil, (right_id_L ∅ (∪)).
    split; reflexivity.
  - rewrite exec_cons. destruct (IH (exec (applyEvent ev) e)) as [IH1 IH2].
    rewrite IH1, applyEvent_dom. cbn [map]. rewrite union_list_cons, (assoc_L (∪)).
    split; [reflexivity|].
    intros a Ha. apply not_elem_of_union in Ha as [Ha1 Ha2].
    rewrite (IH2 a Ha2). apply applyEvent_frame, Ha1.
Qed.

(* ===================================================================== *)
(** * The read model *)
(* ===================================================================== *)

Section ReadModelFacts.

Lemma ReadModel_applyEvent_engine (ev : Event) (r : ReadModel.t) (e : WalletEngine) :
  ReadModel.balances r = balances e ->
  ReadModel.balances (ReadModel.applyEvent ev r) = balances (exec (applyEvent ev) e).
Proof.
  intros H. destruct ev as [t a m|t a m|t f rs];
    cbn [ReadModel.applyEvent ReadModel.balances exec applyEvent modify snd balances];
    rewrite ?H; reflexivity.
Qed.

Lemma ReadModel_apply_all_engine (evs : list Event) :
  forall (r : ReadModel.t) (e : WalletEngine),
    ReadModel.balances r = balances e ->
    ReadModel.balances (ReadModel.apply_all evs r) = balances (exec (ApplyEvents evs) e).
Proof.
  induction evs as [|ev evs IH]; intros r e H.
  - rewrite exec_nil. exact H.
  - rewrite exec_cons. cbn [ReadModel.apply_all].
    apply IH, ReadModel_applyEvent_engine, H.
Qed.

End ReadModelFacts.

(** X9. The read model follows the engine: from equal balances, the same
    events applied to both leave equal balances, so the balance the read
    model reports for an account is the one the engine holds. *)
Theorem read_model_follows_engine (evs : list Event) (r : ReadModel.t) (e : WalletEngine) :
  ReadModel.balances r = balances e ->
  ReadModel.balances (snd (ReadModel.InitializeFromEventStore (inl evs) r)) =
    balances (exec (InitializeFromEventStore (inl evs)) e) /\
  forall account,
    fst (ReadModel.GetBalance account (ReadModel.apply_all evs r)) =
    eval (GetBalance account) (exec (ApplyEvents evs) e).
Proof.
  intros H. pose proof (ReadModel_apply_all_engine evs r e H) as Hb.
  split; [unfold exec; rewrite InitializeFromEventStore_loaded; exact Hb|]. intros account.
  unfold ReadModel.GetBalance. rewrite Hb.
  cbn [eval GetBalance gets fst]. unfold balance_at.
  destruct (balances (exec (ApplyEvents evs) e) !! account); reflexivity.
Qed.

Lemma read_model_follows_engine_witness :
  let evs := [MoneyDeducted "txn-1" "alice" 100; MoneyCredited "txn-1" "bob" 100] in
  let r := ReadModel.SetBalance "alice" 1000 ReadModel.NewReadModel in
  ReadModel.balances (snd (ReadModel.InitializeFromEventStore (inl evs) r)) =
    balances (exec (InitializeFromEventStore (inl evs)) alice_engine) /\
  forall account,
    fst (ReadModel.GetBalance account (ReadModel.apply_all evs r)) =
    eval (GetBalance account) (exec (ApplyEvents evs) alice_engine).
Proof.
  intros evs r. apply (read_model_follows_engine evs r alice_engine). reflexivity.
Defined.

(* ===================================================================== *)
(** * The scanner of [LoadAll] *)
(* ===================================================================== *)

Module BufioFacts.
Import Bufio.

Lemma scan_eq (held : bytes) (n : N) (data : bytes) :
  scan held n data =
    if (maxTokenSize <=? n)%N then ([], true)
    else
      match data with
      | [] => (match held with [] => [] | _ :: _ => [dropCR (rev held)] end, false)
      | c :: rest =>
          if Byte.eqb c x0a then
            let (tokens, too_long) := scan [] 0%N rest in
            (dropCR (rev held) :: tokens, too_long)
          else scan (c :: held) (n + 1)%N rest
      end.
Proof. destruct data; reflexivity. Qed.

Lemma scan_empty : scan [] 0%N [] = ([], false).
Proof. reflexivity. Qed.

(** The scan of a text that ends with a newline, followed by more. *)
Lemma scan_app_newline (d d' : bytes) :
  forall (held : bytes) (n : N),
    scan held n ((d ++ [x0a]) ++ d') =
      let (ts, err) := scan held n (d ++ [x0a]) in
      if err then (ts, true)
      else let (ts', err') := scan [] 0%N d' in (ts ++ ts', err').
Proof.
  induction d as [|c d IH]; intros held n.
  - cbn [app]. rewrite (scan_eq held n (x0a :: d')), (scan_eq held n [x0a]).
    destruct (maxTokenSize <=? n)%N; [reflexivity|].
    change (Byte.eqb x0a x0a) with true. cbv iota. rewrite scan_empty.
    destruct (scan [] 0%N d') as [ts' err']. reflexivity.
  - cbn [app]. rewrite (scan_eq held n (c :: (d ++ [x0a]) ++ d')),
      (scan_eq held n (c :: d ++ [x0a])).
    destruct (maxTokenSize <=? n)%N; [reflexivity|].
    destruct (Byte.eqb c x0a).
    + rewrite IH. destruct (scan [] 0%N (d ++ [x0a])) as [ts [|]]; [reflexivity|].
      destruct (scan [] 0%N d') as [ts' err']. reflexivity.
    + apply IH.
Qed.

Lemma scan_app (d d' : bytes) :
  terminated d ->
  scan [] 0%N (d ++ d') =
    let (ts, err) := scan [] 0%N d in
    if err then (ts, true)
    else let (ts', err') := scan [] 0%N d' in (ts ++ ts', err').
Proof.
  intros [->|[d0 ->]].
  - cbn [app]. rewrite scan_empty. destruct (scan [] 0%N d') as [ts' err']. reflexivity.
  - apply scan_app_newline.
Qed.

(** The scan of a line and its newline. *)
Lemma scan_line (line rest : bytes) :
  no_newline line = true ->
  forall (held : bytes) (n : N),
    scan held n (line ++ x0a :: rest) =
      if (maxTokenSize <=? n + N.of_nat (length line))%N then ([], true)
      else let (ts, err) := scan [] 0%N rest in (dropCR (rev held ++ line) :: ts, err).
Proof.
  induction line as [|a line IH]; intros Hl held n.
  - cbn [app length]. rewrite N.add_0_r, app_nil_r, scan_eq.
    destruct (maxTokenSize <=? n)%N; reflexivity.
  - cbn [no_newline forallb] in Hl. apply andb_prop in Hl as [Ha Hl].
    cbn [app]. rewrite scan_eq.
    destruct (maxTokenSize <=? n)%N eqn:Hn.
    + apply N.leb_le in Hn. rewrite (proj2 (N.leb_le _ _)) by lia. reflexivity.
    + apply negb_true_iff in Ha. rewrite Ha. rewrite (IH Hl).
      replace (n + 1 + N.of_nat (length line))%N with (n + N.of_nat (length (a :: line)))%N
        by (cbn [length]; lia).
      cbn [rev]. rewrite <- app_assoc. reflexivity.
Qed.

(** The scan of a last line that has no newline. *)
Lemma scan_last (line : bytes) :
  no_newline line = true ->
  forall (held : bytes) (n : N),
    scan held n line =
      if (maxTokenSize <=? n + N.of_nat (length line))%N then ([], true)
      else (match rev held ++ line with
            | [] => []
            | _ :: _ => [dropCR (rev held ++ line)]
            end, false).
Proof.
  induction line as [|a line IH]; intros Hl held n.
  - cbn [length]. rewrite N.add_0_r, app_nil_r, scan_eq.
    destruct (maxTokenSize <=? n)%N; [reflexivity|].
    destruct held as [|h held]; [reflexivity|].
    destruct (rev (h :: held)) eqn:E; [|reflexivity].
    apply (f_equal (@length byte)) in E. rewrite length_rev in E. discriminate E.
  - cbn [no_newline forallb] in Hl. apply andb_prop in Hl as [Ha Hl].
    rewrite scan_eq.
    destruct (maxTokenSize <=? n)%N eqn:Hn.
    + apply N.leb_le in Hn. rewrite (proj2 (N.leb_le _ _)) by lia. reflexivity.
    + apply negb_true_iff in Ha. rewrite Ha. rewrite (IH Hl).
      replace (n + 1 + N.of_nat (length line))%N with (n + N.of_nat (length (a :: line)))%N
        by (cbn [length]; lia).
      cbn [rev]. rewrite <- app_assoc. reflexivity.
Qed.

Lemma dropCR_keeps (line : bytes) : last line <> Some x0d -> dropCR line = line.
Proof.
  unfold dropCR. intros H. destruct (last line) as [b|]; [|reflexivity].
  destruct b; try reflexivity. contradiction.
Qed.

End BufioFacts.

(* ===================================================================== *)
(** * Appending and loading *)
(* ===================================================================== *)

Section LoadFacts.

Import Bufio BufioFacts.

Variable layout_parse : bytes -> bool.

Implicit Types (s : EventStore) (events : list Event).

Lemma LoadAll_lines (content : bytes) :
  LoadAll layout_parse (Opened content) =
    match load_lines layout_parse (lines content) 0 [] with
    | inr err => inr err
    | inl events => if too_long content then inr ReadError else inl events
    end.
Proof.
  unfold LoadAll, lines, too_long. destruct (scan [] 0%N content). reflexivity.
Qed.

Lemma load_lines_app (ts ts' : list bytes) :
  forall (k : nat) (evs : list Event),
    load_lines layout_parse (ts ++ ts') k evs =
      match load_lines layout_parse ts k evs with
      | inr err => inr err
      | inl evs' => load_lines layout_parse ts' (k + length ts) evs'
      end.
Proof.
  induction ts as [|line ts IH]; intros k evs.
  - cbn [app load_lines length]. rewrite Nat.add_0_r. reflexivity.
  - cbn [app load_lines length].
    replace (k + S (length ts))%nat with (S k + length ts)%nat by lia.
    destruct line as [|c line]; [apply IH|].
    destruct (DeserializeEvent layout_parse (c :: line)); [apply IH | reflexivity].
Qed.

(** A load that succeeds returns the events of the lines that are not
    blank, after those it was given. *)
Lemma load_lines_ok (ts : list bytes) :
  forall (k : nat) (evs r : list Event),
    load_lines layout_parse ts k evs = inl r <->
    exists new, r = evs ++ new /\
      Forall2 (fun line ev => DeserializeEvent layout_parse line = Some ev)
              (List.filter (fun l => negb (blank l)) ts) new.
Proof.
  induction ts as [|line ts IH]; intros k evs r.
  - cbn [load_lines List.filter]. split.
    + intros [= <-]. exists []. rewrite app_nil_r. split; [reflexivity | constructor].
    + intros (new & -> & H). inversion H. rewrite app_nil_r. reflexivity.
  - cbn [load_lines List.filter]. destruct line as [|c line]; cbn [blank negb].
    + apply IH.
    + destruct (DeserializeEvent layout_parse (c :: line)) as [ev|] eqn:Hd.
      * rewrite IH. split.
        -- intros (new & -> & H). exists (ev :: new). rewrite <- app_assoc.
           split; [reflexivity | constructor; assumption].
        -- intros (new & -> & H). inversion H as [|? ev' ? new' Hev Hrest]; subst.
           rewrite Hd in Hev. injection Hev as <-.
           exists new'. rewrite <- app_assoc. split; [reflexivity | assumption].
      * split; [discriminate|].
        intros (new & _ & H). inversion H as [|? ev' ? new' Hev Hrest]; subst.
        rewrite Hd in Hev. discriminate.
Qed.

(** A load that stops at a line names it: the line with that number, counted
    from [k], is not blank and does not deserialize. *)
Lemma load_lines_error (ts : list bytes) :
  forall (k : nat) (evs : list Event) (lineNum : nat),
    load_lines layout_parse ts k evs = inr (DeserializeError lineNum) ->
    (k < lineNum)%nat /\
    exists line, ts !! (lineNum - S k)%nat = Some line /\ blank line = false /\
      DeserializeEvent layout_parse line = None /\
      exists r, load_lines layout_parse (take (lineNum - S k) ts) k evs = inl r.
Proof.
  induction ts as [|line ts IH]; intros k evs lineNum; cbn [load_lines]; [discriminate|].
  assert (Hrec : forall evs',
    load_lines layout_parse ts (S k) evs' = inr (DeserializeError lineNum) ->
    (k < lineNum)%nat /\ (lineNum - S k = S (lineNum - S (S k)))%nat /\
    exists line', ts !! (lineNum - S (S k))%nat = Some line' /\ blank line' = false /\
      DeserializeEvent layout_parse line' = None /\
      exists r, load_lines layout_parse (take (lineNum - S (S k)) ts) (S k) evs' = inl r).
  { intros evs' H. destruct (IH _ _ _ H) as (Hlt & line' & H1 & H2 & H3 & H4).
    split; [lia|]. split; [lia|]. exists line'. auto. }
  destruct line as [|c line].
  - intros H. destruct (Hrec _ H) as (Hlt & Heq & line' & H1 & H2 & H3 & r & H4).
    split; [exact Hlt|]. rewrite Heq. exists line'. repeat split; try assumption.
    exists r. cbn [take load_lines]. exact H4.
  - destruct (DeserializeEvent layout_parse (c :: line)) as [ev|] eqn:Hd.
    + intros H. destruct (Hrec _ H) as (Hlt & Heq & line' & H1 & H2 & H3 & r & H4).
      split; [exact Hlt|]. rewrite Heq. exists line'. repeat split; try assumption.
      exists r. cbn [take load_lines]. rewrite Hd. exact H4.
    + intros [= <-]. split; [lia|]. rewrite Nat.sub_diag. exists (c :: line).
      repeat split; try assumption. exists evs. reflexivity.
Qed.

Lemma printable_no_newline (line : bytes) :
  forallb printable line = true -> no_newline line = true.
Proof.
  unfold no_newline. induction line as [|b line IH]; [reflexivity|].
  cbn [forallb]. intros H. apply andb_prop in H as [Hb Hl]. rewrite (IH Hl), andb_true_r.
  destruct b; try reflexivity. discriminate Hb.
Qed.

Lemma printable_last (line : bytes) :
  forallb printable line = true -> last line <> Some x0d.
Proof.
  induction line as [|b line IH]; [discriminate|].
  cbn [forallb]. intros H. apply andb_prop in H as [Hb Hl].
  destruct line as [|b' line].
  - cbn. intros [= ->]. discriminate Hb.
  - change (last (b :: b' :: line)) with (last (b' :: line)). apply IH, Hl.
Qed.

(** One more line at the end of a file whose lines are complete. *)
Lemma LoadAll_line (d line : bytes) (stored : list Event) (ev : Event) :
  terminated d ->
  LoadAll layout_parse (Opened d) = inl stored ->
  reads_back layout_parse line ev ->
  too_long (d ++ line ++ [x0a]) = false ->
  LoadAll layout_parse (Opened (d ++ line ++ [x0a])) = inl (stored ++ [ev]).
Proof.
  intros Hd Hload (Hdes & Hpr & Hne) Hlong.
  rewrite LoadAll_lines in Hload.
  destruct (load_lines layout_parse (lines d) 0 []) as [evs|] eqn:Hl; [|discriminate].
  destruct (too_long d) eqn:Hld; [discriminate|]. injection Hload as ->.
  rewrite LoadAll_lines. rewrite Hlong.
  unfold too_long in Hlong, Hld. unfold lines in *.
  rewrite (scan_app d _ Hd) in Hlong |- *.
  destruct (scan [] 0%N d) as [ts err]. cbn [snd fst] in Hld, Hl. subst err.
  rewrite (scan_line line [] (printable_no_newline _ Hpr) [] 0%N) in Hlong |- *.
  destruct (maxTokenSize <=? 0 + N.of_nat (length line))%N; [discriminate Hlong|].
  rewrite scan_empty. cbn [fst rev app].
  rewrite (dropCR_keeps _ (printable_last _ Hpr)).
  rewrite load_lines_app, Hl. cbn [load_lines].
  destruct line as [|c line]; [contradiction|]. rewrite Hdes. reflexivity.
Qed.

Lemma load_lines_blank (ts : list bytes) :
  forall (k : nat) (evs : list Event),
    load_lines layout_parse (ts ++ [[]]) k evs = load_lines layout_parse ts k evs.
Proof.
  intros k evs. rewrite load_lines_app.
  destruct (load_lines layout_parse ts k evs); reflexivity.
Qed.

Lemma terminated_line (d line : bytes) : terminated (d ++ line ++ [x0a]).
Proof. right. exists (d ++ line). rewrite <- app_assoc. reflexivity. Qed.

Lemma too_long_prefix (d d' : bytes) :
  terminated d -> too_long (d ++ d') = false -> too_long d = false.
Proof.
  unfold too_long. intros Hd H. rewrite (scan_app d d' Hd) in H.
  destruct (scan [] 0%N d) as [ts [|]]; [discriminate H | reflexivity].
Qed.

Lemma batch_text_terminated (c : nat -> GoTime.t) (events : list Event) :
  forall (k : nat) (d text : bytes),
    batch_text c k events = Some text -> terminated d -> terminated (d ++ text).
Proof.
  induction events as [|ev events IH]; intros k d text Ht Hd.
  - injection Ht as <-. rewrite app_nil_r. exact Hd.
  - cbn [batch_text] in Ht.
    destruct (SerializeEvent (c k) ev) as [line|]; [|discriminate].
    destruct (batch_text c (S k) events) as [tail|] eqn:Htail; [|discriminate].
    injection Ht as <-.
    assert (Heq : d ++ line ++ x0a :: tail = (d ++ line ++ [x0a]) ++ tail)
      by (rewrite <- !app_assoc; reflexivity).
    cbn [app]. rewrite Heq. apply (IH (S k) _ tail Htail), terminated_line.
Qed.

(** The text of a batch at the end of a file whose lines are complete. *)
Lemma LoadAll_batch_text (c : nat -> GoTime.t) (events : list Event) :
  forall (k : nat) (d text : bytes) (stored : list Event),
    batch_text c k events = Some text ->
    (forall (j : nat) ev line,
       events !! j = Some ev -> SerializeEvent (c (k + j)%nat) ev = Some line ->
       reads_back layout_parse line ev) ->
    terminated d ->
    LoadAll layout_parse (Opened d) = inl stored ->
    too_long (d ++ text) = false ->
    terminated (d ++ text) /\
    LoadAll layout_parse (Opened (d ++ text)) = inl (stored ++ events).
Proof.
  induction events as [|ev events IH]; intros k d text stored Ht Hback Hd Hload Hlong.
  - injection Ht as <-. rewrite !app_nil_r. split; assumption.
  - cbn [batch_text] in Ht.
    destruct (SerializeEvent (c k) ev) as [line|] eqn:Hser; [|discriminate].
    destruct (batch_text c (S k) events) as [tail|] eqn:Htail; [|discriminate].
    injection Ht as <-.
    assert (Hrb : reads_back layout_parse line ev).
    { apply (Hback 0%nat); [reflexivity|]. rewrite Nat.add_0_r. exact Hser. }
    assert (Heq : d ++ line ++ x0a :: tail = (d ++ line ++ [x0a]) ++ tail)
      by (rewrite <- !app_assoc; reflexivity).
    cbn [app] in Hlong |- *. rewrite Heq in Hlong |- *.
    pose proof (terminated_line d line) as Hd'.
    pose proof (too_long_prefix _ _ Hd' Hlong) as Hlong'.
    pose proof (LoadAll_line d line stored ev Hd Hload Hrb Hlong') as Hload'.
    destruct (IH (S k) (d ++ line ++ [x0a]) tail (stored ++ [ev]) Htail) as [H1 H2];
      try assumption.
    + intros j ev' line' Hj Hs. apply (Hback (S j)); [exact Hj|].
      replace (k + S j)%nat with (S k + j)%nat by lia. exact Hs.
    + split; [exact H1|]. rewrite H2, <- app_assoc. reflexivity.
Qed.

(** On a store whose calls go through, a batch that serializes is written
    whole and synced. *)
Lemma append_events_text (events : list Event) :
  forall s (text : bytes),
    faults s = [] ->
    batch_text (clock s) (ticks s) events = Some text ->
    append_events events s =
      (None, {| file := file s ++ text; synced := synced s; clock := clock s;
                ticks := (ticks s + length events)%nat; faults := [] |}).
Proof.
  induction events as [|ev events IH]; intros s text Hf Ht.
  - injection Ht as <-. cbn [append_events length]. rewrite app_nil_r, Nat.add_0_r.
    destruct s; cbn in *; subst; reflexivity.
  - cbn [batch_text] in Ht. cbn [append_events time_Now].
    destruct (SerializeEvent (clock s (ticks s)) ev) as [line|]; [|discriminate].
    destruct (batch_text (clock s) (S (ticks s)) events) as [tail|] eqn:Htail; [|discriminate].
    injection Ht as <-.
    rewrite file_Write_ok by exact Hf.
    rewrite (IH _ tail) by (cbn; first [reflexivity | exact Htail]).
    cbn [file synced clock ticks length].
    rewrite <- !app_assoc. replace (S (ticks s) + length events)%nat
      with (ticks s + S (length events))%nat by lia. reflexivity.
Qed.

Lemma AppendBatch_text (events : list Event) s (text : bytes) :
  faults s = [] ->
  batch_text (clock s) (ticks s) events = Some text ->
  AppendBatch events s =
    (None, {| file := file s ++ text; synced := length (file s ++ text); clock := clock s;
              ticks := (ticks s + length events)%nat; faults := [] |}).
Proof.
  intros Hf Ht. unfold AppendBatch. rewrite (append_events_text events s text Hf Ht).
  reflexivity.
Qed.

(** A batch that was appended without an error serialized at every
    position, and its text is in the file, synced. *)
Lemma append_events_success (events : list Event) :
  forall s s',
    append_events events s = (None, s') ->
    exists text, batch_text (clock s) (ticks s) events = Some text /\
      file s' = file s ++ text /\ clock s' = clock s /\
      ticks s' = (ticks s + length events)%nat /\ synced s' = synced s.
Proof.
  induction events as [|ev events IH]; intros s s' H.
  - injection H as <-. exists []. cbn [batch_text length].
    rewrite app_nil_r, Nat.add_0_r. auto.
  - cbn [append_events time_Now] in H. cbn [batch_text].
    destruct (SerializeEvent (clock s (ticks s)) ev) as [line|]; [|discriminate].
    destruct (file_Write (line ++ [x0a]) _) as [ok s1] eqn:Hw.
    destruct ok; [|discriminate].
    assert (Hs1 : file s1 = file s ++ line ++ [x0a] /\ clock s1 = clock s /\
                  ticks s1 = S (ticks s) /\ synced s1 = synced s).
    { unfold file_Write in Hw. cbn [faults file synced clock ticks] in Hw.
      destruct (faults s) as [|[|n] rest]; try discriminate Hw; injection Hw as <-;
        cbn; auto. }
    destruct Hs1 as (Hf1 & Hc1 & Ht1 & Hy1).
    destruct (IH _ _ H) as (tail & Htail & Hf & Hc & Ht & Hy).
    rewrite Hc1, Ht1 in Htail. rewrite Htail.
    exists (line ++ [x0a] ++ tail). split; [reflexivity|].
    rewrite Hf, Hf1, Hc, Hc1, Ht, Ht1, Hy, Hy1, <- !app_assoc. cbn [length].
    repeat split; try reflexivity. lia.
Qed.

Lemma Append_batch (event : Event) s : Append event s = AppendBatch [event] s.
Proof.
  unfold Append, AppendBatch. cbn [append_events].
  destruct (time_Now s) as [now s1].
  destruct (SerializeEvent now event); [|reflexivity].
  destruct (file_Write _ s1) as [[|] s2]; reflexivity.
Qed.

Lemma file_Write_prefix (data : bytes) s : file s `prefix_of` file (snd (file_Write data s)).
Proof.
  unfold file_Write. destruct (faults s) as [|[|n] rest]; cbn [snd file];
    apply prefix_app_r; reflexivity.
Qed.

Lemma append_events_prefix (events : list Event) :
  forall s, file s `prefix_of` file (snd (append_events events s)).
Proof.
  induction events as [|ev events IH]; intros s; [reflexivity|].
  cbn [append_events time_Now].
  destruct (SerializeEvent (clock s (ticks s)) ev) as [line|]; [|reflexivity].
  match goal with |- context [file_Write ?d ?x] =>
    pose proof (file_Write_prefix d x) as Hp; destruct (file_Write d x) as [ok s1] end.
  cbn [snd file] in Hp. destruct ok; [|exact Hp].
  etransitivity; [exact Hp | apply IH].
Qed.

End LoadFacts.

(* ===================================================================== *)
(** * The lines the codec writes *)
(* ===================================================================== *)

Module LineFacts.
Import Utf8 Utf8Facts Strconv StrconvFacts Json JsonStringFacts CompactFacts TimeFacts
       ParseFacts MarshalFacts.
Local Open Scope N_scope.

Lemma htmlSafe_printable (b : byte) : htmlSafe b = true -> printable b = true.
Proof. destruct b; intros H; try discriminate H; reflexivity. Qed.

Lemma safe_printable (l : bytes) : forallb htmlSafe l = true -> forallb printable l = true.
Proof.
  intros H. rewrite forallb_forall in H |- *. intros x Hx. apply htmlSafe_printable, H, Hx.
Qed.

Lemma escape_printable (b : byte) :
  (b2n b <? 0x80) = true -> forallb printable (escape b) = true.
Proof. destruct b; intros H; try discriminate H; reflexivity. Qed.

Lemma hex_printable (n : N) : printable (hex n) = true.
Proof.
  unfold hex. destruct (N.to_nat n) as [|k]; [reflexivity|].
  do 15 (destruct k as [|k]; [reflexivity|]). cbn. destruct k; reflexivity.
Qed.

Lemma high_printable (b : byte) : 0x80 <= b2n b -> printable b = true.
Proof. unfold printable. intros H. apply N.leb_le. lia. Qed.

Lemma forallb_app_true {A} (p : A -> bool) (l1 l2 : list A) :
  forallb p l1 = true -> forallb p l2 = true -> forallb p (l1 ++ l2) = true.
Proof. intros H1 H2. rewrite forallb_app, H1, H2. reflexivity. Qed.

(** [appendString] writes no control byte, whatever the string. *)
Lemma appendString_go_printable (fuel : nat) :
  forall s : bytes, forallb printable (appendString_go fuel s) = true.
Proof.
  induction fuel as [|fuel IH]; intros s; [reflexivity|].
  destruct s as [|b s]; [reflexivity|].
  cbn [appendString_go]. destruct (b2n b <? 0x80) eqn:Hb.
  - apply forallb_app_true; [|apply IH].
    destruct (htmlSafe b) eqn:Hs.
    + cbn [forallb]. rewrite (htmlSafe_printable b Hs). reflexivity.
    + apply escape_printable, Hb.
  - destruct (DecodeRune (b :: s)) as [c size] eqn:Hd.
    destruct ((c =? RuneError) && (size =? 1)%nat) eqn:Hill.
    + apply forallb_app_true; [reflexivity | apply IH].
    + destruct ((c =? 0x2028) || (c =? 0x2029)) eqn:Hsep.
      * apply forallb_app_true; [|apply IH].
        cbn [forallb]. rewrite hex_printable. reflexivity.
      * apply forallb_app_true; [|apply IH].
        apply N.ltb_ge in Hb.
        destruct (DecodeRune_well_formed b s c size Hb Hd) as (Hsz & _ & _ & _ & Hcont).
        { unfold ill_formed. rewrite Hd. exact Hill. }
        destruct size as [|n]; [lia|]. cbn [take forallb].
        rewrite (high_printable b Hb). cbn [andb].
        replace (S n - 1)%nat with n in Hcont by lia.
        rewrite forallb_forall. intros x Hx. apply high_printable.
        rewrite List.Forall_forall in Hcont. apply (Hcont x Hx).
Qed.

Lemma appendString_printable (s : bytes) : forallb printable (appendString s) = true.
Proof.
  unfold appendString. apply forallb_app_true; [reflexivity|].
  apply forallb_app_true; [apply appendString_go_printable | reflexivity].
Qed.

Lemma is_digit_printable (b : byte) : is_digit b = true -> printable b = true.
Proof. destruct b; intros H; try discriminate H; reflexivity. Qed.

Lemma FormatInt_printable (i : Z) : forallb printable (FormatInt i) = true.
Proof.
  assert (Hd : forall n, forallb printable (FormatUint n) = true).
  { intros n. destruct (FormatUint_spec n) as (Hall & _).
    rewrite forallb_forall in Hall |- *. intros x Hx. apply is_digit_printable, Hall, Hx. }
  unfold FormatInt. destruct (i <? 0)%Z; [cbn [forallb]; rewrite Hd; reflexivity | apply Hd].
Qed.

Lemma object3_printable (k1 t1 k2 t2 k3 t3 : bytes) :
  forallb printable t1 = true -> forallb printable t2 = true ->
  forallb printable t3 = true ->
  forallb printable (object3 k1 t1 k2 t2 k3 t3) = true.
Proof.
  intros H1 H2 H3. unfold object3.
  repeat (apply forallb_app_true;
          [first [reflexivity | apply appendString_printable | assumption]|]).
  reflexivity.
Qed.

End LineFacts.

Section LineOfEvent.

Import Utf8 Utf8Facts Strconv StrconvFacts Json JsonStringFacts CompactFacts TimeFacts
       ParseFacts MarshalFacts LineFacts.
Local Open Scope N_scope.

Variable layout_parse : bytes -> bool.

(** The envelope around a payload: its text, which reads back to the three
    fields and holds no control byte. *)
Lemma envelope_line (now : GoTime.t) (tag : string) (payload : bytes)
    (fields : list (string * content)) (schema : list (string * kind))
    (decoded : list field) :
  GoTime.wf now -> (0 <= GoTime.year now <= 9999)%Z ->
  ValidString tag = true ->
  wire layout_parse fields schema decoded payload ->
  forallb printable payload = true ->
  exists data,
    Marshal [("type", CString tag); ("timestamp", CTime now);
             ("data", CRawMessage payload)] = Some data /\
    Unmarshal layout_parse EventEnvelope_schema data =
      Some [FString tag; FTime; FRawMessage payload] /\
    forallb printable data = true /\ data <> [].
Proof.
  intros Hwf Hy Htag [_ [vp Hpp] Hpc Hlen _] Hprint.
  destruct (MarshalJSON_spec now Hwf Hy) as (b & Hmar & Hsafe & Hrfc).
  destruct (appendString_safe b Hsafe) as [Hts Hvb].
  assert (Hpts : forall d, parses 1 d ([x22] ++ b ++ [x22]) (JString b))
    by (intros d; rewrite <- Hts; apply parses_string, Hvb).
  assert (Hcts : compact ([x22] ++ b ++ [x22]) = Some ([x22] ++ b ++ [x22])).
  { apply (compact_of 1 0 _ (JString b)); [apply Hpts | lia |].
    rewrite <- Hts. apply compacts_appendString. }
  assert (Hcp : compact payload = Some payload).
  { apply (compact_of 5 1 _ vp Hpp); [lia | exact Hpc]. }
  exists (object3 (str "type") (appendString (str tag))
                  (str "timestamp") ([x22] ++ b ++ [x22]) (str "data") payload).
  split; [|split; [|split]].
  - apply Marshal3; [reflexivity | cbn [marshal_content]; rewrite Hmar; exact Hcts |].
    destruct payload as [|c tl]; [simpl in Hlen; lia|]. exact Hcp.
  - assert (Hp : parses 9 0
       (object3 (str "type") (appendString (str tag))
                (str "timestamp") ([x22] ++ b ++ [x22]) (str "data") payload)
       (JObject [(str "type", appendString (str tag), JString (str tag));
                (str "timestamp", [x22] ++ b ++ [x22], JString b);
                (str "data", payload, vp)])).
    { apply (parses_object3 5 0); try reflexivity.
      - apply (parses_weaken 1 5 1 1); [apply parses_string, Htag | lia | lia].
      - apply (parses_weaken 1 5 1 1); [apply Hpts | lia | lia].
      - exact Hpp. }
    unfold Unmarshal. rewrite (parse_of_parses _ _ _ _ Hp)
      by (pose proof (length_object3 (str "type") (appendString (str tag))
            (str "timestamp") ([x22] ++ b ++ [x22]) (str "data") payload); lia).
    apply decode_envelope, UnmarshalJSON_quoted, Hrfc.
  - apply object3_printable; [apply appendString_printable | | exact Hprint].
    rewrite <- Hts. apply appendString_printable.
  - discriminate.
Qed.

(** The line of an event: written, read back as the event, and free of
    control bytes. *)
Lemma SerializeEvent_reads_back (now : GoTime.t) (e : Event) :
  GoTime.wf now -> (0 <= GoTime.year now <= 9999)%Z -> well_formed_event e ->
  exists line, SerializeEvent now e = Some line /\ reads_back layout_parse line e.
Proof.
  intros Hwf Hy He. unfold reads_back, SerializeEvent, DeserializeEvent.
  destruct e as [t a m|t a m|t f r]; cbn [well_formed_event] in He;
    destruct He as (H1 & H2 & H3).
  - pose proof (wire_transfer layout_parse t a m MoneyDeducted_schema eq_refl H1 H2 H3) as Hw.
    destruct (envelope_line now EventTypeMoneyDeducted _ _ _ _ Hwf Hy eq_refl Hw)
      as (data & Hmar & Hun & Hpr & Hne).
    { apply object3_printable;
        first [apply appendString_printable | apply FormatInt_printable]. }
    exists data. cbn [Marshal_event GetType]. rewrite (wire_marshal _ _ _ _ _ Hw).
    split; [exact Hmar|]. split; [|split; assumption]. rewrite Hun.
    change (String.eqb EventTypeMoneyDeducted EventTypeMoneyDeducted) with true.
    cbv iota. rewrite (wire_unmarshal _ _ _ _ _ Hw). reflexivity.
  - pose proof (wire_transfer layout_parse t a m MoneyCredited_schema eq_refl H1 H2 H3) as Hw.
    destruct (envelope_line now EventTypeMoneyCredited _ _ _ _ Hwf Hy eq_refl Hw)
      as (data & Hmar & Hun & Hpr & Hne).
    { apply object3_printable;
        first [apply appendString_printable | apply FormatInt_printable]. }
    exists data. cbn [Marshal_event GetType]. rewrite (wire_marshal _ _ _ _ _ Hw).
    split; [exact Hmar|]. split; [|split; assumption]. rewrite Hun.
    change (String.eqb EventTypeMoneyCredited EventTypeMoneyDeducted) with false.
    change (String.eqb EventTypeMoneyCredited EventTypeMoneyCredited) with true.
    cbv iota. rewrite (wire_unmarshal _ _ _ _ _ Hw). reflexivity.
  - pose proof (wire_failed layout_parse t f r H1 H2 H3) as Hw.
    destruct (envelope_line now EventTypeTransactionFailed _ _ _ _ Hwf Hy eq_refl Hw)
      as (data & Hmar & Hun & Hpr & Hne).
    { apply object3_printable; apply appendString_printable. }
    exists data. cbn [Marshal_event GetType]. rewrite (wire_marshal _ _ _ _ _ Hw).
    split; [exact Hmar|]. split; [|split; assumption]. rewrite Hun.
    change (String.eqb EventTypeTransactionFailed EventTypeMoneyDeducted) with false.
    change (String.eqb EventTypeTransactionFailed EventTypeMoneyCredited) with false.
    change (String.eqb EventTypeTransactionFailed EventTypeTransactionFailed) with true.
    cbv iota. rewrite (wire_unmarshal _ _ _ _ _ Hw). reflexivity.
Qed.

(** An envelope whose type is none of the three is refused. *)
Lemma unknown_type_refused (now : GoTime.t) (tag : string) (e : Event) (payload data : bytes) :
  GoTime.wf now -> (0 <= GoTime.year now <= 9999)%Z -> well_formed_event e ->
  ValidString tag = true ->
  tag <> EventTypeMoneyDeducted -> tag <> EventTypeMoneyCredited ->
  tag <> EventTypeTransactionFailed ->
  Marshal_event e = Some payload ->
  Marshal [("type", CString tag); ("timestamp", CTime now);
           ("data", CRawMessage payload)] = Some data ->
  DeserializeEvent layout_parse data = None.
Proof.
  intros Hwf Hy He Htag N1 N2 N3 Hpay Hdata.
  assert (Hw : exists fields schema decoded,
             wire layout_parse fields schema decoded payload /\
             forallb printable payload = true).
  { destruct e as [t a m|t a m|t f r]; cbn [well_formed_event] in He;
      destruct He as (H1 & H2 & H3); cbn [Marshal_event] in Hpay.
    - pose proof (wire_transfer layout_parse t a m MoneyDeducted_schema eq_refl H1 H2 H3) as Hw.
      rewrite (wire_marshal _ _ _ _ _ Hw) in Hpay. injection Hpay as <-.
      do 3 eexists. split; [exact Hw|].
      apply object3_printable;
        first [apply appendString_printable | apply FormatInt_printable].
    - pose proof (wire_transfer layout_parse t a m MoneyDeducted_schema eq_refl H1 H2 H3) as Hw.
      rewrite (wire_marshal _ _ _ _ _ Hw) in Hpay. injection Hpay as <-.
      do 3 eexists. split; [exact Hw|].
      apply object3_printable;
        first [apply appendString_printable | apply FormatInt_printable].
    - pose proof (wire_failed layout_parse t f r H1 H2 H3) as Hw.
      rewrite (wire_marshal _ _ _ _ _ Hw) in Hpay. injection Hpay as <-.
      do 3 eexists. split; [exact Hw|].
      apply object3_printable; apply appendString_printable. }
  destruct Hw as (fields & schema & decoded & Hw & Hpr).
  destruct (envelope_line now tag _ _ _ _ Hwf Hy Htag Hw Hpr) as (data' & Hmar & Hun & _).
  rewrite Hmar in Hdata. injection Hdata as <-.
  unfold DeserializeEvent. rewrite Hun.
  destruct (String.eqb_spec tag EventTypeMoneyDeducted); [contradiction|].
  destruct (String.eqb_spec tag EventTypeMoneyCredited); [contradiction|].
  destruct (String.eqb_spec tag EventTypeTransactionFailed); [contradiction|].
  reflexivity.
Qed.

(** Outside the years 0 to 9999 no event is serialized. *)
Lemma SerializeEvent_year (now : GoTime.t) (e : Event) :
  GoTime.MarshalJSON now = None -> SerializeEvent now e = None.
Proof.
  intros H. unfold SerializeEvent. destruct (Marshal_event e) as [data|]; [|reflexivity].
  cbn [Marshal marshal_fields marshal_content]. rewrite H. reflexivity.
Qed.

End LineOfEvent.

(* ===================================================================== *)
(** * The year of the clock *)
(* ===================================================================== *)

Module YearFacts.
Import Utf8 Utf8Facts Strconv StrconvFacts Json TimeFacts GoTime.
Local Open Scope N_scope.

Lemma digits_value_bound (l : bytes) :
  forall acc n, digits_value acc l = Some n -> n < (acc + 1) * 10 ^ N.of_nat (length l).
Proof.
  induction l as [|c l IH]; intros acc n H.
  - injection H as <-. cbn [length]. change (10 ^ N.of_nat 0) with 1. lia.
  - cbn [digits_value] in H. destruct (is_digit c) eqn:Hc; [|discriminate].
    apply is_digit_spec in Hc. apply IH in H.
    replace (N.of_nat (length (c :: l))) with (N.succ (N.of_nat (length l)))
      by (cbn [length]; lia).
    rewrite N.pow_succ_r'. nia.
Qed.

Lemma FormatUint_long (n : N) : 10000 <= n -> (5 <= length (FormatUint n))%nat.
Proof.
  intros Hn. destruct (FormatUint_spec n) as (_ & Hv & _).
  apply digits_value_bound in Hv.
  destruct (Nat.le_gt_cases 5 (length (FormatUint n))) as [|Hlt]; [assumption|].
  exfalso. assert (Hp : 10 ^ N.of_nat (length (FormatUint n)) <= 10 ^ 4)
    by (apply N.pow_le_mono_r; lia).
  change (10 ^ 4) with 10000 in Hp. lia.
Qed.

Lemma pad_digits (w : nat) (n : N) :
  forallb is_digit (pad w (FormatUint n)) = true /\ (w <= length (pad w (FormatUint n)))%nat /\
  (length (FormatUint n) <= length (pad w (FormatUint n)))%nat.
Proof.
  destruct (FormatUint_spec n) as (Hd & _). unfold pad.
  rewrite forallb_app, Hd, forallb_repeat by reflexivity.
  rewrite length_app, repeat_length. repeat split; lia.
Qed.

Lemma nth_error_digit (l rest : bytes) (i : nat) :
  forallb is_digit l = true -> (i < length l)%nat ->
  exists d, nth_error (l ++ rest) i = Some d /\ is_digit d = true.
Proof.
  intros Hd Hi. rewrite nth_error_app1 by exact Hi.
  destruct (nth_error l i) as [d|] eqn:E.
  - exists d. split; [reflexivity|]. rewrite forallb_forall in Hd.
    apply Hd. eapply nth_error_In, E.
  - apply nth_error_None in E. lia.
Qed.

(** [MarshalJSON] refuses a year that does not take four digits. *)
Lemma MarshalJSON_year (x : GoTime.t) :
  (year x < 0 \/ 9999 < year x)%Z -> MarshalJSON x = None.
Proof.
  intros Hy. unfold MarshalJSON, appendFormatRFC3339.
  match goal with |- context [appendInt (year x) 4 ++ ?r] => generalize r end.
  intros rest.
  assert (H : exists d, nth_error (appendInt (year x) 4 ++ rest) 4 = Some d /\
                        is_digit d = true).
  { unfold appendInt. destruct (Z.ltb_spec (year x) 0) as [Hneg|Hpos].
    - destruct (pad_digits 4 (Z.to_N (- year x))) as (Hd & Hw & _).
      change (nth_error ((x2d :: pad 4 (FormatUint (Z.to_N (- year x)))) ++ rest) 4)
        with (nth_error (pad 4 (FormatUint (Z.to_N (- year x))) ++ rest) 3).
      apply nth_error_digit; [exact Hd | lia].
    - destruct (pad_digits 4 (Z.to_N (year x))) as (Hd & _ & Hl).
      pose proof (FormatUint_long (Z.to_N (year x)) ltac:(lia)).
      apply nth_error_digit; [exact Hd | lia]. }
  destruct H as (d & -> & Hd). destruct d; try discriminate Hd; reflexivity.
Qed.

End YearFacts.

(** X10. Whatever the event, [SerializeEvent] returns an error when the
    year of the clock is below 0 or above 9999. *)
Theorem SerializeEvent_fails_outside_years (now : GoTime.t) (e : Event) :
  GoTime.year now < 0 \/ 9999 < GoTime.year now -> SerializeEvent now e = None.
Proof.
  intros Hy. apply SerializeEvent_year, YearFacts.MarshalJSON_year, Hy.
Qed.

Lemma SerializeEvent_fails_outside_years_witness :
  SerializeEvent (clock_rollover 1) (TransactionFailed "txn-2" "charlie" "insufficient funds")
    = None.
Proof.
  apply SerializeEvent_fails_outside_years. right. vm_compute. reflexivity.
Defined.

(** X11. Every line [SerializeEvent] writes for an event with strings in
    UTF-8, at a reading of the clock within the years 0 to 9999, is a
    single line: it holds no byte below the space, so no line feed and no
    carriage return, and it is not empty. *)
Theorem SerializeEvent_single_line (now : GoTime.t) (e : Event) (line : bytes) :
  GoTime.wf now -> 0 <= GoTime.year now <= 9999 -> well_formed_event e ->
  SerializeEvent now e = Some line ->
  forallb printable line = true /\ no_newline line = true /\ line <> [].
Proof.
  intros Hwf Hy He Hs.
  destruct (SerializeEvent_reads_back (fun _ => false) now e Hwf Hy He)
    as (line' & Hs' & _ & Hpr & Hne).
  rewrite Hs in Hs'. injection Hs' as <-.
  split; [exact Hpr|]. split; [apply printable_no_newline, Hpr | exact Hne].
Qed.

Lemma SerializeEvent_single_line_witness :
  let e := TransactionFailed "txn-2" (unstr [x61; x0a; x62]) "insufficient funds" in
  exists line,
    SerializeEvent clock0 e = Some line /\
    forallb printable line = true /\ no_newline line = true /\ line <> [].
Proof.
  intros e.
  destruct (SerializeEvent clock0 e) as [line|] eqn:Hs; [|vm_compute in Hs; discriminate Hs].
  exists line. split; [reflexivity|].
  apply (SerializeEvent_single_line clock0 e line); [| | |exact Hs].
  - unfold GoTime.wf. vm_compute. intuition discriminate.
  - simpl. lia.
  - repeat split; reflexivity.
Defined.

(** X12. An envelope whose [type] is none of the three event types is
    refused by [DeserializeEvent], whatever event its payload holds. *)
Theorem DeserializeEvent_unknown_type (layout_parse : bytes -> bool) (now : GoTime.t)
    (tag : string) (e : Event) (payload data : bytes) :
  GoTime.wf now -> 0 <= GoTime.year now <= 9999 -> well_formed_event e ->
  Utf8.ValidString tag = true ->
  tag <> EventTypeMoneyDeducted -> tag <> EventTypeMoneyCredited ->
  tag <> EventTypeTransactionFailed ->
  Marshal_event e = Some payload ->
  Json.Marshal [("type", Json.CString tag); ("timestamp", Json.CTime now);
                ("data", Json.CRawMessage payload)] = Some data ->
  DeserializeEvent layout_parse data = None.
Proof. apply unknown_type_refused. Qed.

Lemma DeserializeEvent_unknown_type_witness :
  exists payload data,
    Marshal_event (MoneyDeducted "txn-1" "alice" 100) = Some payload /\
    Json.Marshal [("type", Json.CString "MoneyRefunded"); ("timestamp", Json.CTime clock0);
                  ("data", Json.CRawMessage payload)] = Some data /\
    DeserializeEvent (fun _ => false) data = None.
Proof.
  destruct (Marshal_event (MoneyDeducted "txn-1" "alice" 100)) as [payload|] eqn:Hp;
    [|vm_compute in Hp; discriminate Hp].
  destruct (Json.Marshal [("type", Json.CString "MoneyRefunded");
                          ("timestamp", Json.CTime clock0);
                          ("data", Json.CRawMessage payload)]) as [data|] eqn:Hd.
  2:{ vm_compute in Hp. injection Hp as <-. vm_compute in Hd. discriminate Hd. }
  exists payload, data. split; [reflexivity|]. split; [exact Hd|].
  apply (DeserializeEvent_unknown_type (fun _ => false) clock0 "MoneyRefunded"
           (MoneyDeducted "txn-1" "alice" 100) payload data).
  - unfold GoTime.wf. vm_compute. intuition discriminate.
  - simpl. lia.
  - simpl. repeat split; try reflexivity; lia.
  - reflexivity.
  - discriminate.
  - discriminate.
  - discriminate.
  - exact Hp.
  - exact Hd.
Defined.

(* ===================================================================== *)
(** * The store: what is appended is what is loaded *)
(* ===================================================================== *)

Section StoreRoundTrip.

Variable layout_parse : bytes -> bool.

Implicit Types (s : EventStore) (events : list Event).

Lemma batch_text_total (c : nat -> GoTime.t) (events : list Event) :
  clock_in_range c -> Forall well_formed_event events ->
  forall k : nat, exists text, batch_text c k events = Some text.
Proof.
  intros Hc Hev. induction Hev as [|ev events Hwf _ IH]; intros k.
  - exists []. reflexivity.
  - destruct (Hc k) as [Hw Hy].
    destruct (SerializeEvent_reads_back layout_parse (c k) ev Hw Hy Hwf) as (line & Hs & _).
    destruct (IH (S k)) as (tail & Ht).
    exists (line ++ [x0a] ++ tail). cbn [batch_text]. rewrite Hs, Ht. reflexivity.
Qed.

Lemma batch_reads_back (c : nat -> GoTime.t) (events : list Event) (k : nat) :
  clock_in_range c -> Forall well_formed_event events ->
  forall (j : nat) ev line,
    events !! j = Some ev -> SerializeEvent (c (k + j)%nat) ev = Some line ->
    reads_back layout_parse line ev.
Proof.
  intros Hc Hev j ev line Hj Hs.
  rewrite List.Forall_forall in Hev. pose proof (Hev ev (lookup_In _ _ _ Hj)) as Hwf.
  destruct (Hc (k + j)%nat) as [Hw Hy].
  destruct (SerializeEvent_reads_back layout_parse _ ev Hw Hy Hwf) as (line' & Hs' & Hrb).
  rewrite Hs in Hs'. injection Hs' as <-. exact Hrb.
Qed.

(** A batch on a store whose calls go through. *)
Lemma AppendBatch_healthy events s (stored : list Event) :
  faults s = [] ->
  clock_in_range (clock s) ->
  Forall well_formed_event events ->
  exists text,
    AppendBatch events s =
      (None, {| file := file s ++ text; synced := length (file s ++ text);
                clock := clock s; ticks := (ticks s + length events)%nat; faults := [] |}) /\
    (terminated (file s) -> terminated (file s ++ text)) /\
    (terminated (file s) ->
     LoadAll layout_parse (Opened (file s)) = inl stored ->
     Bufio.too_long (file s ++ text) = false ->
     terminated (file s ++ text) /\
     LoadAll layout_parse (Opened (file s ++ text)) = inl (stored ++ events)).
Proof.
  intros Hf Hc Hev.
  destruct (batch_text_total (clock s) events Hc Hev (ticks s)) as (text & Ht).
  exists text. split; [apply AppendBatch_text; assumption|].
  split; [apply (batch_text_terminated _ _ _ _ _ Ht)|].
  intros Hd Hload Hlong.
  apply (LoadAll_batch_text layout_parse (clock s) events (ticks s)); try assumption.
  apply batch_reads_back; assumption.
Qed.

End StoreRoundTrip.

(** X13. What [AppendBatch] appends, [LoadAll] loads. On a store whose
    writes and syncs go through and whose clock stays within the years 0 to
    9999, a batch of events with strings in UTF-8 is appended without an
    error; if the file ended with a complete line and loaded as [stored],
    and no line of the new file reaches the 1 MiB the scanner can hold,
    the new file loads as [stored] followed by the batch. *)
Theorem AppendBatch_then_LoadAll (layout_parse : bytes -> bool) (events : list Event)
    (s : EventStore) (stored : list Event) :
  faults s = [] ->
  clock_in_range (clock s) ->
  Forall well_formed_event events ->
  terminated (file s) ->
  LoadAll layout_parse (Opened (file s)) = inl stored ->
  Bufio.too_long (file (snd (AppendBatch events s))) = false ->
  fst (AppendBatch events s) = None /\
  LoadAll layout_parse (Opened (file (snd (AppendBatch events s)))) = inl (stored ++ events).
Proof.
  intros Hf Hc Hev Hd Hload Hlong.
  destruct (AppendBatch_healthy layout_parse events s stored Hf Hc Hev) as (text & Ha & _ & Hl).
  rewrite Ha in Hlong |- *. cbn [fst snd file] in Hlong |- *.
  split; [reflexivity|]. apply Hl; assumption.
Qed.

Lemma AppendBatch_then_LoadAll_witness :
  let events := [MoneyDeducted "txn-1" "a" 50; MoneyCredited "txn-1" "b" 50] in
  let s := empty_store (fun _ => clock0) in
  fst (AppendBatch events s) = None /\
  LoadAll (fun _ => false) (Opened (file (snd (AppendBatch events s)))) = inl ([] ++ events).
Proof.
  intros events s. apply (AppendBatch_then_LoadAll (fun _ => false) events s []).
  - reflexivity.
  - intros i. split; [unfold GoTime.wf; vm_compute; intuition discriminate | simpl; lia].
  - repeat constructor; simpl; lia.
  - left. reflexivity.
  - reflexivity.
  - vm_compute. reflexivity.
Defined.

(** X14. What [Append] appends, [LoadAll] loads. On a store whose write
    and sync go through and whose clock stays within the years 0 to 9999,
    an event with strings in UTF-8 is appended without an error; if the
    file ended with a complete line and loaded as [stored], and no line of
    the new file reaches 1 MiB, the new file loads as [stored] followed by
    the event. *)
Theorem Append_then_LoadAll (layout_parse : bytes -> bool) (event : Event)
    (s : EventStore) (stored : list Event) :
  faults s = [] ->
  clock_in_range (clock s) ->
  well_formed_event event ->
  terminated (file s) ->
  LoadAll layout_parse (Opened (file s)) = inl stored ->
  Bufio.too_long (file (snd (Append event s))) = false ->
  fst (Append event s) = None /\
  LoadAll layout_parse (Opened (file (snd (Append event s)))) = inl (stored ++ [event]).
Proof.
  intros Hf Hc Hev Hd Hload Hlong. rewrite Append_batch in Hlong |- *.
  destruct (AppendBatch_healthy layout_parse [event] s stored Hf Hc) as (text & Ha & _ & Hl).
  { constructor; [exact Hev | constructor]. }
  rewrite Ha in Hlong |- *. cbn [fst snd file] in Hlong |- *.
  split; [reflexivity|]. apply Hl; assumption.
Qed.

Lemma Append_then_LoadAll_witness :
  let s1 := snd (Append (MoneyDeducted "txn-1" "alice" 100) (empty_store (fun _ => clock0))) in
  let event := TransactionFailed "txn-2" "charlie" "insufficient funds" in
  fst (Append event s1) = None /\
  LoadAll (fun _ => false) (Opened (file (snd (Append event s1)))) =
    inl ([MoneyDeducted "txn-1" "alice" 100] ++ [event]).
Proof.
  intros s1 event.
  apply (Append_then_LoadAll (fun _ => false) event s1 [MoneyDeducted "txn-1" "alice" 100]).
  - reflexivity.
  - intros i. split; [unfold GoTime.wf | split]; vm_compute; intuition discriminate.
  - simpl. repeat split; reflexivity.
  - right. exists (removelast (file s1)). vm_compute. reflexivity.
  - vm_compute. reflexivity.
  - vm_compute. reflexivity.
Defined.

(** X15. The store only appends: whatever the events, the clock and the
    failures of the writes and syncs, the content the file had is a prefix
    of the content it has after [AppendBatch], and after [Append]. *)
Theorem store_appends_only (events : list Event) (event : Event) (s : EventStore) :
  file s `prefix_of` file (snd (AppendBatch events s)) /\
  file s `prefix_of` file (snd (Append event s)).
Proof.
  assert (H : forall evs, file s `prefix_of` file (snd (AppendBatch evs s))).
  { intros evs. unfold AppendBatch. pose proof (append_events_prefix evs s) as Hp.
    destruct (append_events evs s) as [[err|] s1]; [exact Hp|].
    cbn [snd] in Hp. unfold file_Sync.
    destruct (faults s1) as [|[|n] rest]; exact Hp. }
  split; [apply H|]. rewrite Append_batch. apply H.
Qed.

(** X16. When [AppendBatch] returns no error, every event of the batch was
    serialized, the lines of all of them, each closed by a newline, were
    added to the file in the order of the batch, and the whole file is
    synced. *)
Theorem AppendBatch_success_complete (events : list Event) (s : EventStore) :
  fst (AppendBatch events s) = None ->
  exists text,
    batch_text (clock s) (ticks s) events = Some text /\
    file (snd (AppendBatch events s)) = file s ++ text /\
    synced (snd (AppendBatch events s)) = length (file (snd (AppendBatch events s))).
Proof.
  unfold AppendBatch. intros H.
  destruct (append_events events s) as [[err|] s1] eqn:Ha; [discriminate H|].
  destruct (append_events_success events s s1 Ha) as (text & Ht & Hf & _).
  exists text. split; [exact Ht|].
  unfold file_Sync in H |- *.
  destruct (faults s1) as [|[|n] rest]; cbn [fst snd file synced] in H |- *;
    first [discriminate H | split; [exact Hf | reflexivity]].
Qed.

Lemma AppendBatch_success_complete_witness :
  let events := [MoneyDeducted "txn-1" "a" 50; MoneyCredited "txn-1" "b" 50] in
  let s := empty_store (fun _ => clock0) in
  exists text,
    batch_text (clock s) (ticks s) events = Some text /\
    file (snd (AppendBatch events s)) = file s ++ text /\
    synced (snd (AppendBatch events s)) = length (file (snd (AppendBatch events s))).
Proof.
  intros events s. apply (AppendBatch_success_complete events s).
  vm_compute. reflexivity.
Defined.

(** X17. [LoadAll] on a file that opens succeeds exactly when no line
    reaches 1 MiB and every line that is not empty deserializes; it then
    returns the events of those lines, in the order of the file. Empty
    lines count for nothing. *)
Theorem LoadAll_succeeds_exactly (layout_parse : bytes -> bool) (content : bytes)
    (events : list Event) :
  LoadAll layout_parse (Opened content) = inl events <->
  Bufio.too_long content = false /\
  Forall2 (fun line ev => DeserializeEvent layout_parse line = Some ev)
          (List.filter (fun l => negb (blank l)) (Bufio.lines content)) events.
Proof.
  rewrite LoadAll_lines.
  pose proof (load_lines_ok layout_parse (Bufio.lines content) 0 []) as Hok.
  destruct (load_lines layout_parse (Bufio.lines content) 0 []) as [evs|err].
  - destruct (Bufio.too_long content).
    + split; [discriminate | intros [H _]; discriminate H].
    + split.
      * intros [= <-]. split; [reflexivity|].
        destruct (proj1 (Hok evs) eq_refl) as (new & -> & H). exact H.
      * intros [_ H]. f_equal.
        assert (Hr : inl evs = (inl events : list Event + LoadError)).
        { apply Hok. exists events. split; [reflexivity | exact H]. }
        injection Hr as ->. reflexivity.
  - split; [discriminate|]. intros [_ H]. exfalso.
    assert (Hr : inr err = (inl events : list Event + LoadError)).
    { apply Hok. exists events. split; [reflexivity | exact H]. }
    discriminate Hr.
Qed.

(** X18. The last line of the file needs no newline: a file whose last
    line is not closed loads as the same file with the newline added, with
    the same events or the same error. *)
Theorem LoadAll_last_line (layout_parse : bytes -> bool) (d line : bytes) :
  terminated d ->
  no_newline line = true ->
  LoadAll layout_parse (Opened (d ++ line)) =
  LoadAll layout_parse (Opened (d ++ line ++ [x0a])).
Proof.
  intros Hd Hl. rewrite !LoadAll_lines. unfold Bufio.lines, Bufio.too_long.
  rewrite !(BufioFacts.scan_app d _ Hd).
  destruct (Bufio.scan [] 0%N d) as [ts [|]]; [reflexivity|].
  rewrite (BufioFacts.scan_last line Hl [] 0%N), (BufioFacts.scan_line line [] Hl [] 0%N).
  destruct (Bufio.maxTokenSize <=? 0 + N.of_nat (length line))%N; [reflexivity|].
  rewrite BufioFacts.scan_empty. cbn [rev app fst snd].
  destruct line as [|c line].
  - rewrite app_nil_r. change (Bufio.dropCR []) with (@nil byte).
    rewrite load_lines_blank. reflexivity.
  - reflexivity.
Qed.

Lemma LoadAll_last_line_witness :
  LoadAll (fun _ => false) (Opened ([x0a] ++ [x7b; x7d])) =
  LoadAll (fun _ => false) (Opened ([x0a] ++ [x7b; x7d] ++ [x0a])).
Proof.
  apply (LoadAll_last_line (fun _ => false) [x0a] [x7b; x7d]).
  - right. exists []. reflexivity.
  - reflexivity.
Defined.

(** X19. When [LoadAll] stops at a line that does not deserialize, the
    number in the error is the number of that line in the file, counted
    from 1 and with the empty lines counted: that line is not empty and
    [DeserializeEvent] refuses it. No event of the lines before it is
    returned. *)
Theorem LoadAll_reports_line (layout_parse : bytes -> bool) (content : bytes)
    (lineNum : nat) :
  LoadAll layout_parse (Opened content) = inr (DeserializeError lineNum) ->
  (1 <= lineNum)%nat /\
  exists line,
    Bufio.lines content !! (lineNum - 1)%nat = Some line /\
    blank line = false /\
    DeserializeEvent layout_parse line = None.
Proof.
  rewrite LoadAll_lines. intros H.
  destruct (load_lines layout_parse (Bufio.lines content) 0 []) as [evs|err] eqn:Hl.
  - destruct (Bufio.too_long content); discriminate H.
  - injection H as ->.
    destruct (load_lines_error layout_parse _ _ _ _ Hl) as (Hlt & line & H1 & H2 & H3 & _).
    split; [lia|]. exists line. auto.
Qed.

Lemma LoadAll_reports_line_witness :
  exists line,
    Bufio.lines [x0a; x0a; x7b; x7d; x0a] !! (3 - 1)%nat = Some line /\
    blank line = false /\
    DeserializeEvent (fun _ => false) line = None.
Proof.
  apply (LoadAll_reports_line (fun _ => false) [x0a; x0a; x7b; x7d; x0a] 3).
  vm_compute. reflexivity.
Defined.

(* ===================================================================== *)
(** * Handling commands *)
(* ===================================================================== *)

Section NodeFacts.

Context {World : Type}.

Implicit Types (n : Node World) (cmd : TransferCommand) (s : EventStore).

Lemma publishEvents_store (events : list Event) :
  forall s,
    file (snd (publishEvents events s)) = file s /\
    faults (snd (publishEvents events s)) = faults s /\
    clock (snd (publishEvents events s)) = clock s.
Proof.
  induction events as [|ev events IH]; intros s; [auto|].
  cbn [publishEvents time_Now].
  destruct (SerializeEvent (clock s (ticks s)) ev) as [data|].
  - match goal with |- context [publishEvents events ?x] =>
      destruct (IH x) as (H1 & H2 & H3); destruct (publishEvents events x) as [msgs s1] end.
    cbn [snd file faults clock] in *. auto.
  - match goal with |- context [publishEvents events ?x] =>
      destruct (IH x) as (H1 & H2 & H3) end.
    cbn [snd file faults clock] in *. auto.
Qed.

(** [handleCommand] on a command, by the outcome of the append. *)
Lemma handleCommand_unfold cmd n :
  handleCommand (Some cmd) n =
    let events := fst (eval (Execute cmd) (engine n)) in
    match AppendBatch events (store n) with
    | (Some _, s) =>
        (respondError "failed to persist events",
         {| engine := engine n; store := s; eventHandlers := eventHandlers n;
            world := world n; published := published n |})
    | (None, s) =>
        (respondSuccess events,
         {| engine := exec (ApplyEvents events) (engine n);
            store := snd (publishEvents events s);
            eventHandlers := eventHandlers n;
            world := notifyEventHandlers (eventHandlers n) events (world n);
            published := published n ++ fst (publishEvents events s) |})
    end.
Proof.
  unfold handleCommand. change (ExecuteWithContext cmd) with (Execute cmd).
  rewrite Execute_result. cbv zeta.
  destruct (AppendBatch _ (store n)) as [[err|] s]; [reflexivity|].
  destruct (publishEvents _ s) as [msgs s']. reflexivity.
Qed.

Lemma AppendBatch_prefix (events : list Event) s :
  file s `prefix_of` file (snd (AppendBatch events s)).
Proof.
  unfold AppendBatch. pose proof (append_events_prefix events s) as Hp.
  destruct (append_events events s) as [[err|] s1]; [exact Hp|].
  cbn [snd] in Hp. unfold file_Sync.
  destruct (faults s1) as [|[|k] rest]; exact Hp.
Qed.

Lemma handleCommand_prefix (m : option TransferCommand) n :
  file (store n) `prefix_of` file (store (snd (handleCommand m n))) /\
  eventHandlers (snd (handleCommand m n)) = eventHandlers n.
Proof.
  destruct m as [cmd|]; [|split; reflexivity].
  rewrite handleCommand_unfold. cbv zeta.
  pose proof (AppendBatch_prefix (fst (eval (Execute cmd) (engine n))) (store n)) as Hp.
  destruct (AppendBatch _ (store n)) as [[err|] s]; cbn [snd store eventHandlers] in *.
  - split; [exact Hp | reflexivity].
  - rewrite (proj1 (publishEvents_store _ s)). split; [exact Hp | reflexivity].
Qed.

Lemma handle_all_cons (m : option TransferCommand) (msgs : list (option TransferCommand)) n :
  snd (handle_all (m :: msgs) n) = snd (handle_all msgs (snd (handleCommand m n))).
Proof.
  cbn [handle_all]. destruct (handleCommand m n) as [r n1]. cbn [snd].
  destruct (handle_all msgs n1) as [rs n2]. reflexivity.
Qed.

Lemma handle_all_prefix (msgs : list (option TransferCommand)) :
  forall n, file (store n) `prefix_of` file (store (snd (handle_all msgs n))).
Proof.
  induction msgs as [|m msgs IH]; intros n; [reflexivity|].
  rewrite handle_all_cons. etransitivity; [apply handleCommand_prefix | apply IH].
Qed.

Lemma Execute_well_formed cmd (e : WalletEngine) :
  well_formed_command cmd -> Forall well_formed_event (fst (eval (Execute cmd) e)).
Proof.
  intros (H1 & H2 & H3 & H4).
  destruct (Execute_events cmd e) as [H|[(reason & Hr & H)|H]]; rewrite H.
  - constructor.
  - constructor; [|constructor]. cbn [well_formed_event].
    repeat split; try assumption. destruct Hr as [Hr|[Hr|Hr]]; subst reason; reflexivity.
  - repeat constructor; cbn [well_formed_event]; auto; lia.
Qed.

Lemma process_eval cmd (e : WalletEngine) :
  eval (process cmd) e = fst (eval (Execute cmd) e).
Proof. unfold eval at 1. rewrite process_unfold. reflexivity. Qed.

Variable layout_parse : bytes -> bool.

(** One message on a store whose calls go through: the events of the
    command are applied to the engine and are what the log in the file
    gains. *)
Lemma handleCommand_healthy (m : option TransferCommand) n (L : list Event) :
  faults (store n) = [] ->
  clock_in_range (clock (store n)) ->
  well_formed_message m ->
  terminated (file (store n)) ->
  LoadAll layout_parse (Opened (file (store n))) = inl L ->
  Bufio.too_long (file (store (snd (handleCommand m n)))) = false ->
  let n' := snd (handleCommand m n) in
  let events := match m with
                | Some cmd => eval (process cmd) (engine n)
                | None => []
                end in
  faults (store n') = [] /\ clock_in_range (clock (store n')) /\
  terminated (file (store n')) /\
  LoadAll layout_parse (Opened (file (store n'))) = inl (L ++ events) /\
  engine n' = exec (ApplyEvents events) (engine n).
Proof.
  intros Hf Hc Hm Hd Hload Hlong n' events. subst n' events.
  destruct m as [cmd|].
  2:{ cbn [handleCommand snd]. do 3 (split; [assumption|]).
      rewrite app_nil_r. split; [assumption | reflexivity]. }
  rewrite handleCommand_unfold in Hlong |- *. cbv zeta in Hlong |- *.
  rewrite process_eval.
  set (events := fst (eval (Execute cmd) (engine n))) in *.
  destruct (AppendBatch_healthy layout_parse events (store n) L Hf Hc
              (Execute_well_formed cmd (engine n) Hm)) as (text & Ha & _ & Hl).
  rewrite Ha in Hlong |- *. cbn [snd store engine] in Hlong |- *.
  match goal with |- context [publishEvents events ?x] =>
    destruct (publishEvents_store events x) as (H1 & H2 & H3) end.
  rewrite H1 in Hlong |- *. rewrite H2, H3. cbn [file faults clock] in Hlong |- *.
  destruct (Hl Hd Hload Hlong) as [Ht Hload'].
  split; [reflexivity|]. split; [exact Hc|]. split; [exact Ht|].
  split; [exact Hload' | reflexivity].
Qed.

(** The file after the first message is a complete part of the file after
    all of them. *)
Lemma handle_all_first (m : option TransferCommand) (msgs : list (option TransferCommand))
    n (L : list Event) :
  faults (store n) = [] ->
  clock_in_range (clock (store n)) ->
  well_formed_message m ->
  terminated (file (store n)) ->
  Bufio.too_long (file (store (snd (handle_all (m :: msgs) n)))) = false ->
  Bufio.too_long (file (store (snd (handleCommand m n)))) = false.
Proof.
  intros Hf Hc Hm Hd Hlong. rewrite handle_all_cons in Hlong.
  destruct (handle_all_prefix msgs (snd (handleCommand m n))) as [k Hk].
  rewrite Hk in Hlong.
  destruct m as [cmd|]; [|cbn [handleCommand snd] in *;
    apply (too_long_prefix _ k Hd); exact Hlong].
  rewrite handleCommand_unfold in Hlong |- *. cbv zeta in Hlong |- *.
  destruct (AppendBatch_healthy layout_parse (fst (eval (Execute cmd) (engine n)))
              (store n) L Hf Hc (Execute_well_formed cmd (engine n) Hm))
    as (text & Ha & Ht & _).
  rewrite Ha in Hlong |- *. cbn [snd store] in Hlong |- *.
  match goal with |- context [publishEvents ?evs ?x] =>
    destruct (publishEvents_store evs x) as (H1 & _) end.
  rewrite H1 in Hlong |- *. cbn [file] in Hlong |- *.
  apply (too_long_prefix _ k (Ht Hd)). exact Hlong.
Qed.

Lemma handle_all_healthy (msgs : list (option TransferCommand)) (base : WalletEngine) :
  forall n (L : list Event),
    faults (store n) = [] ->
    clock_in_range (clock (store n)) ->
    Forall well_formed_message msgs ->
    terminated (file (store n)) ->
    LoadAll layout_parse (Opened (file (store n))) = inl L ->
    engine n = exec (ApplyEvents L) base ->
    Bufio.too_long (file (store (snd (handle_all msgs n)))) = false ->
    exists L',
      LoadAll layout_parse (Opened (file (store (snd (handle_all msgs n))))) = inl L' /\
      engine (snd (handle_all msgs n)) = exec (ApplyEvents L') base.
Proof.
  induction msgs as [|m msgs IH]; intros n L Hf Hc Hm Hd Hload He Hlong.
  - exists L. split; assumption.
  - inversion Hm as [|? ? Hm1 Hm2]; subst.
    pose proof (handle_all_first m msgs n L Hf Hc Hm1 Hd Hlong) as Hlong1.
    rewrite handle_all_cons in Hlong |- *.
    destruct (handleCommand_healthy m n L Hf Hc Hm1 Hd Hload Hlong1)
      as (Hf' & Hc' & Hd' & Hload' & He').
    apply (IH _ _ Hf' Hc' Hm2 Hd' Hload'); [|exact Hlong].
    rewrite He', He, ApplyEvents_app. reflexivity.
Qed.

(** A run of commands through [handleCommand] is [run]: the same engine,
    and the log of [run] is what the file gains. *)
Lemma handle_all_run (cmds : list TransferCommand) :
  forall n (L : list Event),
    faults (store n) = [] ->
    clock_in_range (clock (store n)) ->
    Forall well_formed_command cmds ->
    terminated (file (store n)) ->
    LoadAll layout_parse (Opened (file (store n))) = inl L ->
    Bufio.too_long (file (store (snd (handle_all (map Some cmds) n)))) = false ->
    engine (snd (handle_all (map Some cmds) n)) = exec (run cmds) (engine n) /\
    LoadAll layout_parse (Opened (file (store (snd (handle_all (map Some cmds) n))))) =
      inl (L ++ eval (run cmds) (engine n)).
Proof.
  induction cmds as [|cmd cmds IH]; intros n L Hf Hc Hm Hd Hload Hlong.
  - cbn [map handle_all snd]. rewrite app_nil_r. split; [reflexivity | exact Hload].
  - cbn [map] in Hlong |- *. inversion Hm as [|? ? Hm1 Hm2]; subst.
    pose proof (handle_all_first (Some cmd) (map Some cmds) n L Hf Hc Hm1 Hd Hlong)
      as Hlong1.
    rewrite handle_all_cons in Hlong |- *.
    destruct (handleCommand_healthy (Some cmd) n L Hf Hc Hm1 Hd Hload Hlong1)
      as (Hf' & Hc' & Hd' & Hload' & He').
    destruct (IH _ _ Hf' Hc' Hm2 Hd' Hload' Hlong) as [IH1 IH2].
    rewrite <- process_state in He'.
    rewrite IH1, IH2, He', run_cons_exec, run_cons_eval, <- app_assoc.
    split; reflexivity.
Qed.

End NodeFacts.

(** X20. [handleCommand] persists before it applies. When [AppendBatch]
    returns an error the answer is the error "failed to persist events" and
    the engine, the handlers' world and the published messages are as
    before; when it returns none the answer is the success with the types
    of the events, the engine is the one after the events are applied and
    every handler has seen every event. In both cases the file of the
    store has only grown. *)
Theorem handleCommand_persists_first {World : Type} (cmd : TransferCommand)
    (n : Node World) :
  let events := fst (eval (Execute cmd) (engine n)) in
  let r := fst (handleCommand (Some cmd) n) in
  let n' := snd (handleCommand (Some cmd) n) in
  match fst (AppendBatch events (store n)) with
  | Some _ =>
      r = respondError "failed to persist events" /\
      engine n' = engine n /\ world n' = world n /\ published n' = published n
  | None =>
      r = respondSuccess events /\
      engine n' = exec (process cmd) (engine n) /\
      world n' = notifyEventHandlers (eventHandlers n) events (world n)
  end /\
  file (store n) `prefix_of` file (store n').
Proof.
  intros events r n'. split; [|apply handleCommand_prefix].
  subst r n'. rewrite handleCommand_unfold. cbv zeta. fold events.
  destruct (AppendBatch events (store n)) as [[err|] s]; cbn [fst snd engine world published].
  - auto.
  - split; [reflexivity|]. split; [|reflexivity].
    rewrite process_state, process_eval. reflexivity.
Qed.

(** X21. On a store whose calls go through, [handleCommand] answers with
    [Success] also for a command it did not carry out: for a duplicate the
    answer lists no event, for a command that fails a check it lists the
    one [TransactionFailed]; the error text is empty and no balance
    changes. *)
Theorem handleCommand_answers_success {World : Type} (cmd : TransferCommand)
    (n : Node World) :
  faults (store n) = [] ->
  clock_in_range (clock (store n)) ->
  well_formed_command cmd ->
  is_processed (engine n) (TransactionID cmd) = true \/ Amount cmd <= 0 \/
  FromAccount cmd = ToAccount cmd \/
  balance_at (balances (engine n)) (FromAccount cmd) < Amount cmd ->
  fst (handleCommand (Some cmd) n) =
    {| Success := true; Error := "";
       Events := if is_processed (engine n) (TransactionID cmd) then []
                 else [EventTypeTransactionFailed] |} /\
  balances (engine (snd (handleCommand (Some cmd) n))) = balances (engine n).
Proof.
  intros Hf Hc Hwf Hrej. rewrite handleCommand_unfold. cbv zeta.
  destruct (AppendBatch_healthy (fun _ => false) (fst (eval (Execute cmd) (engine n)))
              (store n) [] Hf Hc (Execute_well_formed cmd (engine n) Hwf)) as (text & Ha & _).
  rewrite Ha. cbn [fst snd engine]. unfold respondSuccess.
  destruct (Execute_rejected cmd (engine n) Hrej) as [[Hp Hev]|[Hp [reason Hev]]];
    rewrite Hev, Hp; split; reflexivity.
Qed.

Lemma handleCommand_answers_success_witness :
  let n := {| engine := alice_engine; store := empty_store (fun _ => clock0);
              eventHandlers := @nil (EventHandler unit); world := tt; published := [] |} in
  let cmd := {| TransactionID := "test-4"; FromAccount := "alice";
                ToAccount := "bob"; Amount := 10000 |} in
  fst (handleCommand (Some cmd) n) =
    {| Success := true; Error := "";
       Events := if is_processed (engine n) (TransactionID cmd) then []
                 else [EventTypeTransactionFailed] |} /\
  balances (engine (snd (handleCommand (Some cmd) n))) = balances (engine n).
Proof.
  intros n cmd. apply (handleCommand_answers_success cmd n).
  - reflexivity.
  - intros i. split; [unfold GoTime.wf; vm_compute; intuition discriminate | simpl; lia].
  - repeat split; try reflexivity; simpl; lia.
  - right. right. right. vm_compute. reflexivity.
Defined.

(** X22. A restart loses nothing. Take an engine whose state is the replay
    of the log in the file onto some base state, the file being empty or
    ending with a complete line (at the start: an empty file and the base
    itself). After any messages are handled, on a store whose calls go
    through, with a clock within the years 0 to 9999 and commands with
    strings in UTF-8, and as long as no line of the file reaches 1 MiB,
    [LoadAll] reads the file and [InitializeFromEventStore] on the base
    state gives the state the engine is in. *)
Theorem engine_recovers_from_log {World : Type} (layout_parse : bytes -> bool)
    (base : WalletEngine) (msgs : list (option TransferCommand)) (n : Node World)
    (L : list Event) :
  faults (store n) = [] ->
  clock_in_range (clock (store n)) ->
  Forall well_formed_message msgs ->
  terminated (file (store n)) ->
  LoadAll layout_parse (Opened (file (store n))) = inl L ->
  engine n = exec (ApplyEvents L) base ->
  Bufio.too_long (file (store (snd (handle_all msgs n)))) = false ->
  exists L',
    LoadAll layout_parse (Opened (file (store (snd (handle_all msgs n))))) = inl L' /\
    InitializeFromEventStore (inl L') base = (None, engine (snd (handle_all msgs n))).
Proof.
  intros Hf Hc Hm Hd Hload He Hlong.
  destruct (handle_all_healthy layout_parse msgs base n L Hf Hc Hm Hd Hload He Hlong)
    as (L' & H1 & H2).
  exists L'. split; [exact H1|]. rewrite InitializeFromEventStore_loaded, H2. reflexivity.
Qed.

Lemma engine_recovers_from_log_witness :
  let n := {| engine := alice_engine; store := empty_store (fun _ => clock0);
              eventHandlers := @nil (EventHandler unit); world := tt; published := [] |} in
  let msgs := [Some {| TransactionID := "txn-1"; FromAccount := "alice";
                       ToAccount := "bob"; Amount := 100 |};
               Some {| TransactionID := "txn-1"; FromAccount := "alice";
                       ToAccount := "bob"; Amount := 100 |};
               None;
               Some {| TransactionID := "txn-2"; FromAccount := "bob";
                       ToAccount := "alice"; Amount := 500 |}] in
  exists L',
    LoadAll (fun _ => false) (Opened (file (store (snd (handle_all msgs n))))) = inl L' /\
    InitializeFromEventStore (inl L') alice_engine =
      (None, engine (snd (handle_all msgs n))).
Proof.
  intros n msgs.
  apply (engine_recovers_from_log (fun _ => false) alice_engine msgs n []).
  - reflexivity.
  - intros i. split; [unfold GoTime.wf; vm_compute; intuition discriminate | simpl; lia].
  - repeat constructor; simpl; lia.
  - left. reflexivity.
  - reflexivity.
  - reflexivity.
  - vm_compute. reflexivity.
Defined.

Section ReadModelNode.

Implicit Types (n : Node ReadModel.t).

Lemma notify_read_model (events : list Event) :
  forall r : ReadModel.t,
    notifyEventHandlers [ReadModel.HandleEventDirect] events r = ReadModel.apply_all events r.
Proof.
  induction events as [|ev events IH]; intros r; [reflexivity|].
  cbn [notifyEventHandlers fold_left ReadModel.apply_all]. apply IH.
Qed.

Lemma handleCommand_read_model (m : option TransferCommand) n :
  eventHandlers n = [ReadModel.HandleEventDirect] ->
  ReadModel.balances (world n) = balances (engine n) ->
  ReadModel.balances (world (snd (handleCommand m n))) =
    balances (engine (snd (handleCommand m n))).
Proof.
  intros Hh Hb. destruct m as [cmd|]; [|exact Hb].
  rewrite handleCommand_unfold. cbv zeta.
  destruct (AppendBatch _ (store n)) as [[err|] s]; cbn [snd world engine]; [exact Hb|].
  rewrite Hh, notify_read_model. apply ReadModel_apply_all_engine, Hb.
Qed.

End ReadModelNode.

(** X23. The engine at work is [run]. Take a file that is empty or ends
    with a complete line and that loads as a log. After the commands are
    handled one by one, on a store whose calls go through, with a clock
    within the years 0 to 9999 and commands with strings in UTF-8, and as
    long as no line of the file reaches 1 MiB, the engine is in the state
    [run] gives, and the file, loaded, is the log it had followed by the
    events [run] lists: a deduction and its credit next to each other, in
    that order. *)
Theorem handle_all_follows_run {World : Type} (layout_parse : bytes -> bool)
    (cmds : list TransferCommand) (n : Node World) (L : list Event) :
  faults (store n) = [] ->
  clock_in_range (clock (store n)) ->
  Forall well_formed_command cmds ->
  terminated (file (store n)) ->
  LoadAll layout_parse (Opened (file (store n))) = inl L ->
  Bufio.too_long (file (store (snd (handle_all (map Some cmds) n)))) = false ->
  engine (snd (handle_all (map Some cmds) n)) = exec (run cmds) (engine n) /\
  LoadAll layout_parse (Opened (file (store (snd (handle_all (map Some cmds) n))))) =
    inl (L ++ eval (run cmds) (engine n)).
Proof. apply handle_all_run. Qed.

Lemma handle_all_follows_run_witness :
  let n := {| engine := alice_engine; store := empty_store (fun _ => clock0);
              eventHandlers := @nil (EventHandler unit); world := tt; published := [] |} in
  let cmds := [{| TransactionID := "txn-1"; FromAccount := "alice";
                  ToAccount := "bob"; Amount := 100 |};
               {| TransactionID := "txn-2"; FromAccount := "bob";
                  ToAccount := "alice"; Amount := 500 |}] in
  engine (snd (handle_all (map Some cmds) n)) = exec (run cmds) (engine n) /\
  LoadAll (fun _ => false) (Opened (file (store (snd (handle_all (map Some cmds) n))))) =
    inl ([] ++ eval (run cmds) (engine n)).
Proof.
  intros n cmds. apply (handle_all_follows_run (fun _ => false) cmds n []).
  - reflexivity.
  - intros i. split; [unfold GoTime.wf; vm_compute; intuition discriminate | simpl; lia].
  - repeat constructor; simpl; lia.
  - left. reflexivity.
  - reflexivity.
  - vm_compute. reflexivity.
Defined.



(** X25. The messages [publishEvents] hands to the event subject rebuild
    the read model: with a clock within the years 0 to 9999 and events
    with strings in UTF-8, [handleEvent] over the published messages, in
    order, leaves the read model as [HandleEventDirect] over the events
    does. *)
Theorem published_events_rebuild_read_model (layout_parse : bytes -> bool)
    (events : list Event) (s : EventStore) (r : ReadModel.t) :
  clock_in_range (clock s) ->
  Forall well_formed_event events ->
  fold_left (fun r data => ReadModel.handleEvent layout_parse data r)
            (fst (publishEvents events s)) r =
    fold_left (fun r ev => ReadModel.HandleEventDirect ev r) events r /\
  length (fst (publishEvents events s)) = length events.
Proof.
  intros Hc Hev. revert s r Hc.
  induction Hev as [|ev events Hwf _ IH]; intros s r Hc; [split; reflexivity|].
  cbn [publishEvents time_Now].
  destruct (Hc (ticks s)) as [Hw Hy].
  destruct (SerializeEvent_reads_back layout_parse _ ev Hw Hy Hwf) as (line & Hs & Hd & _).
  rewrite Hs.
  match goal with |- context [publishEvents events ?x] =>
    destruct (IH x r) as [_ Hlen]; [exact Hc|];
    pose proof (fun r' => proj1 (IH x r' Hc)) as Hfold;
    destruct (publishEvents events x) as [msgs s1] end.
  cbn [fst fold_left length] in *. unfold ReadModel.handleEvent at 2. rewrite Hd.
  split; [apply Hfold | rewrite Hlen; reflexivity].
Qed.

Lemma published_events_rebuild_read_model_witness :
  let events := [MoneyDeducted "txn-1" "alice" 100; MoneyCredited "txn-1" "bob" 100] in
  let s := empty_store (fun _ => clock0) in
  let r := ReadModel.SetBalance "alice" 1000 ReadModel.NewReadModel in
  fold_left (fun r data => ReadModel.handleEvent (fun _ => false) data r)
            (fst (publishEvents events s)) r =
    fold_left (fun r ev => ReadModel.HandleEventDirect ev r) events r /\
  length (fst (publishEvents events s)) = length events.
Proof.
  intros events s r.
  apply (published_events_rebuild_read_model (fun _ => false) events s r).
  - intros i. split; [unfold GoTime.wf; vm_compute; intuition discriminate | simpl; lia].
  - repeat constructor; simpl; lia.
Defined.

(* ===================================================================== *)
(** * The codec on any string *)
(* ===================================================================== *)

Module CoerceFacts.
Import Utf8 Utf8Facts Strconv StrconvFacts Json JsonStringFacts CompactFacts TimeFacts
       ParseFacts MarshalFacts LineFacts.
Local Open Scope N_scope.

Lemma unquote_ufffd (f : nat) (t : bytes) :
  unquote_go (S f) (x5c :: x75 :: x66 :: x66 :: x66 :: x64 :: t) =
    continue [xef; xbf; xbd] (unquote_go f t).
Proof. reflexivity. Qed.

Lemma ill_formed_ascii (b : byte) (t : bytes) :
  (b2n b <? 0x80) = true -> ill_formed (b :: t) = false.
Proof.
  intros Hb. unfold ill_formed. rewrite (DecodeRune_ascii b t Hb).
  apply andb_false_iff. left. apply N.eqb_neq. unfold RuneError.
  apply N.ltb_lt in Hb. lia.
Qed.

(** The literal [appendString] writes is read back as the coerced string. *)
Lemma unquote_appendString_any (fuel : nat) :
  forall (s rest : bytes) (f' : nat),
    (length s <= fuel)%nat ->
    (length (appendString_go fuel s) < f')%nat ->
    unquote_go f' (appendString_go fuel s ++ x22 :: rest) = Some (coerce_go fuel s, rest).
Proof.
  induction fuel as [|fuel IH]; intros s rest f' Hlen Hf.
  - destruct f'; [simpl in Hf; lia|]. reflexivity.
  - destruct s as [|b s].
    { destruct f'; [simpl in Hf; lia|]. reflexivity. }
    cbn [appendString_go coerce_go] in Hf |- *.
    destruct (b2n b <? 0x80) eqn:Hb.
    + rewrite (ill_formed_ascii b s Hb), (DecodeRune_ascii b s Hb). cbn [snd].
      change (take 1 (b :: s)) with [b]. change (drop 1 (b :: s)) with s.
      rewrite length_app in Hf. rewrite <- app_assoc.
      destruct f' as [|f']; [lia|].
      destruct (htmlSafe b) eqn:Hs.
      * cbn [app]. rewrite unquote_plain by exact Hs.
        rewrite IH; [reflexivity | simpl in Hlen; lia | simpl in Hf; lia].
      * rewrite unquote_escape by assumption. pose proof (length_escape b).
        rewrite IH; [reflexivity | simpl in Hlen; lia | lia].
    + unfold ill_formed. destruct (DecodeRune (b :: s)) as [c size] eqn:Hd.
      cbn [snd]. apply N.ltb_ge in Hb.
      destruct ((c =? RuneError) && (size =? 1)%nat) eqn:Hill.
      * apply andb_true_iff in Hill as [_ Hsz]. apply Nat.eqb_eq in Hsz. subst size.
        change (drop 1 (b :: s)) with s in *.
        rewrite length_app in Hf. cbn [length] in Hf. rewrite <- app_assoc.
        destruct f' as [|f']; [lia|]. cbn [app].
        rewrite unquote_ufffd, IH by (first [simpl in Hlen; lia | lia]).
        reflexivity.
      * assert (Hill' : ill_formed (b :: s) = false)
          by (unfold ill_formed; rewrite Hd; exact Hill).
        destruct (DecodeRune_well_formed b s c size Hb Hd Hill')
          as (Hsz & Hle & Henc & Htail & _).
        assert (Hdl : (length (drop size (b :: s)) <= fuel)%nat)
          by (rewrite length_drop; simpl in Hlen |- *; lia).
        destruct ((c =? 0x2028) || (c =? 0x2029)) eqn:Hsep.
        -- rewrite length_app in Hf. cbn [length] in Hf. rewrite <- app_assoc.
           destruct f' as [|f']; [lia|].
           apply orb_true_iff in Hsep as [Hc|Hc]; apply N.eqb_eq in Hc; subst c.
           ++ change (hex (N.land 0x2028 0xF)) with x38. cbn [app].
              rewrite unquote_u2028, IH by (first [exact Hdl | lia]).
              cbn [continue]. change [xe2; x80; xa8] with (EncodeRune 0x2028).
              rewrite Henc. reflexivity.
           ++ change (hex (N.land 0x2029 0xF)) with x39. cbn [app].
              rewrite unquote_u2029, IH by (first [exact Hdl | lia]).
              cbn [continue]. change [xe2; x80; xa9] with (EncodeRune 0x2029).
              rewrite Henc. reflexivity.
        -- rewrite length_app in Hf. rewrite <- app_assoc.
           assert (Htl : (length (take size (b :: s)) = size)%nat)
             by (rewrite length_take; lia).
           rewrite Htl in Hf.
           destruct f' as [|f']; [lia|].
           assert (Hhd : exists b' t', take size (b :: s) = b' :: t' /\ b' = b).
           { destruct size; [lia|]. cbn [take]. eauto. }
           destruct Hhd as (b' & t' & Htk & ->).
           rewrite Htk. cbn [app]. rewrite unquote_high by (apply N.ltb_ge; exact Hb).
           change (b :: t' ++ ?x) with ((b :: t') ++ x). rewrite <- Htk.
           rewrite Htail. cbn [fst snd].
           rewrite drop_app_length' by (symmetry; exact Htl).
           rewrite IH by (first [exact Hdl | lia]).
           cbn [continue]. rewrite Henc. reflexivity.
Qed.

Lemma scan_appendString_any (s rest : bytes) :
  scan_string (appendString s ++ rest) = Some (coerce_go (length s) s, rest).
Proof.
  unfold appendString, scan_string. rewrite <- !app_assoc. cbn [app].
  apply unquote_appendString_any; [lia|].
  rewrite length_app. simpl. lia.
Qed.

Lemma parses_string_any (s : bytes) (dmax : N) :
  parses 1 dmax (appendString s) (JString (coerce_go (length s) s)).
Proof.
  split; [unfold appendString; cbn [app]; eauto|].
  intros fuel depth rest Hf _ _. destruct fuel as [|fuel]; [lia|].
  pose proof (scan_appendString_any s rest) as Hs.
  unfold appendString in *. cbn [app] in *. cbn [parse_value]. rewrite Hs. reflexivity.
Qed.

(** A string that is valid UTF-8 is carried as it is. *)
Lemma coerce_go_valid (fuel : nat) :
  forall s : bytes, Valid_go fuel s = true -> (length s <= fuel)%nat -> coerce_go fuel s = s.
Proof.
  induction fuel as [|fuel IH]; intros s Hv Hlen.
  - destruct s; [reflexivity | simpl in Hlen; lia].
  - destruct s as [|b s]; [reflexivity|].
    cbn [Valid_go coerce_go] in Hv |- *. apply andb_true_iff in Hv as [Hill Hv].
    apply negb_true_iff in Hill. rewrite Hill.
    assert (Hsz : (1 <= snd (DecodeRune (b :: s)))%nat).
    { destruct (b2n b <? 0x80) eqn:Hb.
      - rewrite (DecodeRune_ascii b s Hb). cbn. lia.
      - apply N.ltb_ge in Hb. destruct (DecodeRune (b :: s)) as [c size] eqn:Hd.
        destruct (DecodeRune_well_formed b s c size Hb Hd Hill) as (Hsz & _). cbn. lia. }
    generalize dependent (snd (DecodeRune (b :: s))). intros k Hv Hk.
    rewrite IH; [apply take_drop | exact Hv |].
    rewrite length_drop. cbn [length] in Hlen |- *. lia.
Qed.

Lemma coerce_valid (s : string) : ValidString s = true -> coerce s = s.
Proof.
  intros Hv. unfold coerce. rewrite coerce_go_valid; [apply unstr_str | exact Hv | lia].
Qed.

End CoerceFacts.

Section CodecAny.

Import Utf8 Utf8Facts Strconv StrconvFacts Json JsonStringFacts CompactFacts TimeFacts
       ParseFacts MarshalFacts LineFacts CoerceFacts.
Local Open Scope N_scope.

Variable layout_parse : bytes -> bool.

Lemma decode_transfer_any (x1 x2 : bytes) (m : Z) (r1 r2 : bytes) :
  (- 2 ^ 63 <= m <= 2 ^ 63 - 1)%Z ->
  decode_members layout_parse MoneyDeducted_schema
    [(str "transaction_id", r1, JString x1); (str "account", r2, JString x2);
     (str "amount", FormatInt m, JNumber (FormatInt m))]
    (map (fun f => zero (snd f)) MoneyDeducted_schema) =
  Some [FString (unstr x1); FString (unstr x2); FInt64 m].
Proof.
  intros Hm. pose proof (ParseInt_FormatInt m Hm) as Hp.
  generalize dependent (FormatInt m). intros lit Hp.
  cbn. rewrite Hp. cbn. reflexivity.
Qed.

Lemma decode_failed_any (x1 x2 x3 : bytes) (r1 r2 r3 : bytes) :
  decode_members layout_parse TransactionFailed_schema
    [(str "transaction_id", r1, JString x1); (str "from_account", r2, JString x2);
     (str "reason", r3, JString x3)]
    (map (fun f => zero (snd f)) TransactionFailed_schema) =
  Some [FString (unstr x1); FString (unstr x2); FString (unstr x3)].
Proof. reflexivity. Qed.

Lemma wire_transfer_any (t a : string) (m : Z) (schema : list (string * kind)) :
  schema = MoneyDeducted_schema ->
  (- 2 ^ 63 <= m <= 2 ^ 63 - 1)%Z ->
  wire layout_parse [("transaction_id", CString t); ("account", CString a); ("amount", CInt64 m)]
       schema [FString (coerce t); FString (coerce a); FInt64 m]
       (object3 (str "transaction_id") (appendString (str t))
                (str "account") (appendString (str a))
                (str "amount") (FormatInt m)).
Proof.
  intros -> Hm.
  assert (Hp : parses 5 1
            (object3 (str "transaction_id") (appendString (str t))
                     (str "account") (appendString (str a)) (str "amount") (FormatInt m))
            (JObject [(str "transaction_id", appendString (str t),
                       JString (coerce_go (length (str t)) (str t)));
                     (str "account", appendString (str a),
                      JString (coerce_go (length (str a)) (str a)));
                     (str "amount", FormatInt m, JNumber (FormatInt m))])).
  { apply (parses_object3 1 1); try reflexivity;
      first [apply parses_string_any | apply parses_int]. }
  split.
  - apply Marshal3; reflexivity.
  - eauto.
  - apply compacts_object3;
      first [apply compacts_appendString | apply compacts_FormatInt].
  - apply length_object3.
  - unfold Unmarshal. rewrite (parse_of_parses _ _ _ _ Hp)
      by (pose proof (length_object3 (str "transaction_id") (appendString (str t))
            (str "account") (appendString (str a)) (str "amount") (FormatInt m)); lia).
    apply decode_transfer_any, Hm.
Qed.

Lemma wire_failed_any (t f r : string) :
  wire layout_parse [("transaction_id", CString t); ("from_account", CString f); ("reason", CString r)]
       TransactionFailed_schema [FString (coerce t); FString (coerce f); FString (coerce r)]
       (object3 (str "transaction_id") (appendString (str t))
                (str "from_account") (appendString (str f))
                (str "reason") (appendString (str r))).
Proof.
  assert (Hp : parses 5 1
            (object3 (str "transaction_id") (appendString (str t))
                     (str "from_account") (appendString (str f))
                     (str "reason") (appendString (str r)))
            (JObject [(str "transaction_id", appendString (str t),
                       JString (coerce_go (length (str t)) (str t)));
                     (str "from_account", appendString (str f),
                      JString (coerce_go (length (str f)) (str f)));
                     (str "reason", appendString (str r),
                      JString (coerce_go (length (str r)) (str r)))])).
  { apply (parses_object3 1 1); try reflexivity; apply parses_string_any. }
  split.
  - apply Marshal3; reflexivity.
  - eauto.
  - apply compacts_object3; apply compacts_appendString.
  - apply length_object3.
  - unfold Unmarshal. rewrite (parse_of_parses _ _ _ _ Hp)
      by (pose proof (length_object3 (str "transaction_id") (appendString (str t))
            (str "from_account") (appendString (str f))
            (str "reason") (appendString (str r))); lia).
    apply decode_failed_any.
Qed.

Lemma SerializeEvent_normalizes (now : GoTime.t) (e : Event) :
  GoTime.wf now -> (0 <= GoTime.year now <= 9999)%Z -> amount_in_int64 e ->
  exists line, SerializeEvent now e = Some line /\
               DeserializeEvent layout_parse line = Some (normalize e).
Proof.
  intros Hwf Hy He. unfold SerializeEvent, DeserializeEvent.
  destruct e as [t a m|t a m|t f r]; cbn [amount_in_int64 normalize] in He |- *.
  - pose proof (wire_transfer_any t a m MoneyDeducted_schema eq_refl He) as Hw.
    destruct (envelope_line layout_parse now EventTypeMoneyDeducted _ _ _ _ Hwf Hy eq_refl Hw)
      as (data & Hmar & Hun & _).
    { apply object3_printable;
        first [apply appendString_printable | apply FormatInt_printable]. }
    exists data. cbn [Marshal_event GetType]. rewrite (wire_marshal _ _ _ _ _ Hw).
    split; [exact Hmar|]. rewrite Hun.
    change (String.eqb EventTypeMoneyDeducted EventTypeMoneyDeducted) with true.
    cbv iota. rewrite (wire_unmarshal _ _ _ _ _ Hw). reflexivity.
  - pose proof (wire_transfer_any t a m MoneyCredited_schema eq_refl He) as Hw.
    destruct (envelope_line layout_parse now EventTypeMoneyCredited _ _ _ _ Hwf Hy eq_refl Hw)
      as (data & Hmar & Hun & _).
    { apply object3_printable;
        first [apply appendString_printable | apply FormatInt_printable]. }
    exists data. cbn [Marshal_event GetType]. rewrite (wire_marshal _ _ _ _ _ Hw).
    split; [exact Hmar|]. rewrite Hun.
    change (String.eqb EventTypeMoneyCredited EventTypeMoneyDeducted) with false.
    change (String.eqb EventTypeMoneyCredited EventTypeMoneyCredited) with true.
    cbv iota. rewrite (wire_unmarshal _ _ _ _ _ Hw). reflexivity.
  - pose proof (wire_failed_any t f r) as Hw.
    destruct (envelope_line layout_parse now EventTypeTransactionFailed _ _ _ _ Hwf Hy eq_refl Hw)
      as (data & Hmar & Hun & _).
    { apply object3_printable; apply appendString_printable. }
    exists data. cbn [Marshal_event GetType]. rewrite (wire_marshal _ _ _ _ _ Hw).
    split; [exact Hmar|]. rewrite Hun.
    change (String.eqb EventTypeTransactionFailed EventTypeMoneyDeducted) with false.
    change (String.eqb EventTypeTransactionFailed EventTypeMoneyCredited) with false.
    change (String.eqb EventTypeTransactionFailed EventTypeTransactionFailed) with true.
    cbv iota. rewrite (wire_unmarshal _ _ _ _ _ Hw). reflexivity.
Qed.

Lemma normalize_well_formed (e : Event) : well_formed_event e -> normalize e = e.
Proof.
  destruct e as [t a m|t a m|t f r]; cbn [well_formed_event normalize];
    intros (H1 & H2 & H3); rewrite ?coerce_valid by assumption; reflexivity.
Qed.

End CodecAny.

(** X26. The codec on any event. Whatever bytes the strings of an event
    hold, with an amount that is an [int64] and a clock within the years 0
    to 9999, [SerializeEvent] succeeds and [DeserializeEvent] on its bytes
    returns the event with every byte of its strings that begins no
    well-formed UTF-8 sequence replaced by U+FFFD; an event whose strings
    are valid UTF-8 is returned as it is. *)
Theorem codec_carries_coerced_strings (layout_parse : bytes -> bool) (now : GoTime.t)
    (e : Event) :
  GoTime.wf now -> 0 <= GoTime.year now <= 9999 -> amount_in_int64 e ->
  (exists data, SerializeEvent now e = Some data /\
                DeserializeEvent layout_parse data = Some (normalize e)) /\
  (well_formed_event e -> normalize e = e).
Proof.
  intros Hwf Hy He. split; [apply SerializeEvent_normalizes; assumption|].
  apply normalize_well_formed.
Qed.

Lemma codec_carries_coerced_strings_witness :
  let e := TransactionFailed "txn-2" (unstr [x61; xff; xc3; xa9; xc3]) "insufficient funds" in
  normalize e = TransactionFailed "txn-2" (unstr [x61; xef; xbf; xbd; xc3; xa9; xef; xbf; xbd])
                  "insufficient funds" /\
  exists data, SerializeEvent clock0 e = Some data /\
               DeserializeEvent (fun _ => false) data = Some (normalize e).
Proof.
  intros e. split; [reflexivity|].
  apply (codec_carries_coerced_strings (fun _ => false) clock0 e).
  - unfold GoTime.wf. vm_compute. intuition discriminate.
  - simpl. lia.
  - exact I.
Defined.

Module CoercedFacts.
Import Utf8 Utf8Facts Json JsonStringFacts CoerceFacts.
Local Open Scope N_scope.

Lemma DecodeRune_replacement (t : bytes) :
  DecodeRune ([xef; xbf; xbd] ++ t) = (0xFFFD, 3%nat).
Proof. reflexivity. Qed.

Lemma str_unstr (b : bytes) : str (unstr b) = b.
Proof. apply list_byte_of_string_of_list_byte. Qed.

(** What the codec carries is valid UTF-8. *)
Lemma coerce_go_is_valid (fuel : nat) :
  forall (s : bytes) (f' : nat),
    (length (coerce_go fuel s) <= f')%nat -> Valid_go f' (coerce_go fuel s) = true.
Proof.
  induction fuel as [|fuel IH]; intros s f' Hf.
  - destruct f'; reflexivity.
  - destruct s as [|b s]; [destruct f'; reflexivity|].
    cbn [coerce_go] in Hf |- *.
    destruct (ill_formed (b :: s)) eqn:Hill.
    + rewrite length_app in Hf. cbn [length] in Hf.
      destruct f' as [|f']; [lia|]. cbn [app Valid_go].
      change (xef :: xbf :: xbd :: coerce_go fuel s)
        with ([xef; xbf; xbd] ++ coerce_go fuel s).
      unfold ill_formed at 1. rewrite DecodeRune_replacement. cbn [snd negb andb Nat.eqb].
      change (drop 3 ([xef; xbf; xbd] ++ coerce_go fuel s)) with (coerce_go fuel s).
      rewrite andb_false_r. apply IH. lia.
    + destruct (DecodeRune (b :: s)) as [c size] eqn:Hd. cbn [snd] in Hf |- *.
      assert (H : (1 <= size <= length (b :: s))%nat /\
                  (size <> 1%nat \/ c <> RuneError) /\
                  forall t', DecodeRune (take size (b :: s) ++ t') = (c, size)).
      { destruct (b2n b <? 0x80) eqn:Hb.
        - rewrite (DecodeRune_ascii b s Hb) in Hd. injection Hd as <- <-.
          split; [cbn [length]; lia|]. split.
          + right. unfold RuneError. apply N.ltb_lt in Hb. lia.
          + intros t'. change (take 1 (b :: s) ++ t') with (b :: t').
            apply DecodeRune_ascii, Hb.
        - apply N.ltb_ge in Hb.
          destruct (DecodeRune_well_formed b s c size Hb Hd Hill) as (Hsz & Hle & _ & Htail & _).
          split; [lia|]. split; [left; lia | exact Htail]. }
      destruct H as (Hsz & Hne & Htail).
      assert (Htl : (length (take size (b :: s)) = size)%nat)
        by (rewrite length_take; lia).
      rewrite length_app, Htl in Hf.
      destruct f' as [|f']; [lia|].
      destruct (take size (b :: s) ++ coerce_go fuel (drop size (b :: s))) as [|x l] eqn:E.
      { apply (f_equal (@length byte)) in E. rewrite length_app, Htl in E.
        cbn [length] in E. lia. }
      cbn [Valid_go]. rewrite <- E. unfold ill_formed. rewrite Htail. cbn [snd].
      rewrite drop_app_length' by (symmetry; exact Htl).
      rewrite IH by lia. rewrite andb_true_r. apply negb_true_iff, andb_false_iff.
      destruct Hne as [Hne|Hne].
      * right. apply Nat.eqb_neq, Hne.
      * left. apply N.eqb_neq, Hne.
Qed.

Lemma coerce_is_valid (s : string) : ValidString (coerce s) = true.
Proof.
  unfold ValidString, Valid, coerce. rewrite str_unstr. apply coerce_go_is_valid. lia.
Qed.

Lemma normalize_is_well_formed (e : Event) :
  amount_in_int64 e -> well_formed_event (normalize e).
Proof.
  destruct e as [t a m|t a m|t f r]; cbn [amount_in_int64 normalize well_formed_event];
    intros H; repeat split; try apply coerce_is_valid; apply H.
Qed.

End CoercedFacts.

(** X27. What the codec returns is stable. The event [DeserializeEvent]
    returns for the bytes of [SerializeEvent] has strings in valid UTF-8,
    so serializing it again, at any reading of the clock within the years
    0 to 9999, and deserializing returns the same event. *)
Theorem codec_second_trip_is_stable (layout_parse : bytes -> bool) (now now' : GoTime.t)
    (e e' : Event) (data : bytes) :
  GoTime.wf now -> 0 <= GoTime.year now <= 9999 ->
  GoTime.wf now' -> 0 <= GoTime.year now' <= 9999 ->
  amount_in_int64 e ->
  SerializeEvent now e = Some data ->
  DeserializeEvent layout_parse data = Some e' ->
  well_formed_event e' /\
  exists data', SerializeEvent now' e' = Some data' /\
                DeserializeEvent layout_parse data' = Some e'.
Proof.
  intros Hwf Hy Hwf' Hy' He Hs Hd.
  destruct (SerializeEvent_normalizes layout_parse now e Hwf Hy He) as (line & Hs1 & Hd1).
  rewrite Hs in Hs1. injection Hs1 as <-. rewrite Hd in Hd1. injection Hd1 as ->.
  pose proof (CoercedFacts.normalize_is_well_formed e He) as Hw.
  split; [exact Hw|].
  destruct (SerializeEvent_reads_back layout_parse now' _ Hwf' Hy' Hw) as (data' & H1 & H2 & _).
  exists data'. split; assumption.
Qed.

Lemma codec_second_trip_is_stable_witness :
  let e := TransactionFailed "txn-2" (unstr [xff]) "insufficient funds" in
  let e' := TransactionFailed "txn-2" (unstr [xef; xbf; xbd]) "insufficient funds" in
  exists data,
    SerializeEvent clock0 e = Some data /\
    well_formed_event e' /\
    exists data', SerializeEvent clock0 e' = Some data' /\
                  DeserializeEvent (fun _ => false) data' = Some e'.
Proof.
  intros e e'.
  destruct (SerializeEvent clock0 e) as [data|] eqn:Hs; [|vm_compute in Hs; discriminate Hs].
  exists data. split; [reflexivity|].
  apply (codec_second_trip_is_stable (fun _ => false) clock0 clock0 e e' data).
  - unfold GoTime.wf. vm_compute. intuition discriminate.
  - simpl. lia.
  - unfold GoTime.wf. vm_compute. intuition discriminate.
  - simpl. lia.
  - exact I.
  - exact Hs.
  - vm_compute in Hs. injection Hs as <-. vm_compute. reflexivity.
Defined.

Section TotalFacts.

Lemma handleCommand_total {World : Type} (m : option TransferCommand) (n : Node World) :
  total_of (balances (engine (snd (handleCommand m n)))) = total_of (balances (engine n)).
Proof.
  destruct m as [cmd|]; [|reflexivity].
  rewrite handleCommand_unfold. cbv zeta.
  destruct (AppendBatch _ (store n)) as [[err|] s]; cbn [snd engine]; [reflexivity|].
  rewrite <- process_eval, <- process_state. apply process_total.
Qed.

End TotalFacts.

(** X28. The total the read model reports is conserved. With the read
    model registered as the event handler and holding the balances of the
    engine, its [GetTotalBalance] after any messages, whatever the store
    does, is its [GetTotalBalance] before them. *)
Theorem read_model_total_conserved (msgs : list (option TransferCommand))
    (n : Node ReadModel.t) :
  eventHandlers n = [ReadModel.HandleEventDirect] ->
  ReadModel.balances (world n) = balances (engine n) ->
  ReadModel.GetTotalBalance (world (snd (handle_all msgs n))) =
    ReadModel.GetTotalBalance (world n).
Proof.
  intros Hh Hb. unfold ReadModel.GetTotalBalance.
  assert (H : forall (ms : list (option TransferCommand)) (k : Node ReadModel.t),
             eventHandlers k = [ReadModel.HandleEventDirect] ->
             ReadModel.balances (world k) = balances (engine k) ->
             ReadModel.balances (world (snd (handle_all ms k))) =
               balances (engine (snd (handle_all ms k))) /\
             total_of (balances (engine (snd (handle_all ms k)))) =
               total_of (balances (engine k))).
  { induction ms as [|m ms IH]; intros k Hk1 Hk2; [split; [exact Hk2 | reflexivity]|].
    rewrite handle_all_cons.
    destruct (IH (snd (handleCommand m k))) as [IH1 IH2].
    - rewrite (proj2 (handleCommand_prefix m k)). exact Hk1.
    - apply handleCommand_read_model; assumption.
    - split; [exact IH1|]. rewrite IH2. apply handleCommand_total. }
  destruct (H msgs n Hh Hb) as [H1 H2]. rewrite H1, H2, Hb. reflexivity.
Qed.

Lemma read_model_total_conserved_witness :
  let n := RegisterEventHandler ReadModel.HandleEventDirect
             {| engine := alice_engine; store := empty_store (fun _ => clock0);
                eventHandlers := []; published := [];
                world := ReadModel.SetBalance "alice" 1000 ReadModel.NewReadModel |} in
  let msgs := [Some {| TransactionID := "txn-1"; FromAccount := "alice";
                       ToAccount := "bob"; Amount := 100 |};
               Some {| TransactionID := "txn-2"; FromAccount := "bob";
                       ToAccount := "carol"; Amount := 30 |}] in
  ReadModel.GetTotalBalance (world (snd (handle_all msgs n))) =
    ReadModel.GetTotalBalance (world n).
Proof.
  intros n msgs. apply (read_model_total_conserved msgs n); reflexivity.
Defined.
